(** * Tag-based note sorter ([obsidian_organizer.py]): model and properties

    A shallow embedding of the tag-sorting script: the tag extractor
    ([extract_tags]), the date filter ([is_date_tag]), the folder index
    ([get_existing_folders]), the selector ([find_best_matching_folder]) and
    the relocation loop ([sort_markdown_files]), together with the parts of
    Python's [re], [os.path], [os] and [shutil] they call.

    Python [str] values are modelled as lists of code points below U+0100
    (the type [ascii] has exactly these 256 values); classification and
    case mapping of characters follow Unicode on that range.

    Output is not modelled: a [print] changes nothing that the properties
    speak of, and the error it raises when the console cannot encode a
    character has no counterpart here.  Nor has the [ValueError] of the
    system calls on a path that holds the NUL character: the file system
    of the model finds no file under such a path. *)

From Stdlib Require Import List Ascii String Bool Arith Lia Sorted FinFun.
From Stdlib Require Import DecimalString DecimalNat.
Import ListNotations.

Set Implicit Arguments.

Abbreviation length := List.length.

Set Warnings "-register-all".

(** ** Strings *)

Definition str := list ascii.

Coercion list_ascii_of_string : string >-> list.

Open Scope string_scope.
Open Scope list_scope.
Open Scope nat_scope.

Definition LF : ascii := "010"%char.

Definition str_eqb (a b : str) : bool :=
  if list_eq_dec ascii_dec a b then true else false.

(** [a.startswith(b)] *)
Fixpoint startswith (s p : str) : bool :=
  match p, s with
  | [], _ => true
  | c :: p', d :: s' => Ascii.eqb c d && startswith s' p'
  | _ :: _, [] => false
  end.

(** [a.endswith(b)] *)
Definition endswith (s p : str) : bool :=
  startswith (rev s) (rev p).

(** [b in a] for strings: [b] occurs in [a] as a contiguous run. *)
Fixpoint contains (s p : str) : bool :=
  startswith s p ||
  match s with
  | [] => false
  | _ :: s' => contains s' p
  end.

(** Code-point tests, as [str.isspace] and Unicode category Nd give them
    below U+0100. *)
Definition in_range (lo hi : nat) (c : ascii) : bool :=
  (lo <=? nat_of_ascii c) && (nat_of_ascii c <=? hi).

Definition is_space (c : ascii) : bool :=
  in_range 9 13 c || in_range 28 32 c ||
  (nat_of_ascii c =? 133) || (nat_of_ascii c =? 160).

Definition is_digit (c : ascii) : bool := in_range 48 57 c.

(** [str.lower] on one code point: A-Z and the Latin-1 capitals U+00C0 to
    U+00DE (the multiplication sign U+00D7 is not a letter). *)
Definition lower_char (c : ascii) : ascii :=
  if in_range 65 90 c
     || (in_range 192 222 c && negb (nat_of_ascii c =? 215))
  then ascii_of_nat (nat_of_ascii c + 32)
  else c.

Definition lower (s : str) : str := map lower_char s.

(** [s.split(sep)] for a one-character separator. *)
Fixpoint split (sep : ascii) (s : str) : list str :=
  match s with
  | [] => [[]]
  | c :: s' =>
      if Ascii.eqb c sep then [] :: split sep s'
      else match split sep s' with
           | [] => [[c]]
           | w :: ws => (c :: w) :: ws
           end
  end.

(** [sep.join(parts)] *)
Fixpoint join_with (sep : str) (parts : list str) : str :=
  match parts with
  | [] => []
  | [p] => p
  | p :: ps => p ++ sep ++ join_with sep ps
  end.

(** [str(i)] for a non-negative integer. *)
Definition str_of_nat (n : nat) : str :=
  list_ascii_of_string (NilZero.string_of_uint (Nat.to_uint n)).

(** ** The fragment of [re] the script uses

    Python's [re] is a backtracking matcher: alternatives are tried left to
    right, a greedy star takes as many characters as it can and gives them
    back one at a time, a lazy star takes as few as it can.  The matcher is
    written in continuation-passing style, so that the first success in
    that order is the result. *)

Module Re.

(** One-character items: a literal, [\d], [\s], [.] *)
Inductive cset := Lit (c : ascii) | Digit | Space | Dot.

Inductive greed := Greedy | Lazy.

Inductive regex :=
| Eps
| Chr (p : cset)
| Seq (a b : regex)
| Alt (a b : regex)
| Star (g : greed) (p : cset)       (* [x*] and [x*?] for one-character [x] *)
| Rep (n : nat) (p : cset)          (* [x{n}] *)
| Group (a : regex)                 (* the capturing group *)
| Bol                               (* [^] *)
| Eol.                              (* [$] *)

Declare Scope re_scope.
Delimit Scope re_scope with re.
Bind Scope re_scope with regex.
Infix ";;" := Seq (at level 61, right associativity) : re_scope.

(** A literal string. *)
Fixpoint lit (s : str) : regex :=
  match s with
  | [] => Eps
  | c :: s' => Seq (Chr (Lit c)) (lit s')
  end.

(** [dotall] is the [re.DOTALL] flag. *)
Definition cset_mem (dotall : bool) (p : cset) (c : ascii) : bool :=
  match p with
  | Lit d => Ascii.eqb c d
  | Digit => is_digit c
  | Space => is_space c
  | Dot => dotall || negb (Ascii.eqb c LF)
  end.

(** Matching state: the position in the subject, what is left of it, and
    the text of the capturing group once it has closed. *)
Record mstate := MState { pos : nat; rest : str; grp : option str }.

Definition advance (st : mstate) (t : str) : mstate :=
  MState (S (pos st)) t (grp st).

Section Matcher.
Variable A : Type.
Variable dotall : bool.

Fixpoint star_greedy (p : cset) (k : mstate -> option A)
         (i : nat) (s : str) (g : option str) : option A :=
  match s with
  | c :: t =>
      if cset_mem dotall p c then
        match star_greedy p k (S i) t g with
        | Some r => Some r
        | None => k (MState i s g)
        end
      else k (MState i s g)
  | [] => k (MState i s g)
  end.

Fixpoint star_lazy (p : cset) (k : mstate -> option A)
         (i : nat) (s : str) (g : option str) : option A :=
  match k (MState i s g) with
  | Some r => Some r
  | None =>
      match s with
      | c :: t => if cset_mem dotall p c then star_lazy p k (S i) t g
                  else None
      | [] => None
      end
  end.

Fixpoint rep (n : nat) (p : cset) (k : mstate -> option A)
         (i : nat) (s : str) (g : option str) : option A :=
  match n with
  | 0 => k (MState i s g)
  | S n' =>
      match s with
      | c :: t => if cset_mem dotall p c then rep n' p k (S i) t g
                  else None
      | [] => None
      end
  end.

Fixpoint run (r : regex) (st : mstate) (k : mstate -> option A)
  : option A :=
  match r with
  | Eps => k st
  | Chr p =>
      match rest st with
      | c :: t => if cset_mem dotall p c then k (advance st t) else None
      | [] => None
      end
  | Seq a b => run a st (fun st' => run b st' k)
  | Alt a b =>
      match run a st k with
      | Some x => Some x
      | None => run b st k
      end
  | Star Greedy p => star_greedy p k (pos st) (rest st) (grp st)
  | Star Lazy p => star_lazy p k (pos st) (rest st) (grp st)
  | Rep n p => rep n p k (pos st) (rest st) (grp st)
  | Group a =>
      run a st (fun st' =>
        k (MState (pos st') (rest st')
                  (Some (firstn (pos st' - pos st) (rest st)))))
  | Bol => if pos st =? 0 then k st else None
  | Eol =>
      (* end of the subject, or just before a line feed that ends it *)
      match rest st with
      | [] => k st
      | [c] => if Ascii.eqb c LF then k st else None
      | _ => None
      end
  end.
End Matcher.

(** The match object: where the match ends, what follows, and group 1. *)
Definition match_at (dotall : bool) (r : regex) (i : nat) (s : str)
  : option mstate :=
  run dotall r (MState i s None) (@Some mstate).

(** [re.match(r, s)] *)
Definition re_match (dotall : bool) (r : regex) (s : str) : option mstate :=
  match_at dotall r 0 s.

(** [re.search(r, s)]: the match at the leftmost position that has one. *)
Fixpoint search_from (dotall : bool) (r : regex) (i : nat) (s : str)
  : option mstate :=
  match match_at dotall r i s with
  | Some m => Some m
  | None =>
      match s with
      | [] => None
      | _ :: t => search_from dotall r (S i) t
      end
  end.

Definition re_search (dotall : bool) (r : regex) (s : str) : option mstate :=
  search_from dotall r 0 s.

(** [m.group(1)] *)
Definition group1 (m : mstate) : str :=
  match grp m with Some g => g | None => [] end.

(** [re.findall(r, s)] for a pattern with one group: scan left to right,
    collect group 1 of each match and resume where the match ended (one
    character further after an empty match). *)
Fixpoint findall_loop (fuel : nat) (dotall : bool) (r : regex)
         (i : nat) (s : str) : list str :=
  match fuel with
  | 0 => []
  | S fuel' =>
      match match_at dotall r i s with
      | Some m =>
          group1 m ::
            (if pos m =? i then
               match s with
               | [] => []
               | _ :: t => findall_loop fuel' dotall r (S i) t
               end
             else findall_loop fuel' dotall r (pos m) (rest m))
      | None =>
          match s with
          | [] => []
          | _ :: t => findall_loop fuel' dotall r (S i) t
          end
      end
  end.

Definition re_findall (dotall : bool) (r : regex) (s : str) : list str :=
  findall_loop (S (length s)) dotall r 0 s.

End Re.

Import Re.
Open Scope re_scope.

(** ** [extract_tags] *)

(** [r'\*\*\*Tags:\*\*\s*(\[\[.*?\]\].*?)(?:\n|$)'] *)
Definition tag_pattern1 : regex :=
  lit "***Tags:**" ;; Star Greedy Space ;;
  Group (lit "[[" ;; Star Lazy Dot ;; lit "]]" ;; Star Lazy Dot) ;;
  Alt (Chr (Lit LF)) Eol.

(** [r'\[\[(.*?)\]\]'] *)
Definition tag_pattern2 : regex :=
  lit "[[" ;; Group (Star Lazy Dot) ;; lit "]]".

(** The body of [extract_tags] once the file has been read. *)
Definition extract_tags_content (content : str) : list str :=
  match re_search true tag_pattern1 content with
  | Some tag_section => re_findall false tag_pattern2 (group1 tag_section)
  | None =>
      let tags := re_findall false tag_pattern2 content in
      match tags with
      | _ :: _ => tags
      | [] => []
      end
  end.

(** ** [is_date_tag] *)

Definition date_patterns : list regex :=
  [ Bol ;; Rep 4 Digit ;; Chr (Lit "-") ;; Rep 2 Digit ;; Chr (Lit "-") ;;
    Rep 2 Digit ;; Eol;
    Bol ;; Rep 4 Digit ;; Chr (Lit "-") ;; Rep 2 Digit ;; Eol;
    Bol ;; Rep 2 Digit ;; Chr (Lit "-") ;; Rep 2 Digit ;; Chr (Lit "-") ;;
    Rep 4 Digit ;; Eol;
    Bol ;; Rep 2 Digit ;; Chr (Lit "-") ;; Rep 2 Digit ;; Chr (Lit "-") ;;
    Rep 2 Digit ;; Eol ].

Definition is_date_tag (tag : str) : bool :=
  existsb (fun pattern =>
             match re_match false pattern tag with
             | Some _ => true
             | None => false
             end) date_patterns.

(** ** Dictionaries

    A Python [dict] keeps its keys in insertion order; assigning to a key
    that is present replaces the value and leaves the key where it is. *)

Section Dict.
Variable V : Type.

Definition dict := list (str * V).

Fixpoint dict_set (d : dict) (k : str) (v : V) : dict :=
  match d with
  | [] => [(k, v)]
  | (k', v') :: d' =>
      if str_eqb k' k then (k, v) :: d'
      else (k', v') :: dict_set d' k v
  end.

Fixpoint dict_get (d : dict) (k : str) : option V :=
  match d with
  | [] => None
  | (k', v') :: d' => if str_eqb k' k then Some v' else dict_get d' k
  end.

Definition dict_keys (d : dict) : list str := map fst d.
End Dict.

(** ** [os.path] (POSIX flavour) *)

Module OsPath.

Definition sep : ascii := "/"%char.

(** [os.path.join(a, b)] *)
Definition join (a b : str) : str :=
  if startswith b "/" then b
  else if (match a with [] => true | _ => false end) || endswith a "/"
       then a ++ b
       else a ++ "/" ++ b.

(** [p[p.rfind('/') + 1:]]: what follows the last slash. *)
Fixpoint after_last_sep (p : str) : str :=
  match p with
  | [] => []
  | c :: p' =>
      if existsb (Ascii.eqb sep) p' then after_last_sep p'
      else if Ascii.eqb c sep then p' else p
  end.

(** [os.path.basename] *)
Definition basename (p : str) : str := after_last_sep p.

(** [s.rstrip('/')] *)
Definition rstrip_sep (s : str) : str :=
  rev ((fix drop (l : str) : str :=
          match l with
          | c :: l' => if Ascii.eqb c sep then drop l' else l
          | [] => []
          end) (rev s)).

(** [os.path.dirname] *)
Definition dirname (p : str) : str :=
  let head := firstn (length p - length (after_last_sep p)) p in
  if forallb (Ascii.eqb sep) head then head else rstrip_sep head.

(** The loop of [normpath] over the components; [new_comps] is kept with
    its last element first. *)
Fixpoint norm_comps (absolute : bool) (comps : list str)
         (new_comps : list str) : list str :=
  match comps with
  | [] => rev new_comps
  | comp :: comps' =>
      if str_eqb comp "" || str_eqb comp "." then
        norm_comps absolute comps' new_comps
      else if negb (str_eqb comp "..")
              || (negb absolute && match new_comps with [] => true | _ => false end)
              || match new_comps with
                 | last :: _ => str_eqb last ".."
                 | [] => false
                 end
      then norm_comps absolute comps' (comp :: new_comps)
      else norm_comps absolute comps' (tl new_comps)
  end.

(** [os.path.normpath] *)
Definition normpath (p : str) : str :=
  match p with
  | [] => "."
  | _ =>
      let initial_slashes :=
        if startswith p "/" then
          if startswith p "//" && negb (startswith p "///") then 2 else 1
        else 0 in
      let comps := norm_comps (negb (initial_slashes =? 0)) (split sep p) [] in
      let path := repeat sep initial_slashes ++ join_with "/" comps in
      match path with [] => "." | _ => path end
  end.

(** [os.path.abspath], with the working directory made explicit *)
Definition abspath (cwd p : str) : str :=
  if startswith p "/" then normpath p else normpath (join cwd p).

Fixpoint commonprefix (a b : list str) : list str :=
  match a, b with
  | x :: a', y :: b' => if str_eqb x y then x :: commonprefix a' b' else []
  | _, _ => []
  end.

Definition nonempty (x : str) : bool :=
  match x with [] => false | _ => true end.

(** [os.path.relpath(path, start)] for a non-empty [path] *)
Definition relpath (cwd path start : str) : str :=
  let start_list := filter nonempty (split sep (abspath cwd start)) in
  let path_list := filter nonempty (split sep (abspath cwd path)) in
  let i := length (commonprefix start_list path_list) in
  let rel_list :=
    repeat (".." : str) (length start_list - i) ++ skipn i path_list in
  match rel_list with
  | [] => "."
  | _ => fold_left join (tl rel_list) (hd [] rel_list)
  end.

(** The first index from which no character is a dot, when counted from
    [filenameIndex]: the "skip all leading dots" loop of [splitext]. *)
Fixpoint all_dots (s : str) : bool :=
  match s with
  | [] => true
  | c :: s' => Ascii.eqb c "."%char && all_dots s'
  end.

(** What follows the last dot, dot included; [None] without a dot. *)
Fixpoint from_last_dot (p : str) : option str :=
  match p with
  | [] => None
  | c :: p' =>
      match from_last_dot p' with
      | Some e => Some e
      | None => if Ascii.eqb c "."%char then Some p else None
      end
  end.

(** [os.path.splitext] *)
Definition splitext (p : str) : str * str :=
  let name := after_last_sep p in
  match from_last_dot name with
  | Some ext =>
      let stem := firstn (length name - length ext) name in
      if all_dots stem then (p, [])
      else (firstn (length p - length ext) p, ext)
  | None => (p, [])
  end.

End OsPath.

(** ** The file system

    A tree of directories and files.  A directory that cannot be listed has
    [readable = false]; a file that cannot be read as UTF-8 text has no
    content.  Symbolic links are not modelled. *)

Inductive node :=
| File (content : option str)
| Dir (readable : bool) (entries : list (str * node)).

Record os_state := OsState { fs_root : node; cwd : str }.

Inductive exn := OSError | ValueError.

Inductive result (A : Type) :=
| Ok (a : A)
| Raise (e : exn).
Arguments Ok {A} a.
Arguments Raise {A} e.

Definition bind {A B} (m : result A) (f : A -> result B) : result B :=
  match m with
  | Ok a => f a
  | Raise e => Raise e
  end.

Notation "'let*' x ':=' m 'in' k" := (bind m (fun x => k))
  (at level 10, x name, m at level 100, k at level 200).

Module Fs.

Definition is_dir (n : node) : bool :=
  match n with Dir _ _ => true | File _ => false end.

Fixpoint lookup (x : str) (es : list (str * node)) : option node :=
  match es with
  | [] => None
  | (y, n) :: es' => if str_eqb y x then Some n else lookup x es'
  end.

(** The node reached from [n] along the names [names]. *)
Fixpoint get (n : node) (names : list str) : option node :=
  match names with
  | [] => Some n
  | x :: xs =>
      match n with
      | Dir _ es =>
          match lookup x es with
          | Some c => get c xs
          | None => None
          end
      | File _ => None
      end
  end.

(** Path resolution, one component at a time; [cur] is the list of names
    from the root to the current directory, last name first.  Every
    component but the last is looked up in a directory. *)
Fixpoint resolve_comps (root : node) (cur : list str) (comps : list str)
  : option (list str) :=
  match comps with
  | [] => Some cur
  | comp :: comps' =>
      match get root (rev cur) with
      | Some (Dir _ es) =>
          if str_eqb comp "" || str_eqb comp "." then
            resolve_comps root cur comps'
          else if str_eqb comp ".." then
            resolve_comps root (tl cur) comps'
          else
            match lookup comp es with
            | Some _ => resolve_comps root (comp :: cur) comps'
            | None => None
            end
      | _ => None
      end
  end.

(** The names from the root to the object a path denotes. *)
Definition resolve (st : os_state) (p : str) : option (list str) :=
  match p with
  | [] => None
  | _ =>
      if startswith p "/" then
        resolve_comps (fs_root st) [] (split OsPath.sep p)
      else
        match resolve_comps (fs_root st) [] (split OsPath.sep (cwd st)) with
        | Some here => resolve_comps (fs_root st) here (split OsPath.sep p)
        | None => None
        end
  end.

Definition stat (st : os_state) (p : str) : option node :=
  match resolve st p with
  | Some cur => get (fs_root st) (rev cur)
  | None => None
  end.

(** [os.path.exists], [os.path.isfile] *)
Definition exists_ (st : os_state) (p : str) : bool :=
  match stat st p with Some _ => true | None => false end.

Definition isfile (st : os_state) (p : str) : bool :=
  match stat st p with Some (File _) => true | _ => false end.

(** [os.listdir] (and [os.scandir]): the names in a directory, or
    [OSError]. *)
Definition scandir (st : os_state) (p : str)
  : result (list (str * node)) :=
  match stat st p with
  | Some (Dir true es) => Ok es
  | _ => Raise OSError
  end.

Definition listdir (st : os_state) (p : str) : result (list str) :=
  let* es := scandir st p in Ok (map fst es).

(** [open(p, 'r', encoding='utf-8').read()] *)
Definition read_text (st : os_state) (p : str) : result str :=
  match stat st p with
  | Some (File (Some content)) => Ok content
  | _ => Raise OSError
  end.

(** [os.walk(top)], top-down, with the default [onerror=None]: a
    directory whose [scandir] fails is dropped silently, the top
    directory included, and the sub-directories are visited in the order
    of the listing. *)
Fixpoint walk_node (top : str) (n : node)
  : list (str * list str * list str) :=
  match n with
  | Dir true es =>
      (top,
       map fst (filter (fun e => is_dir (snd e)) es),
       map fst (filter (fun e => negb (is_dir (snd e))) es))
      :: flat_map (fun e =>
           let '(name, c) := e in
           if is_dir c then walk_node (OsPath.join top name) c else []) es
  | _ => []
  end.

Definition walk (st : os_state) (top : str)
  : list (str * list str * list str) :=
  match stat st top with
  | Some n => walk_node top n
  | None => []
  end.

(** Rewrite the listing of the directory at [names]. *)
Fixpoint replace_entry (x : str) (c : node) (es : list (str * node))
  : list (str * node) :=
  match es with
  | [] => []
  | (y, n) :: es' =>
      if str_eqb y x then (y, c) :: es' else (y, n) :: replace_entry x c es'
  end.

Fixpoint update (n : node) (names : list str)
         (f : list (str * node) -> option (list (str * node)))
  : option node :=
  match n with
  | File _ => None
  | Dir r es =>
      match names with
      | [] => match f es with
              | Some es' => Some (Dir r es')
              | None => None
              end
      | x :: xs =>
          match lookup x es with
          | Some c =>
              match update c xs f with
              | Some c' => Some (Dir r (replace_entry x c' es))
              | None => None
              end
          | None => None
          end
      end
  end.

Fixpoint remove_entry (x : str) (es : list (str * node))
  : list (str * node) :=
  match es with
  | [] => []
  | (y, n) :: es' =>
      if str_eqb y x then es' else (y, n) :: remove_entry x es'
  end.

(** A new name is listed last; an existing file is replaced. *)
Definition put_entry (x : str) (c : node) (es : list (str * node))
  : option (list (str * node)) :=
  match lookup x es with
  | None => Some (es ++ [(x, c)])
  | Some (File _) => Some (replace_entry x c es)
  | Some (Dir _ _) => None
  end.

(** The directory a new path would be created in, and its last name. *)
Definition resolve_parent (st : os_state) (p : str)
  : option (list str * str) :=
  let comps := split OsPath.sep p in
  let name := last comps [] in
  if str_eqb name "" || str_eqb name "." || str_eqb name ".." then None
  else
    match
      (if startswith p "/" then Some []
       else resolve_comps (fs_root st) [] (split OsPath.sep (cwd st)))
    with
    | Some here =>
        match resolve_comps (fs_root st) here (removelast comps) with
        | Some cur => Some (rev cur, name)
        | None => None
        end
    | None => None
    end.

(** [os.rename(src, dst)] *)
Definition rename (st : os_state) (src dst : str) : result os_state :=
  match resolve st src, resolve_parent st dst with
  | Some (x :: cur), Some (parent, name) =>
      match get (fs_root st) (rev (x :: cur)) with
      | Some moved =>
          match update (fs_root st) (rev cur)
                       (fun es => Some (remove_entry x es)) with
          | Some root1 =>
              match update root1 parent (put_entry name moved) with
              | Some root2 => Ok (OsState root2 (cwd st))
              | None => Raise OSError
              end
          | None => Raise OSError
          end
      | None => Raise OSError
      end
  | _, _ => Raise OSError
  end.

Definition isdir (st : os_state) (p : str) : bool :=
  match stat st p with Some (Dir _ _) => true | _ => false end.

(** [shutil.move(src, dst)]: into [dst] when it is a directory, a rename
    otherwise. *)
Definition move (st : os_state) (src dst : str) : result os_state :=
  if isdir st dst then
    let real_dst := OsPath.join dst (OsPath.basename (OsPath.rstrip_sep src)) in
    if exists_ st real_dst then Raise OSError
    else rename st src real_dst
  else rename st src dst.

(** The number of objects in a tree. *)
Fixpoint size (n : node) : nat :=
  match n with
  | File _ => 1
  | Dir _ es => S (list_sum (map (fun e => size (snd e)) es))
  end.

End Fs.

(** ** The folder index *)

Record FolderEntry := { path : str; depth : nat }.

Definition FolderIndex := dict FolderEntry.

(** [get_existing_folders(root_dir)].  [g_source_dir] is the module-level
    variable [source_dir], when the script has defined it
    (['source_dir' in globals()]).  The loop that prints some of the folders
    found changes nothing and is left out, like every other [print]. *)
Definition get_existing_folders (g_source_dir : option str) (st : os_state)
           (root_dir : str) : result FolderIndex :=
  let folders : FolderIndex := [] in
  let folders :=
    fold_left (fun (folders : FolderIndex) (step : str * list str * list str) =>
      let '(dirpath, dirnames, _) := step in
      (* Skip the source directory itself if it's defined *)
      if match g_source_dir with
         | Some source_dir => str_eqb dirpath source_dir
         | None => false
         end
      then folders
      (* Skip .git directories *)
      else if contains dirpath ".git" then folders
      else
        fold_left (fun (folders : FolderIndex) (dirname : str) =>
          let folder_path := OsPath.join dirpath dirname in
          let folder_name := lower dirname in
          let path_parts :=
            split OsPath.sep (OsPath.relpath (cwd st) folder_path root_dir) in
          let depth := length path_parts in
          dict_set folders folder_name
                   {| path := folder_path; depth := depth |})
        dirnames folders)
    (Fs.walk st root_dir) folders in
  Ok folders.

(** ** [find_best_matching_folder] *)

Inductive match_type := Exact.

(** [l.sort(key=..., reverse=True)]: the sort is stable, so elements with
    the same key keep their order; that determines the result, whatever
    the sorting algorithm. *)
Section SortDesc.
Variable A : Type.
Variable key : A -> nat.

Fixpoint insert_desc (x : A) (l : list A) : list A :=
  match l with
  | [] => [x]
  | y :: l' => if key y <=? key x then x :: l else y :: insert_desc x l'
  end.

Definition sort_desc (l : list A) : list A := fold_right insert_desc [] l.
End SortDesc.

Definition non_date (tags : list str) : list str :=
  filter (fun tag => negb (is_date_tag tag)) tags.

(** The list [matches] after the two nested loops. *)
Definition collect_matches (non_date_tags : list str) (folders : FolderIndex)
  : list (FolderEntry * match_type) :=
  flat_map (fun tag =>
    let tag_lower := lower tag in
    flat_map (fun item : str * FolderEntry =>
      let '(folder_name, folder_info) := item in
      (* Exact match (ignoring case) *)
      if str_eqb tag_lower folder_name then [(folder_info, Exact)] else [])
    folders)
  non_date_tags.

Definition find_best_matching_folder (tags : list str) (folders : FolderIndex)
  : option str :=
  (* Remove date-type tags *)
  let non_date_tags := non_date tags in
  match non_date_tags with
  | [] => None
  | _ :: _ =>
      let matches := collect_matches non_date_tags folders in
      match matches with
      | [] => None
      | _ :: _ =>
          (* Sort matches by depth (deepest first) *)
          let matches := sort_desc (fun x => depth (fst x)) matches in
          match matches with
          | best :: _ => Some (path (fst best))
          | [] => None
          end
      end
  end.

(** ** [sort_markdown_files] *)

(** What the run does to files: it opens them and it moves them. *)
Inductive event :=
| Opened (file_path : str)
| Moved (file_path destination : str).

Record run_state := RunState {
  rs_os : os_state;
  moved_count : nat;
  events : list event
}.

(** [extract_tags(file_path)]: any error while reading gives no tags. *)
Definition extract_tags (st : os_state) (file_path : str) : list str :=
  match Fs.read_text st file_path with
  | Ok content => extract_tags_content content
  | Raise _ => []
  end.

(** The [while os.path.exists(...)] loop that looks for a free name, [i]
    counting up; [None] when [fuel] iterations were not enough. *)
Fixpoint free_suffix (fuel : nat) (st : os_state)
         (target_folder base_name ext : str) (i : nat) : option nat :=
  match fuel with
  | 0 => None
  | S fuel' =>
      if Fs.exists_ st
           (OsPath.join target_folder
                        (base_name ++ "_" ++ str_of_nat i ++ ext))
      then free_suffix fuel' st target_folder base_name ext (S i)
      else Some i
  end.

(** The destination path for [file_path] in [target_folder]. *)
Definition destination_for (st : os_state) (target_folder file_path : str)
  : option str :=
  let destination := OsPath.join target_folder (OsPath.basename file_path) in
  if Fs.exists_ st destination then
    let '(base_name, ext) := OsPath.splitext (OsPath.basename file_path) in
    match free_suffix (S (Fs.size (fs_root st))) st
                      target_folder base_name ext 1 with
    | Some i =>
        Some (OsPath.join target_folder
                          (base_name ++ "_" ++ str_of_nat i ++ ext))
    | None => None
    end
  else Some destination.

(** One turn of the loop over [markdown_files]. *)
Definition process_file (existing_folders : FolderIndex) (rs : run_state)
           (file_path : str) : option run_state :=
  let st := rs_os rs in
  let rs := RunState st (moved_count rs) (events rs ++ [Opened file_path]) in
  let tags := extract_tags st file_path in
  match tags with
  | [] => Some rs
  | _ :: _ =>
      (* Find the best (deepest) matching folder for all tags *)
      match find_best_matching_folder tags existing_folders with
      | None => Some rs
      | Some [] => Some rs
      | Some target_folder =>
          (* If the file is already in the right place, skip it *)
          if str_eqb (OsPath.normpath (OsPath.dirname file_path))
                     (OsPath.normpath target_folder)
          then Some rs
          else
            match destination_for st target_folder file_path with
            | None => None
            | Some destination =>
                let rs := RunState st (moved_count rs)
                            (events rs ++ [Moved file_path destination]) in
                match Fs.move st file_path destination with
                | Ok st' =>
                    Some (RunState st' (S (moved_count rs)) (events rs))
                | Raise _ => Some rs
                end
            end
      end
  end.

Fixpoint process_files (existing_folders : FolderIndex) (rs : run_state)
         (markdown_files : list str) : option run_state :=
  match markdown_files with
  | [] => Some rs
  | file_path :: more =>
      match process_file existing_folders rs file_path with
      | Some rs' => process_files existing_folders rs' more
      | None => None
      end
  end.

(** The list [markdown_files]. *)
Definition markdown_files_of (st : os_state) (source_dir : str)
           (listing : list str) : list str :=
  flat_map (fun filename =>
    if endswith (lower filename) ".md" then
      let file_path := OsPath.join source_dir filename in
      if Fs.isfile st file_path then [file_path] else []
    else [])
  listing.

(** [sort_markdown_files(source_dir, root_dir)].  The outer [option] is
    [None] only if a loop ran out of fuel. *)
Definition sort_markdown_files (g_source_dir : option str) (st : os_state)
           (source_dir root_dir : str) : option (result run_state) :=
  match get_existing_folders g_source_dir st root_dir with
  | Raise e => Some (Raise e)
  | Ok existing_folders =>
      match Fs.listdir st source_dir with
      | Raise e => Some (Raise e)
      | Ok listing =>
          let markdown_files := markdown_files_of st source_dir listing in
          match process_files existing_folders (RunState st 0 [])
                              markdown_files with
          | Some rs => Some (Ok rs)
          | None => None
          end
      end
  end.

(** ** [browse_directories]

    The lines typed by the user are a list, consumed one [input()] at a
    time; [input()] on an empty list is the end of the input. *)

Inductive outcome (A : Type) :=
| Returns (a : A)
| Raises (e : exn)
| EndOfInput.
Arguments Returns {A} a.
Arguments Raises {A} e.
Arguments EndOfInput {A}.

(** [c.isdigit()] below U+0100: the decimal digits and the superscripts
    two, three and one. *)
Definition is_digit_char (c : ascii) : bool :=
  is_digit c || (nat_of_ascii c =? 178) || (nat_of_ascii c =? 179)
  || (nat_of_ascii c =? 185).

(** [s.isdigit()] *)
Definition isdigit (s : str) : bool :=
  match s with
  | [] => false
  | _ => forallb is_digit_char s
  end.

(** [int(s)] for a string that passed [isdigit]: only decimal digits
    convert, and no more than 4300 of them. *)
Definition int_of_digits (s : str) : result nat :=
  if forallb is_digit s && (length s <=? 4300) then
    Ok (fold_left (fun n c => 10 * n + (nat_of_ascii c - 48)) s 0)
  else Raise ValueError.

(** The [while True] loop of [browse_directories]; the result is the
    directory selected and the lines not read yet. *)
Fixpoint browse_loop (st : os_state) (current_dir : str) (inputs : list str)
  : outcome (str * list str) :=
  (* List subdirectories *)
  match Fs.listdir st current_dir with
  | Raise e => Raises e
  | Ok listing =>
      let subdirs :=
        filter (fun d => Fs.isdir st (OsPath.join current_dir d)) listing in
      match inputs with
      | [] => EndOfInput
      | choice :: inputs' =>
          if str_eqb choice "0" then Returns (current_dir, inputs')
          else if str_eqb (lower choice) "b" then
            let parent_dir := OsPath.dirname current_dir in
            if str_eqb parent_dir current_dir then
              browse_loop st current_dir inputs'
            else browse_loop st parent_dir inputs'
          else if isdigit choice then
            match int_of_digits choice with
            | Raise e => Raises e
            | Ok n =>
                if (1 <=? n) && (n <=? length subdirs) then
                  browse_loop st
                    (OsPath.join current_dir (nth (n - 1) subdirs []))
                    inputs'
                else browse_loop st current_dir inputs'
            end
          else browse_loop st current_dir inputs'
      end
  end.

(** [browse_directories(starting_dir)] *)
Definition browse_directories (st : os_state) (starting_dir : option str)
           (inputs : list str) : outcome (str * list str) :=
  let current_dir :=
    match starting_dir with
    | Some (c :: d) => c :: d
    | _ => cwd st
    end in
  browse_loop st current_dir inputs.

(** * Vocabulary of the properties *)

(** ** Selection *)

(** Tag number [i] of the filtered sequence and folder number [j] of the
    index match, and [e] is that folder's entry. *)
Definition is_candidate (filtered : list str) (folders : FolderIndex)
           (i j : nat) (e : FolderEntry) : Prop :=
  exists tag key,
    nth_error filtered i = Some tag /\
    nth_error folders j = Some (key, e) /\
    lower tag = key.

(** The nested loops reach the pair [(i, j)] no later than [(i', j')]. *)
Definition not_after (i j i' j' : nat) : Prop :=
  i < i' \/ (i = i' /\ j <= j').

(** The candidates with the loop counters that found them. *)
Fixpoint label_folders (tag_lower : str) (i j : nat) (folders : FolderIndex)
  : list (nat * nat * FolderEntry) :=
  match folders with
  | [] => []
  | (k, e) :: fs =>
      (if str_eqb tag_lower k then [(i, j, e)] else [])
      ++ label_folders tag_lower i (S j) fs
  end.

Fixpoint label_tags (i : nat) (tags : list str) (folders : FolderIndex)
  : list (nat * nat * FolderEntry) :=
  match tags with
  | [] => []
  | t :: ts =>
      label_folders (lower t) i 0 folders ++ label_tags (S i) ts folders
  end.

Definition lex_lt (a b : nat * nat * FolderEntry) : Prop :=
  fst (fst a) < fst (fst b) \/
  (fst (fst a) = fst (fst b) /\ snd (fst a) < snd (fst b)).

(** ** Date shapes *)

(** A position of a shape holds a digit ([D]) or a hyphen ([H]); [N], a
    line feed, is no part of any date shape and only serves to say what
    [$] lets through. *)
Inductive slot := D | H | N.

Definition slot_ok (k : slot) (c : ascii) : bool :=
  match k with
  | D => is_digit c
  | H => Ascii.eqb c "-"%char
  | N => Ascii.eqb c LF
  end.

Definition fits (shape : list slot) (t : str) : Prop :=
  Forall2 (fun k c => slot_ok k c = true) shape t.

Definition YYYY_MM_DD : list slot := [D; D; D; D; H; D; D; H; D; D].
Definition YYYY_MM : list slot := [D; D; D; D; H; D; D].
Definition DD_MM_YYYY : list slot := [D; D; H; D; D; H; D; D; D; D].
Definition DD_MM_YY : list slot := [D; D; H; D; D; H; D; D].

Definition date_shapes : list (list slot) :=
  [YYYY_MM_DD; YYYY_MM; DD_MM_YYYY; DD_MM_YY].

(** The full text of [t] has one of the four shapes. *)
Definition date_shape (t : str) : Prop :=
  exists shape, In shape date_shapes /\ fits shape t.

Fixpoint fitsb (shape : list slot) (t : str) : bool :=
  match shape, t with
  | [], [] => true
  | k :: shape', c :: t' => slot_ok k c && fitsb shape' t'
  | _, _ => false
  end.

Definition date_shapeb (t : str) : bool :=
  existsb (fun shape => fitsb shape t) date_shapes.

(** ** The walk of the index builder *)

(** The two [continue] tests of [get_existing_folders]. *)
Definition skipped (g_source_dir : option str) (dirpath : str) : bool :=
  match g_source_dir with
  | Some source_dir => str_eqb dirpath source_dir
  | None => false
  end || contains dirpath ".git".

(** The folders the builder assigns an entry to, in the order of the
    assignments: the directory being listed and the name found in it. *)
Definition visits (g_source_dir : option str) (st : os_state) (root_dir : str)
  : list (str * str) :=
  flat_map (fun step : str * list str * list str =>
              let '(dirpath, dirnames, _) := step in
              if skipped g_source_dir dirpath then []
              else map (pair dirpath) dirnames)
           (Fs.walk st root_dir).

(** The entry assigned to the folder [dirname] found in [dirpath]. *)
Definition entry_of (st : os_state) (root_dir : str) (v : str * str)
  : FolderEntry :=
  let folder_path := OsPath.join (fst v) (snd v) in
  {| path := folder_path;
     depth := length (split OsPath.sep
                            (OsPath.relpath (cwd st) folder_path root_dir)) |}.

(** ** Trees *)

(** Induction over a tree and the trees listed in it. *)
Fixpoint node_induction (P : node -> Prop)
         (Hf : forall c, P (File c))
         (Hd : forall r es, Forall (fun e => P (snd e)) es -> P (Dir r es))
         (n : node) {struct n} : P n :=
  match n with
  | File c => Hf c
  | Dir r es =>
      Hd r es
         ((fix go (l : list (str * node)) : Forall (fun e => P (snd e)) l :=
             match l with
             | [] => Forall_nil _
             | e :: l' => Forall_cons e (node_induction P Hf Hd (snd e)) (go l')
             end) es)
  end.

(** The same tree with nothing inside the directories that cannot be
    listed. *)
Fixpoint prune (n : node) : node :=
  match n with
  | File c => File c
  | Dir true es => Dir true (map (fun e => (fst e, prune (snd e))) es)
  | Dir false _ => Dir false []
  end.

(** A notes folder under version control, with its inbox as the source
    directory and a folder whose name merely contains ".git". *)
Definition vault : os_state :=
  OsState
    (Dir true
       [("r" : str,
         Dir true
           [(".git" : str, Dir true [("objects" : str, Dir true [])]);
            ("inbox" : str, Dir true [("drafts" : str, Dir true [])]);
            ("my.github" : str, Dir true [("pages" : str, Dir true [])]);
            ("notes" : str, Dir true [])])])
    "/".

(** A root that cannot be listed, and a readable root with a directory
    that cannot be listed. *)
Definition locked_root : os_state :=
  OsState
    (Dir true
       [("r" : str, Dir false [("notes" : str, Dir true [])]);
        ("inbox" : str, Dir true [])])
    "/".

Definition locked_below : os_state :=
  OsState
    (Dir true
       [("r" : str,
         Dir true
           [("private" : str, Dir false [("deep" : str, Dir true [])]);
            ("notes" : str, Dir true [])])])
    "/".

(** ** The run *)

(** [file_path] is a document of the run: a regular file listed in the
    source directory itself under a name that ends in ".md", whatever the
    case of the letters. *)
Definition is_document (st : os_state) (source_dir : str)
           (listing : list str) (file_path : str) : Prop :=
  exists filename,
    In filename listing /\
    endswith (lower filename) ".md" = true /\
    file_path = OsPath.join source_dir filename /\
    Fs.isfile st file_path = true.

(** The file an event is about. *)
Definition event_path (ev : event) : str :=
  match ev with
  | Opened p => p
  | Moved p _ => p
  end.

Definition is_move (ev : event) : bool :=
  match ev with
  | Opened _ => false
  | Moved _ _ => true
  end.

(** ** Sample trees *)

Definition text (s : string) : node := File (Some (s : str)).

(** An inbox to be sorted into a small tree of folders. *)
Definition desk : os_state :=
  OsState
    (Dir true
       [("r" : str,
         Dir true
           [("inbox" : str,
             Dir true
               [("note.md" : str, text "***Tags:** [[cs]] [[2024-01-01]]");
                ("other.txt" : str, text "[[cs]]");
                ("drafts" : str, Dir true [("x.md" : str, text "[[cs]]")]);
                ("b.MD" : str, text "see [[Archive]]");
                ("dir.md" : str, Dir true []);
                ("plain.md" : str, text "no tags here")]);
            ("CS" : str, Dir true [("note.md" : str, text "old")]);
            ("archive" : str,
             Dir true
               [("cs" : str,
                 Dir true [("note.md" : str, text "older");
                           ("note_1.md" : str, text "old")])])])])
    "/".

Definition desk_sorted : run_state :=
  Eval vm_compute in
    match sort_markdown_files (Some ("/r/inbox" : str)) desk "/r/inbox" "/r" with
    | Some (Ok rs) => rs
    | _ => RunState desk 0 []
    end.

(** A folder that already holds the documents routed to it. *)
Definition shelf : os_state :=
  OsState
    (Dir true
       [("r" : str,
         Dir true
           [("cs" : str,
             Dir true [("a.md" : str, text "***Tags:** [[CS]]");
                       ("b.md" : str, text "[[nowhere]] [[2024-05]]");
                       ("c.md" : str, text "nothing")]);
            ("math" : str, Dir true [])])])
    "/".

(** ** New names in a folder *)

(** A name a directory entry can have and that the renaming loop can
    produce: no separator in it, and an underscore somewhere. *)
Definition plain (nm : str) : Prop :=
  ~ In OsPath.sep nm /\ In "_"%char nm.

(** The directory in which the last name of [join a nm] is looked up:
    the names from the root to it. *)
Definition container (st : os_state) (a : str) : option (list str) :=
  match
    (if startswith a "/" then Some []
     else Fs.resolve_comps (fs_root st) [] (split OsPath.sep (cwd st)))
  with
  | Some here =>
      Fs.resolve_comps (fs_root st) here
        (match a with
         | [] => []
         | _ => split OsPath.sep (if endswith a "/" then removelast a else a)
         end)
  | None => None
  end.

(** The name tried at turn [i] of the renaming loop. *)
Definition numbered (base_name ext : str) (i : nat) : str :=
  base_name ++ "_" ++ str_of_nat i ++ ext.

(** A folder that already holds a file named like the document routed to
    it, and the same folder after a first numbered copy. *)
Definition pile (held : list (str * node)) : os_state :=
  OsState
    (Dir true
       [("r" : str,
         Dir true
           [("inbox" : str, Dir true [("note.md" : str, text "[[cs]]")]);
            ("cs" : str, Dir true held)])])
    "/".

Definition pile_one : os_state := pile [("note.md" : str, text "first")].

Definition pile_two : os_state :=
  pile [("note.md" : str, text "first"); ("note_1.md" : str, text "second")].

(** ** Tags in a text *)

Definition marker : str := "***Tags:**".

Definition no_lf (t : str) : Prop := ~ In LF t.

Definition spaces (ws : str) : Prop := Forall (fun c => is_space c = true) ws.

(** [p] occurs in [s]. *)
Definition occurs (p s : str) : Prop := exists a b, s = a ++ p ++ b.

(** The brackets that follow [t] are the first closing pair after its
    start: no "]]" begins inside [t]. *)
Definition closes_first (t : str) : Prop := ~ occurs "]]" (t ++ "]").

(** [s] begins with the token [t], written on one line, and [rest] follows
    its closing brackets. *)
Definition token_at (s t rest : str) : Prop :=
  s = "[[" ++ t ++ "]]" ++ rest /\ no_lf t /\ closes_first t.

Definition starts_token (s : str) : Prop := exists t rest, token_at s t rest.

(** The double-bracket tokens of a text, left to right: the next token
    begins at the first place where one can begin, and the search resumes
    after its closing brackets. *)
Inductive Tokens : str -> list str -> Prop :=
| Tokens_none (s : str) :
    (forall pre s', s = pre ++ s' -> ~ starts_token s') ->
    Tokens s []
| Tokens_next (pre t rest : str) (l : list str) :
    (forall p1 p2, pre = p1 ++ p2 -> p2 <> [] ->
                   ~ starts_token (p2 ++ "[[" ++ t ++ "]]" ++ rest)) ->
    token_at ("[[" ++ t ++ "]]" ++ rest) t rest ->
    Tokens rest l ->
    Tokens (pre ++ "[[" ++ t ++ "]]" ++ rest) (t :: l).

(** [s] begins with the marker, then white space if any (line breaks
    count as white space), then an opening pair of brackets that is closed
    somewhere, on that line or on a later one. *)
Definition starts_block (s : str) : Prop :=
  exists ws x tl,
    s = marker ++ ws ++ "[[" ++ x ++ "]]" ++ tl /\ spaces ws.

(** [s] begins with a tag block and [blk] is its text: from the opening
    brackets, through the first closing pair, to the end of that line. *)
Definition block_at (s blk : str) : Prop :=
  exists ws x y tl,
    s = marker ++ ws ++ "[[" ++ x ++ "]]" ++ y ++ tl /\
    spaces ws /\ closes_first x /\ no_lf y /\
    (tl = [] \/ exists tl', tl = LF :: tl') /\
    blk = "[[" ++ x ++ "]]" ++ y.

(** [blk] is the text of the first tag block of [content]. *)
Definition tags_block (content blk : str) : Prop :=
  exists pre s,
    content = pre ++ s /\ block_at s blk /\
    forall p1 p2, pre = p1 ++ p2 -> p2 <> [] -> ~ starts_block (p2 ++ s).

Definition no_tags_block (content : str) : Prop :=
  forall pre s, content = pre ++ s -> ~ starts_block s.

(** *** Scanning *)

(** Where a lazy star stops: the shortest run of admitted characters after
    which [stop] holds. *)
Fixpoint scan_until (ok : ascii -> bool) (stop : str -> bool) (s : str)
  : option (str * str) :=
  if stop s then Some ([], s)
  else
    match s with
    | [] => None
    | c :: s' =>
        if ok c then
          match scan_until ok stop s' with
          | Some (t, r) => Some (c :: t, r)
          | None => None
          end
        else None
    end.

Definition stops_close (r : str) : bool := startswith r "]]".

Definition stops_eol (r : str) : bool :=
  match r with
  | [] => true
  | c :: _ => Ascii.eqb c LF
  end.

(** [s.lstrip()] for the white space of [\s]. *)
Fixpoint lstrip (s : str) : str :=
  match s with
  | c :: s' => if is_space c then lstrip s' else s
  | [] => []
  end.

(** The token at the head of [s], if there is one, and what follows it. *)
Definition token_scan (s : str) : option (str * str) :=
  if startswith s "[[" then
    match scan_until (cset_mem false Dot) stops_close (skipn 2 s) with
    | Some (t, r) => Some (t, skipn 2 r)
    | None => None
    end
  else None.

(** The text of the tag block at the head of [s], if there is one. *)
Definition block_scan (s : str) : option str :=
  if startswith s marker then
    let s2 := lstrip (skipn (length marker) s) in
    if startswith s2 "[[" then
      match scan_until (cset_mem true Dot) stops_close (skipn 2 s2) with
      | Some (x, r) =>
          match scan_until (cset_mem true Dot) stops_eol (skipn 2 r) with
          | Some (y, _) => Some ("[[" ++ x ++ "]]" ++ y)
          | None => None
          end
      | None => None
      end
    else None
  else None.

Fixpoint first_block (s : str) : option str :=
  match block_scan s with
  | Some blk => Some blk
  | None =>
      match s with
      | [] => None
      | _ :: s' => first_block s'
      end
  end.

(** ** Further vocabulary *)

(** The keys of a run of assignments, each at the place of its first
    occurrence. *)
Definition first_occurrences (keys : list str) : list str :=
  fold_left (fun seen k => if existsb (str_eqb k) seen then seen
                           else seen ++ [k])
            keys [].

(** [pile_one] after the turn of the loop for its note. *)
Definition pile_one_moved : run_state :=
  Eval vm_compute in
    match process_file [("cs" : str, {| path := "/r/cs"; depth := 1 |})]
                       (RunState pile_one 0 []) "/r/inbox/note.md" with
    | Some rs => rs
    | None => RunState pile_one 0 []
    end.

(** *** Well-formed trees *)

(** A name a directory entry can have: not empty, not "." or "..", and
    without a separator. *)
Definition properb (nm : str) : bool :=
  negb (existsb (Ascii.eqb OsPath.sep) nm) && negb (str_eqb nm "")
  && negb (str_eqb nm ".") && negb (str_eqb nm "..").

Definition proper (nm : str) : Prop := properb nm = true.

Fixpoint distinct (l : list str) : bool :=
  match l with
  | [] => true
  | x :: l' => negb (existsb (str_eqb x) l') && distinct l'
  end.

(** Every directory of the tree lists proper names, each once. *)
Fixpoint well_formed (n : node) : bool :=
  match n with
  | File _ => true
  | Dir _ es =>
      forallb (fun e => properb (fst e)) es && distinct (map fst es)
      && forallb (fun e => well_formed (snd e)) es
  end.

(** [os.path.join(top, *names)] *)
Definition join_all (top : str) (names : list str) : str :=
  fold_left OsPath.join names top.

(** The components of [os.path.abspath(p)], as [relpath] takes them. *)
Definition abs_comps (cwd p : str) : list str :=
  filter OsPath.nonempty (split OsPath.sep (OsPath.abspath cwd p)).

(** What [join] puts between its two arguments. *)
Definition glue (a : str) : str :=
  if (match a with [] => true | _ => false end) || endswith a "/"
  then [] else "/".

(** The root folder of [desk]. *)
Definition desk_root : node :=
  Eval vm_compute in
    match Fs.stat desk "/r" with Some n => n | None => File None end.

(** ** Paths and directories that cannot be read *)

(** The character no path can hold.  The system calls refuse a path that
    holds it with [ValueError], where the file system of the model only
    finds no such file: what is proved about a directory that cannot be
    listed is proved of paths without it. *)
Definition NUL : ascii := "000"%char.

(** The directory the walk reaches from [n] along [names]: every
    directory on the way can be listed. *)
Fixpoint walked (n : node) (names : list str) : option node :=
  match names with
  | [] => Some n
  | x :: xs =>
      match n with
      | Dir true es =>
          match Fs.lookup x es with
          | Some c => walked c xs
          | None => None
          end
      | _ => None
      end
  end.

(** ** The tag block as the specification words it

    The marker is followed on its own line by tokens: after the marker and
    the blanks of that line a token begins, and the block is the rest of
    that line.  Without such a line the tokens of the whole document are
    returned. *)

(** The text before the first line feed. *)
Fixpoint line_of (s : str) : str :=
  match s with
  | [] => []
  | c :: s' => if Ascii.eqb c LF then [] else c :: line_of s'
  end.

(** The tokens of a text, left to right. *)
Fixpoint tokens_upto (fuel : nat) (s : str) : list str :=
  match fuel with
  | 0 => []
  | S fuel' =>
      match token_scan s with
      | Some (t, rest) => t :: tokens_upto fuel' rest
      | None =>
          match s with
          | [] => []
          | _ :: s' => tokens_upto fuel' s'
          end
      end
  end.

Definition tokens_of (s : str) : list str := tokens_upto (S (length s)) s.

(** The tokens of the tag line at the head of [s], if there is one. *)
Definition tag_line_at (s : str) : option (list str) :=
  if startswith s marker then
    let line := line_of (skipn (length marker) s) in
    match token_scan (lstrip line) with
    | Some _ => Some (tokens_of line)
    | None => None
    end
  else None.

Fixpoint first_tag_line (s : str) : option (list str) :=
  match tag_line_at s with
  | Some l => Some l
  | None =>
      match s with
      | [] => None
      | _ :: s' => first_tag_line s'
      end
  end.

(** The result the specification describes. *)
Definition spec_extract_tags (content : str) : list str :=
  match first_tag_line content with
  | Some l => l
  | None => tokens_of content
  end.

(** A document whose marker is followed by brackets that close on the next
    line only, and one whose marker is followed by brackets that close
    two lines further, after another opening pair. *)
Definition split_pair : str :=
  "[[z]]" ++ [LF] ++ "***Tags:** [[a" ++ [LF] ++ "b]]".

Definition late_close : str :=
  "***Tags:** [[unclosed" ++ [LF] ++ "text [[x]] more [[y]]" ++ [LF]
  ++ "end [[w]]".

(** ** The log of a run *)

(** What a turn of the loop logs for its document: the opening, then the
    move if one is tried. *)
Definition turn_events (file_path : str) (moved_to : option str)
  : list event :=
  Opened file_path ::
  match moved_to with
  | Some destination => [Moved file_path destination]
  | None => []
  end.

Definition run_events (fates : list (str * option str)) : list event :=
  flat_map (fun f => turn_events (fst f) (snd f)) fates.

(** The number of documents for which a move is tried. *)
Definition tried (fates : list (str * option str)) : nat :=
  length (filter (fun f => match snd f with Some _ => true | None => false end)
                 fates).

(** * Properties *)

Unset Implicit Arguments.

(** ** Strings *)

Lemma str_eqb_eq (a b : str) : str_eqb a b = true <-> a = b.
Proof.
  unfold str_eqb. destruct (list_eq_dec ascii_dec a b); split; congruence.
Qed.

Lemma str_eqb_refl (a : str) : str_eqb a a = true.
Proof. now apply str_eqb_eq. Qed.

Lemma str_eqb_neq (a b : str) : str_eqb a b = false <-> a <> b.
Proof.
  unfold str_eqb. destruct (list_eq_dec ascii_dec a b); split; congruence.
Qed.


Lemma str_eqb_sym (a b : str) : str_eqb a b = str_eqb b a.
Proof.
  destruct (str_eqb b a) eqn:E.
  - apply str_eqb_eq in E. subst. apply str_eqb_refl.
  - apply str_eqb_neq in E. apply str_eqb_neq. congruence.
Qed.

(** ** The stable descending sort puts the first of the largest in front *)

Section SortDescFacts.
Variable A : Type.
Variable key : A -> nat.

Lemma sort_desc_nil (l : list A) : sort_desc key l = [] -> l = [].
Proof.
  destruct l as [|a l]; [reflexivity|]. simpl.
  destruct (sort_desc key l) as [|y s]; simpl; [discriminate|].
  destruct (key y <=? key a); discriminate.
Qed.

Lemma sort_desc_head (l : list A) (x : A) (s : list A) :
  sort_desc key l = x :: s ->
  exists l1 l2,
    l = l1 ++ x :: l2 /\
    Forall (fun y => key y < key x) l1 /\
    Forall (fun y => key y <= key x) l2.
Proof.
  revert x s. induction l as [|a l IH]; intros x s H; [discriminate|].
  simpl in H. destruct (sort_desc key l) as [|y s'] eqn:E.
  - apply sort_desc_nil in E. subst l. simpl in H. injection H as <- _.
    exists [], []. repeat split; constructor.
  - destruct (IH y s' eq_refl) as (l1 & l2 & -> & H1 & H2).
    simpl in H. destruct (key y <=? key a) eqn:C.
    + injection H as <- _. apply Nat.leb_le in C.
      exists [], (l1 ++ y :: l2). repeat split; [constructor|].
      apply Forall_app. split.
      * eapply Forall_impl; [|exact H1]. simpl. intros; lia.
      * constructor; [exact C|].
        eapply Forall_impl; [|exact H2]. simpl. intros; lia.
    + injection H as <- _. apply Nat.leb_gt in C.
      exists (a :: l1), l2. repeat split; [|exact H2].
      constructor; [exact C|exact H1].
Qed.
End SortDescFacts.

(** ** The candidates and their loop counters *)

Lemma label_folders_forget (tl : str) (i j : nat) (fs : FolderIndex) :
  map (fun x => (snd x, Exact)) (label_folders tl i j fs) =
  flat_map (fun item : str * FolderEntry =>
              let '(folder_name, folder_info) := item in
              if str_eqb tl folder_name then [(folder_info, Exact)] else [])
           fs.
Proof.
  revert j. induction fs as [|[k e] fs IH]; intros j; simpl; [reflexivity|].
  rewrite map_app, IH. destruct (str_eqb tl k); reflexivity.
Qed.

Lemma label_tags_forget (i : nat) (tags : list str) (fs : FolderIndex) :
  map (fun x => (snd x, Exact)) (label_tags i tags fs) = collect_matches tags fs.
Proof.
  revert i. induction tags as [|t ts IH]; intros i; simpl; [reflexivity|].
  rewrite map_app, label_folders_forget, IH. reflexivity.
Qed.

Lemma label_folders_in (tl : str) (i0 j0 : nat) (fs : FolderIndex)
      (i j : nat) (e : FolderEntry) :
  In (i, j, e) (label_folders tl i0 j0 fs) <->
  i = i0 /\ j0 <= j /\ nth_error fs (j - j0) = Some (tl, e).
Proof.
  revert j0. induction fs as [|[k e'] fs IH]; intros j0; simpl.
  - split; [tauto|]. intros (_ & _ & H). destruct (j - j0); discriminate.
  - rewrite in_app_iff, IH. split.
    + intros [H|(-> & Hj & H)].
      * destruct (str_eqb tl k) eqn:E; [|contradiction].
        destruct H as [H|[]]. injection H as <- <- <-.
        apply str_eqb_eq in E. subst k.
        rewrite Nat.sub_diag. auto.
      * split; [reflexivity|]. split; [lia|].
        replace (j - j0) with (S (j - S j0)) by lia. exact H.
    + intros (-> & Hj & H). destruct (j - j0) as [|n] eqn:D.
      * simpl in H. injection H as <- <-. left.
        rewrite str_eqb_refl. left. f_equal. f_equal. lia.
      * right. split; [reflexivity|]. split; [lia|].
        replace (j - S j0) with n by lia. exact H.
Qed.

Lemma label_tags_in (i0 : nat) (ts : list str) (fs : FolderIndex)
      (i j : nat) (e : FolderEntry) :
  In (i, j, e) (label_tags i0 ts fs) <->
  i0 <= i /\ exists t, nth_error ts (i - i0) = Some t /\
                       nth_error fs j = Some (lower t, e).
Proof.
  revert i0. induction ts as [|t ts IH]; intros i0; simpl.
  - split; [tauto|]. intros (_ & t & H & _). destruct (i - i0); discriminate.
  - rewrite in_app_iff, IH, label_folders_in. split.
    + intros [(-> & _ & H)|(Hi & t' & H1 & H2)].
      * split; [lia|]. exists t. rewrite Nat.sub_diag, Nat.sub_0_r in *. auto.
      * split; [lia|]. exists t'.
        replace (i - i0) with (S (i - S i0)) by lia. auto.
    + intros (Hi & t' & H1 & H2). destruct (i - i0) as [|n] eqn:D.
      * simpl in H1. injection H1 as <-. left.
        rewrite Nat.sub_0_r. repeat split; [lia|lia|exact H2].
      * right. split; [lia|]. exists t'.
        replace (i - S i0) with n by lia. auto.
Qed.

Lemma label_folders_sorted (tl : str) (i j : nat) (fs : FolderIndex) :
  StronglySorted lex_lt (label_folders tl i j fs).
Proof.
  revert j. induction fs as [|[k e] fs IH]; intros j; simpl; [constructor|].
  destruct (str_eqb tl k); simpl; [|apply IH].
  constructor; [apply IH|]. apply Forall_forall. intros [[i' j'] e'] H.
  apply label_folders_in in H. destruct H as (-> & Hj & _).
  right. simpl. lia.
Qed.

Lemma StronglySorted_app (T : Type) (R : T -> T -> Prop) (l1 l2 : list T) :
  StronglySorted R l1 -> StronglySorted R l2 ->
  (forall a b, In a l1 -> In b l2 -> R a b) ->
  StronglySorted R (l1 ++ l2).
Proof.
  induction 1 as [|a l1 S1 IH F]; intros S2 H; simpl; [exact S2|].
  constructor.
  - apply IH; [exact S2|]. intros x y Hx Hy. apply H; [now right|exact Hy].
  - apply Forall_app. split; [exact F|].
    apply Forall_forall. intros y Hy. apply H; [now left|exact Hy].
Qed.

Lemma StronglySorted_split (T : Type) (R : T -> T -> Prop)
      (l1 : list T) (x : T) (l2 : list T) :
  StronglySorted R (l1 ++ x :: l2) ->
  Forall (fun y => R y x) l1 /\ Forall (R x) l2.
Proof.
  induction l1 as [|a l1 IH]; simpl; intros H.
  - inversion H; subst. split; [constructor|assumption].
  - inversion H as [|? ? S F]; subst. destruct (IH S) as [H1 H2].
    split; [|exact H2]. constructor; [|exact H1].
    rewrite Forall_forall in F. apply F. apply in_elt.
Qed.

Lemma label_tags_sorted (i : nat) (ts : list str) (fs : FolderIndex) :
  StronglySorted lex_lt (label_tags i ts fs).
Proof.
  revert i. induction ts as [|t ts IH]; intros i; simpl; [constructor|].
  apply StronglySorted_app; [apply label_folders_sorted|apply IH|].
  intros [[i1 j1] e1] [[i2 j2] e2] H1 H2.
  apply label_folders_in in H1. apply label_tags_in in H2.
  destruct H1 as (-> & _). destruct H2 as (Hi & _).
  left. simpl. lia.
Qed.

Lemma is_candidate_label (filtered : list str) (fs : FolderIndex)
      (i j : nat) (e : FolderEntry) :
  is_candidate filtered fs i j e <-> In (i, j, e) (label_tags 0 filtered fs).
Proof.
  rewrite label_tags_in, Nat.sub_0_r. unfold is_candidate. split.
  - intros (tag & key & H1 & H2 & <-). split; [lia|]. eauto.
  - intros (_ & t & H1 & H2). eauto.
Qed.

(** ** [find_best_matching_folder] *)

Lemma find_best_unfold (tags : list str) (folders : FolderIndex) :
  find_best_matching_folder tags folders =
  match sort_desc (fun x => depth (fst x))
                  (collect_matches (non_date tags) folders) with
  | best :: _ => Some (path (fst best))
  | [] => None
  end.
Proof.
  unfold find_best_matching_folder.
  destruct (non_date tags) as [|t ts] eqn:E; [reflexivity|].
  destruct (collect_matches (t :: ts) folders) eqn:M; reflexivity.
Qed.

(** C1: when at least one tag of the filtered sequence equals a folder
    name of the index up to case, the selector returns the path of a
    matching entry that no matching entry exceeds in depth, and among the
    matching entries of that depth it is the one the loops reach first
    (tags in sequence order, then folders in the order of the index). *)
Theorem best_match_deepest_first (tags : list str) (folders : FolderIndex) :
  (exists i j e, is_candidate (non_date tags) folders i j e) ->
  exists i j e,
    is_candidate (non_date tags) folders i j e /\
    find_best_matching_folder tags folders = Some (path e) /\
    forall i' j' e',
      is_candidate (non_date tags) folders i' j' e' ->
      depth e' <= depth e /\
      (depth e' = depth e -> not_after i j i' j').
Proof.
  intros (i0 & j0 & e0 & H0). rewrite find_best_unfold.
  apply is_candidate_label in H0.
  pose proof (label_tags_forget 0 (non_date tags) folders) as Hm.
  pose proof (label_tags_sorted 0 (non_date tags) folders) as Hs.
  destruct (sort_desc (fun x => depth (fst x))
                      (collect_matches (non_date tags) folders))
    as [|best s] eqn:E.
  - apply sort_desc_nil in E. rewrite E in Hm.
    apply map_eq_nil in Hm. rewrite Hm in H0. destruct H0.
  - apply sort_desc_head in E. destruct E as (m1 & m2 & E & F1 & F2).
    rewrite E in Hm. apply map_eq_app in Hm.
    destruct Hm as (l1 & l2' & Hl & <- & Hm).
    apply map_eq_cons in Hm. destruct Hm as ([[i j] e] & l2 & -> & <- & <-).
    simpl in *. rewrite Hl in Hs. apply StronglySorted_split in Hs.
    destruct Hs as [S1 S2]. rewrite Forall_forall in S1, S2.
    rewrite Forall_map in F1, F2. rewrite Forall_forall in F1, F2.
    exists i, j, e. split; [|split; [reflexivity|]].
    + apply is_candidate_label. rewrite Hl. apply in_elt.
    + intros i' j' e' Hc. apply is_candidate_label in Hc. rewrite Hl in Hc.
      apply in_app_iff in Hc. destruct Hc as [Hc|[Hc|Hc]].
      * specialize (F1 _ Hc). simpl in F1. split; lia.
      * injection Hc as <- <- <-. split; [lia|]. intros _. right. lia.
      * specialize (F2 _ Hc). specialize (S2 _ Hc).
        unfold lex_lt in S2. simpl in *. split; [lia|].
        intros _. unfold not_after. lia.
Qed.

Lemma best_match_deepest_first_witness :
  let tags : list str := ["2024-01-01" : str; "Notes" : str; "cs" : str] in
  let folders : FolderIndex :=
    [("notes" : str, {| path := "/r/notes"; depth := 1 |});
     ("cs" : str, {| path := "/r/uni/cs"; depth := 2 |});
     ("uni" : str, {| path := "/r/uni"; depth := 1 |})] in
  exists i j e,
    is_candidate (non_date tags) folders i j e /\
    find_best_matching_folder tags folders = Some (path e) /\
    forall i' j' e',
      is_candidate (non_date tags) folders i' j' e' ->
      depth e' <= depth e /\
      (depth e' = depth e -> not_after i j i' j').
Proof.
  intros tags folders. apply (best_match_deepest_first tags folders).
  exists 0, 0, {| path := "/r/notes"; depth := 1 |}.
  exists ("Notes" : str), ("notes" : str). repeat split.
Defined.

Lemma find_best_some (tags : list str) (folders : FolderIndex) (p : str) :
  find_best_matching_folder tags folders = Some p ->
  exists i j e, is_candidate (non_date tags) folders i j e /\ path e = p.
Proof.
  rewrite find_best_unfold.
  destruct (sort_desc _ _) as [|best s] eqn:E; [discriminate|].
  intros H. injection H as <-.
  apply sort_desc_head in E. destruct E as (m1 & m2 & E & _).
  pose proof (label_tags_forget 0 (non_date tags) folders) as Hm.
  rewrite E in Hm. apply map_eq_app in Hm.
  destruct Hm as (l1 & l2' & Hl & _ & Hm).
  apply map_eq_cons in Hm. destruct Hm as ([[i j] e] & l2 & -> & <- & _).
  exists i, j, e. split; [|reflexivity].
  apply is_candidate_label. rewrite Hl. apply in_elt.
Qed.

Lemma find_best_none (tags : list str) (folders : FolderIndex) :
  (forall i j e, ~ is_candidate (non_date tags) folders i j e) ->
  find_best_matching_folder tags folders = None.
Proof.
  intros H. rewrite find_best_unfold.
  destruct (sort_desc _ _) as [|best s] eqn:E; [reflexivity|].
  exfalso. apply sort_desc_head in E. destruct E as (m1 & m2 & E & _).
  pose proof (label_tags_forget 0 (non_date tags) folders) as Hm.
  rewrite E in Hm. apply map_eq_app in Hm.
  destruct Hm as (l1 & l2' & Hl & _ & Hm).
  apply map_eq_cons in Hm. destruct Hm as ([[i j] e] & l2 & -> & _ & _).
  apply (H i j e). apply is_candidate_label. rewrite Hl. apply in_elt.
Qed.

Lemma is_candidate_in (tags : list str) (folders : FolderIndex)
      (i j : nat) (e : FolderEntry) :
  is_candidate (non_date tags) folders i j e ->
  exists tag, In tag tags /\ is_date_tag tag = false /\
              In (lower tag, e) folders.
Proof.
  intros (tag & key & H1 & H2 & <-). exists tag.
  apply nth_error_In in H1, H2. unfold non_date in H1.
  apply filter_In in H1. destruct H1 as [H1 H3].
  apply negb_true_iff in H3. auto.
Qed.

(** A turn of the loop that finds no destination leaves the file system and
    the counter as they are. *)
Lemma process_file_no_destination (existing_folders : FolderIndex)
      (rs : run_state) (file_path : str) :
  find_best_matching_folder (extract_tags (rs_os rs) file_path)
                            existing_folders = None ->
  process_file existing_folders rs file_path =
  Some (RunState (rs_os rs) (moved_count rs)
                 (events rs ++ [Opened file_path])).
Proof.
  intros H. unfold process_file.
  destruct (extract_tags (rs_os rs) file_path); [reflexivity|].
  rewrite H. reflexivity.
Qed.

(** C2: a destination is only ever produced by a tag whose lower-cased
    text is, as a whole string, a key of the index; without such a tag the
    selector returns nothing.  "os" occurs inside "costume" and does not
    match it: the selector returns nothing and the turn of the loop moves
    nothing. *)
Theorem exact_match_only (tags : list str) (folders : FolderIndex) :
  (forall p, find_best_matching_folder tags folders = Some p ->
     exists tag key e,
       In tag tags /\ is_date_tag tag = false /\
       In (key, e) folders /\ lower tag = key /\ path e = p) /\
  ((forall tag key e, In tag tags -> In (key, e) folders -> lower tag <> key) ->
   find_best_matching_folder tags folders = None) /\
  contains "costume" "os" = true /\
  (forall e : FolderEntry,
     find_best_matching_folder ["os" : str] [("costume" : str, e)] = None) /\
  (forall (e : FolderEntry) (rs : run_state) (file_path : str),
     extract_tags (rs_os rs) file_path = ["os" : str] ->
     process_file [("costume" : str, e)] rs file_path =
     Some (RunState (rs_os rs) (moved_count rs)
                    (events rs ++ [Opened file_path]))).
Proof.
  split; [|split; [|split; [|split]]].
  - intros p H. apply find_best_some in H. destruct H as (i & j & e & H & <-).
    apply is_candidate_in in H. destruct H as (tag & H1 & H2 & H3).
    exists tag, (lower tag), e. auto.
  - intros H. apply find_best_none. intros i j e Hc.
    apply is_candidate_in in Hc. destruct Hc as (tag & H1 & _ & H3).
    exact (H tag (lower tag) e H1 H3 eq_refl).
  - reflexivity.
  - intros e. reflexivity.
  - intros e rs file_path H. apply process_file_no_destination.
    rewrite H. reflexivity.
Qed.

Lemma exact_match_only_witness :
  exists tag key e,
    In tag ["Costume" : str; "os" : str] /\
    is_date_tag tag = false /\
    In (key, e) [("costume" : str, {| path := "/r/costume"; depth := 1 |})] /\
    lower tag = key /\ path e = "/r/costume".
Proof.
  apply (proj1 (exact_match_only
                  ["Costume" : str; "os" : str]
                  [("costume" : str, {| path := "/r/costume"; depth := 1 |})])).
  reflexivity.
Defined.

(** ** [is_date_tag] *)

Lemma fitsb_fits (shape : list slot) (t : str) :
  fitsb shape t = true <-> fits shape t.
Proof.
  unfold fits. revert t. induction shape as [|k sh IH]; intros [|c t]; simpl.
  - split; [constructor|reflexivity].
  - split; [discriminate|inversion 1].
  - split; [discriminate|inversion 1].
  - rewrite andb_true_iff, IH. split.
    + intros [H1 H2]. constructor; assumption.
    + inversion 1; subst. auto.
Qed.

Lemma date_shapeb_spec (t : str) : date_shapeb t = true <-> date_shape t.
Proof.
  unfold date_shapeb, date_shape. rewrite existsb_exists.
  split; intros (sh & H1 & H2); exists sh; (split; [exact H1|]);
    apply fitsb_fits; exact H2.
Qed.

Lemma fitsb_line_feed (shape : list slot) (t : str) :
  fitsb (shape ++ [N]) t = true <->
  exists t0, t = t0 ++ [LF] /\ fitsb shape t0 = true.
Proof.
  revert t. induction shape as [|k sh IH]; intros [|c t]; simpl.
  - split; [discriminate|]. intros ([|? ?] & H & _); discriminate.
  - destruct t as [|c' t].
    + rewrite andb_true_r. split.
      * intros H. apply Ascii.eqb_eq in H. subst. exists []. auto.
      * intros ([|? [|? ?]] & H & H'); try discriminate.
        injection H as ->. reflexivity.
    + rewrite andb_false_r. split; [discriminate|].
      intros ([|? ?] & H & H'); discriminate.
  - split; [discriminate|]. intros ([|? ?] & H & _); discriminate.
  - rewrite andb_true_iff, IH. split.
    + intros (H1 & t0 & -> & H2). exists (c :: t0). simpl.
      rewrite H1, H2. auto.
    + intros ([|c0 t0] & H & H'); [discriminate|].
      simpl in H. injection H as <- ->. simpl in H'.
      apply andb_true_iff in H'. destruct H' as [H1 H2]. eauto.
Qed.

(** What the four patterns accept, position by position: a date shape, or
    a date shape and one line feed. *)
Lemma is_date_tag_fitsb (t : str) :
  is_date_tag t =
  existsb (fun shape => fitsb shape t || fitsb (shape ++ [N]) t) date_shapes.
Proof.
  unfold is_date_tag, date_patterns, date_shapes, re_match, match_at,
    YYYY_MM_DD, YYYY_MM, DD_MM_YYYY, DD_MM_YY.
  assert (E1 : forall c, Ascii.eqb c "-"%char = slot_ok H c) by reflexivity.
  assert (E2 : forall c, is_digit c = slot_ok D c) by reflexivity.
  assert (E3 : forall c, Ascii.eqb c LF = slot_ok N c) by reflexivity.
  assert (E4 : forall c, cset_mem false Digit c = slot_ok D c) by reflexivity.
  assert (E5 : forall c, cset_mem false (Lit "-"%char) c = slot_ok H c)
    by reflexivity.
  repeat (cbn [existsb run rep fitsb app pos rest grp advance Nat.eqb orb andb];
          rewrite ?E1, ?E2, ?E3, ?E4, ?E5;
          match goal with
          | |- context [match ?x with [] => _ | _ :: _ => _ end] =>
              is_var x; destruct x
          | |- context [slot_ok ?k ?c] => destruct (slot_ok k c)
          end);
  reflexivity.
Qed.

Lemma is_date_tag_spec (t : str) :
  is_date_tag t = true <->
  date_shape t \/ exists t0, t = t0 ++ [LF] /\ date_shape t0.
Proof.
  rewrite is_date_tag_fitsb, existsb_exists. split.
  - intros (sh & Hin & H). apply orb_true_iff in H. destruct H as [H|H].
    + left. exists sh. split; [exact Hin|]. now apply fitsb_fits.
    + right. apply fitsb_line_feed in H. destruct H as (t0 & -> & H).
      exists t0. split; [reflexivity|]. exists sh.
      split; [exact Hin|]. now apply fitsb_fits.
  - intros [(sh & Hin & H)|(t0 & -> & sh & Hin & H)]; exists sh;
      (split; [exact Hin|]); apply orb_true_iff.
    + left. now apply fitsb_fits.
    + right. apply fitsb_line_feed. exists t0.
      split; [reflexivity|]. now apply fitsb_fits.
Qed.

Lemma slot_ok_not_lf (k : slot) : In k [D; H] -> slot_ok k LF = false.
Proof. intros [<-|[<-|[]]]; reflexivity. Qed.

Lemma date_shape_no_lf (t : str) : date_shape t -> ~ In LF t.
Proof.
  intros (sh & Hin & Hf) Hlf.
  assert (Hsh : Forall (fun k => In k [D; H]) sh).
  { simpl in Hin.
    destruct Hin as [<-|[<-|[<-|[<-|[]]]]];
      repeat (constructor; [simpl; auto|]); constructor. }
  unfold fits in Hf. clear Hin. revert Hlf Hsh.
  induction Hf as [|k c sh' t' Hk Hf IH]; intros Hlf Hsh.
  - destruct Hlf.
  - inversion Hsh; subst. destruct Hlf as [E|Hlf].
    + rewrite E, slot_ok_not_lf in Hk by assumption. discriminate.
    + now apply IH.
Qed.

(** On text without a line feed the test is exact. *)
Lemma is_date_tag_exact (t : str) :
  ~ In LF t -> (is_date_tag t = true <-> date_shape t).
Proof.
  intros Hlf. rewrite is_date_tag_spec. split; [|auto].
  intros [H|(t0 & -> & _)]; [exact H|].
  exfalso. apply Hlf. apply in_or_app. right. now left.
Qed.

(** The filter keeps the order of what it keeps, and on tags without a
    line feed it removes the date shapes and nothing else. *)
Lemma non_date_exact (tags : list str) :
  Forall (fun t => ~ In LF t) tags ->
  non_date tags = filter (fun t => negb (date_shapeb t)) tags.
Proof.
  intros H. unfold non_date. apply filter_ext_in. intros t Hin.
  rewrite Forall_forall in H. specialize (H t Hin). f_equal.
  destruct (is_date_tag t) eqn:E1, (date_shapeb t) eqn:E2; try reflexivity.
  - apply is_date_tag_exact in E1; [|exact H].
    apply date_shapeb_spec in E1. congruence.
  - apply date_shapeb_spec in E2. apply is_date_tag_exact in E2; [|exact H].
    congruence.
Qed.

(** A sequence of date shapes only is filtered to nothing, and the selector
    then returns nothing, whatever the index. *)
Lemma date_only_no_candidate (tags : list str) (folders : FolderIndex) :
  Forall date_shape tags ->
  non_date tags = [] /\ find_best_matching_folder tags folders = None.
Proof.
  intros H.
  assert (E : non_date tags = []).
  { unfold non_date. induction H as [|t ts Ht _ IH]; simpl; [reflexivity|].
    assert (Hd : is_date_tag t = true) by (apply is_date_tag_spec; now left).
    rewrite Hd. exact IH. }
  split; [exact E|]. unfold find_best_matching_folder. rewrite E. reflexivity.
Qed.

(** C4 as stated fails: the text "2024-01" followed by a line feed has
    none of the four shapes (its full text is not made of digits and
    hyphens), and the filter removes it all the same, because [$] in the
    patterns also matches just before a line feed that ends the text. *)
Lemma date_filter_trailing_line_feed :
  let tag : str := "2024-01" ++ [LF] in
  date_shapeb tag = false /\
  is_date_tag tag = true /\
  non_date [tag; "cs" : str] = ["cs" : str] /\
  (forall folders, find_best_matching_folder [tag] folders = None).
Proof.
  cbv zeta. repeat split.
Qed.

(** C4, amended: on a sequence of tags without line feeds, as the tag
    extractor returns them, the filter removes the tags whose full text has
    one of the four shapes and no other, and keeps the rest in their
    order; a sequence of date shapes only is filtered to nothing and the
    selector then returns nothing. *)
Theorem date_filter_exact (tags : list str) :
  Forall (fun t => ~ In LF t) tags ->
  (forall t, In t (non_date tags) <-> In t tags /\ ~ date_shape t) /\
  non_date tags = filter (fun t => negb (date_shapeb t)) tags /\
  (Forall date_shape tags ->
   non_date tags = [] /\
   forall folders, find_best_matching_folder tags folders = None).
Proof.
  intros Hlf. pose proof (non_date_exact tags Hlf) as E.
  split; [|split; [exact E|]].
  - intros t. rewrite E, filter_In, negb_true_iff.
    rewrite <- date_shapeb_spec. destruct (date_shapeb t); intuition congruence.
  - intros Hd. split; [apply (date_only_no_candidate tags [] Hd)|].
    intros folders. apply (date_only_no_candidate tags folders Hd).
Qed.

Lemma date_filter_exact_witness :
  let tags : list str :=
    ["2024-01-01" : str; "cs" : str; "01-02-24" : str; "2024-1-1" : str] in
  (forall t, In t (non_date tags) <-> In t tags /\ ~ date_shape t) /\
  non_date tags = filter (fun t => negb (date_shapeb t)) tags /\
  (Forall date_shape tags ->
   non_date tags = [] /\
   forall folders, find_best_matching_folder tags folders = None).
Proof.
  cbv zeta. apply date_filter_exact.
  repeat constructor; intros H; cbn in H;
    repeat (destruct H as [H|H]; [discriminate H|]); exact H.
Defined.

Example date_only_example :
  Forall date_shape ["2024-01-01" : str; "05-06-2024" : str; "2024-07" : str] /\
  non_date ["2024-01-01" : str; "05-06-2024" : str; "2024-07" : str] = [].
Proof.
  split; [|reflexivity].
  repeat constructor; apply date_shapeb_spec; reflexivity.
Qed.

(** ** Dictionaries *)

Section DictFacts.
Variable V : Type.

Lemma dict_set_keys (d : dict V) (k : str) (v : V) (k' : str) :
  In k' (dict_keys (dict_set d k v)) <-> k' = k \/ In k' (dict_keys d).
Proof.
  unfold dict_keys. induction d as [|[k0 v0] d IH]; simpl.
  - intuition congruence.
  - destruct (str_eqb k0 k) eqn:E; simpl.
    + apply str_eqb_eq in E. subst. intuition congruence.
    + rewrite IH. tauto.
Qed.

Lemma dict_set_nodup (d : dict V) (k : str) (v : V) :
  NoDup (dict_keys d) -> NoDup (dict_keys (dict_set d k v)).
Proof.
  unfold dict_keys. induction d as [|[k0 v0] d IH]; simpl; intros H.
  - constructor; [intros []|constructor].
  - inversion H as [|? ? Hn Hd]; subst.
    destruct (str_eqb k0 k) eqn:E; simpl.
    + apply str_eqb_eq in E. subst. constructor; assumption.
    + apply str_eqb_neq in E. constructor; [|now apply IH].
      intros Hin. apply (dict_set_keys d k v k0) in Hin.
      destruct Hin as [->|Hin]; [now apply E|now apply Hn].
Qed.

Lemma dict_set_in (d : dict V) (k : str) (v : V) (k' : str) (v' : V) :
  NoDup (dict_keys d) ->
  In (k', v') (dict_set d k v) <->
  (k' = k /\ v' = v) \/ (k' <> k /\ In (k', v') d).
Proof.
  unfold dict_keys. induction d as [|[k0 v0] d IH]; simpl; intros H.
  - split.
    + intros [E|[]]. injection E as <- <-. auto.
    + intros [[-> ->]|[_ []]]. auto.
  - inversion H as [|? ? Hn Hd]; subst.
    destruct (str_eqb k0 k) eqn:E; simpl.
    + apply str_eqb_eq in E. subst k0. split.
      * intros [E|Hin]; [injection E as <- <-; auto|].
        right. split; [|auto]. intros ->. apply Hn.
        apply in_map_iff. exists (k, v'). auto.
      * intros [[-> ->]|[Hk [E|Hin]]]; [auto| |auto].
        injection E as <- _. now destruct Hk.
    + apply str_eqb_neq in E. rewrite (IH Hd). split.
      * intros [E'|[[-> ->]|[Hk Hin]]]; [|auto|auto].
        injection E' as <- <-. auto.
      * intros [[-> ->]|[Hk [E'|Hin]]]; auto.
Qed.

(** After a run of assignments a key holds the value it was given last. *)
Lemma assignments_in (l : list (str * V)) (d : dict V) (k : str) (v : V) :
  NoDup (dict_keys d) ->
  let d' := fold_left (fun d kv => dict_set d (fst kv) (snd kv)) l d in
  NoDup (dict_keys d') /\
  (In (k, v) d' <->
   (exists l1 l2, l = l1 ++ (k, v) :: l2 /\ ~ In k (map fst l2)) \/
   (~ In k (map fst l) /\ In (k, v) d)).
Proof.
  revert d. induction l as [|[k0 v0] l IH]; intros d Hd; simpl.
  - split; [exact Hd|]. split.
    + intros H. right. auto.
    + intros [(l1 & l2 & H & _)|[_ H]]; [|exact H].
      destruct l1; discriminate.
  - specialize (IH (dict_set d k0 v0) (dict_set_nodup d k0 v0 Hd)).
    simpl in IH. destruct IH as [IH1 IH2]. split; [exact IH1|].
    rewrite IH2, (dict_set_in d k0 v0 k v Hd). split.
    + intros [(l1 & l2 & -> & Hn)|[Hn [[-> ->]|[Hk Hin]]]].
      * left. exists ((k0, v0) :: l1), l2. auto.
      * left. exists [], l. auto.
      * right. split; [|exact Hin]. intros [E|Hin']; [|now apply Hn].
        simpl in E. congruence.
    + intros [(l1 & l2 & E & Hn)|[Hn Hin]].
      * destruct l1 as [|a l1]; simpl in E.
        -- inversion E; subst. right. auto.
        -- inversion E; subst. left. exists l1, l2. auto.
      * right. split; [tauto|]. right. split; [|exact Hin].
        intros ->. apply Hn. now left.
Qed.
End DictFacts.

(** ** [get_existing_folders] *)

(** The nested loops are one run of assignments over [visits]. *)
Lemma index_loops_flat (g : option str) (st : os_state) (root_dir : str)
      (w : list (str * list str * list str)) (d : FolderIndex) :
  fold_left (fun (folders : FolderIndex) (step : str * list str * list str) =>
      let '(dirpath, dirnames, _) := step in
      if match g with
         | Some source_dir => str_eqb dirpath source_dir
         | None => false
         end
      then folders
      else if contains dirpath ".git" then folders
      else
        fold_left (fun (folders : FolderIndex) (dirname : str) =>
          let folder_path := OsPath.join dirpath dirname in
          let folder_name := lower dirname in
          let path_parts :=
            split OsPath.sep (OsPath.relpath (cwd st) folder_path root_dir) in
          let depth := length path_parts in
          dict_set folders folder_name
                   {| path := folder_path; depth := depth |})
        dirnames folders)
    w d =
  fold_left (fun d kv => dict_set d (fst kv) (snd kv))
            (map (fun v => (lower (snd v), entry_of st root_dir v))
                 (flat_map (fun step : str * list str * list str =>
                              let '(dirpath, dirnames, _) := step in
                              if skipped g dirpath then []
                              else map (pair dirpath) dirnames) w))
            d.
Proof.
  revert d. induction w as [|[[dirpath dirnames] files] w IH];
    intros d; cbn [fold_left flat_map map]; [reflexivity|].
  rewrite map_app, fold_left_app, <- IH. f_equal. clear IH.
  unfold skipped.
  destruct (match g with
            | Some source_dir => str_eqb dirpath source_dir
            | None => false
            end); [reflexivity|].
  rewrite orb_false_l.
  match goal with
  | |- context [contains ?a ?b] => destruct (contains a b)
  end; [reflexivity|].
  revert d. induction dirnames as [|n ns IHn]; intros d; simpl;
    [reflexivity|].
  apply IHn.
Qed.

Lemma get_existing_folders_visits (g : option str) (st : os_state)
      (root_dir : str) :
  get_existing_folders g st root_dir =
  Ok (fold_left (fun d kv => dict_set d (fst kv) (snd kv))
                (map (fun v => (lower (snd v), entry_of st root_dir v))
                     (visits g st root_dir))
                []).
Proof.
  unfold get_existing_folders, visits. cbv zeta. f_equal.
  apply index_loops_flat.
Qed.

(** C5: the builder returns an index in which every key occurs once, and
    the entry under a key is that of the last folder of the walk whose
    lower-cased name is the key: of two folders with the same lower-cased
    name, the one met later is the one present. *)
Theorem folder_index_last_wins (g : option str) (st : os_state)
        (root_dir : str) :
  exists folders,
    get_existing_folders g st root_dir = Ok folders /\
    NoDup (dict_keys folders) /\
    forall key e,
      In (key, e) folders <->
      exists l1 v l2,
        visits g st root_dir = l1 ++ v :: l2 /\
        lower (snd v) = key /\
        e = entry_of st root_dir v /\
        forall v', In v' l2 -> lower (snd v') <> key.
Proof.
  eexists. split; [apply get_existing_folders_visits|].
  set (f := fun v => (lower (snd v), entry_of st root_dir v)).
  split.
  - apply (assignments_in FolderEntry (map f (visits g st root_dir)) []
                          [] {| path := []; depth := 0 |}).
    constructor.
  - intros key e.
    destruct (assignments_in FolderEntry (map f (visits g st root_dir))
                             [] key e (NoDup_nil _)) as [_ H].
    simpl in H. rewrite H. clear H. split.
    + intros [(l1 & l2 & E & Hn)|[_ []]].
      apply map_eq_app in E. destruct E as (v1 & v2' & E & <- & E').
      apply map_eq_cons in E'. destruct E' as (v & v2 & -> & Ev & <-).
      unfold f in Ev. injection Ev as <- <-.
      exists v1, v, v2. repeat split; [exact E|].
      intros v' Hin Hk. apply Hn. apply in_map_iff.
      exists (f v'). split; [exact Hk|]. now apply in_map.
    + intros (l1 & v & l2 & E & <- & -> & Hn). left.
      exists (map f l1), (map f l2). split.
      * rewrite E, map_app. reflexivity.
      * intros Hin. apply in_map_iff in Hin.
        destruct Hin as ([k' e'] & Hk & Hin). simpl in Hk. subst k'.
        apply in_map_iff in Hin. destruct Hin as (v' & Ev & Hin).
        unfold f in Ev. injection Ev as Ek _. exact (Hn v' Hin Ek).
Qed.

(** On [desk] the folders [CS] and [archive/cs] share the key "cs"; the
    walk meets [archive/cs] later, and that is the entry of the index. *)
Example desk_index :
  get_existing_folders (Some ("/r/inbox" : str)) desk "/r" =
  Ok [("inbox" : str, {| path := "/r/inbox"; depth := 1 |});
      ("cs" : str, {| path := "/r/archive/cs"; depth := 2 |});
      ("archive" : str, {| path := "/r/archive"; depth := 1 |})].
Proof. reflexivity. Qed.

(** C6: in a vault whose root holds [.git], the source directory [inbox],
    [my.github] and [notes], the index has an entry for the [.git]
    directory and one for the source directory, and none for [drafts]
    inside the source directory or for [pages] inside [my.github]: each
    test skips the listing of a directory, not the directory. *)
Theorem index_of_vault :
  Fs.walk vault "/r" =
  [("/r" : str,
    [".git" : str; "inbox" : str; "my.github" : str; "notes" : str], []);
   ("/r/.git" : str, ["objects" : str], []);
   ("/r/.git/objects" : str, [], []);
   ("/r/inbox" : str, ["drafts" : str], []);
   ("/r/inbox/drafts" : str, [], []);
   ("/r/my.github" : str, ["pages" : str], []);
   ("/r/my.github/pages" : str, [], []);
   ("/r/notes" : str, [], [])] /\
  get_existing_folders (Some ("/r/inbox" : str)) vault "/r" =
  Ok [(".git" : str, {| path := "/r/.git"; depth := 1 |});
      ("inbox" : str, {| path := "/r/inbox"; depth := 1 |});
      ("my.github" : str, {| path := "/r/my.github"; depth := 1 |});
      ("notes" : str, {| path := "/r/notes"; depth := 1 |})].
Proof. split; reflexivity. Qed.

(** ** Directories that cannot be listed *)

Lemma is_dir_prune (c : node) : Fs.is_dir (prune c) = Fs.is_dir c.
Proof. destruct c as [|[] ?]; reflexivity. Qed.

Lemma names_prune (p : node -> bool) (es : list (str * node)) :
  (forall c, p (prune c) = p c) ->
  map fst (filter (fun e => p (snd e))
                  (map (fun e => (fst e, prune (snd e))) es)) =
  map fst (filter (fun e => p (snd e)) es).
Proof.
  intros Hp. induction es as [|[x c] es IH]; simpl; [reflexivity|].
  rewrite Hp. destruct (p c); simpl; [f_equal|]; exact IH.
Qed.

Lemma walk_node_prune (n : node) :
  forall top, Fs.walk_node top (prune n) = Fs.walk_node top n.
Proof.
  induction n as [c|r es IH] using node_induction; intros top;
    [reflexivity|].
  destruct r; [|reflexivity]. simpl.
  rewrite (names_prune Fs.is_dir es is_dir_prune).
  rewrite (names_prune (fun c => negb (Fs.is_dir c)) es)
    by (intros c; now rewrite is_dir_prune).
  f_equal.
  induction es as [|[x c] es IHes]; simpl; [reflexivity|].
  inversion IH as [|? ? Hc Hes]; subst. simpl in Hc.
  rewrite (IHes Hes), Hc, is_dir_prune. reflexivity.
Qed.

Lemma walk_unreadable (st : os_state) (top : str) :
  Fs.scandir st top = Raise OSError -> Fs.walk st top = [].
Proof.
  unfold Fs.scandir, Fs.walk.
  destruct (Fs.stat st top) as [[c|[|] es]|]; try reflexivity.
  discriminate.
Qed.

(** C7 as stated fails: with a root that cannot be listed the builder
    returns the empty index and the run completes; and a directory below
    the root that cannot be listed has an entry in the index. *)
Lemma unreadable_root_is_not_an_error :
  Fs.listdir locked_root "/r" = Raise OSError /\
  get_existing_folders None locked_root "/r" = Ok [] /\
  sort_markdown_files (Some ("/inbox" : str)) locked_root "/inbox" "/r" =
  Some (Ok (RunState locked_root 0 [])) /\
  Fs.listdir locked_below "/r/private" = Raise OSError /\
  get_existing_folders None locked_below "/r" =
  Ok [("private" : str, {| path := "/r/private"; depth := 1 |});
      ("notes" : str, {| path := "/r/notes"; depth := 1 |})].
Proof. repeat split. Qed.

(** ** The loop over the documents *)

Lemma markdown_files_of_spec (st : os_state) (source_dir : str)
      (listing : list str) (file_path : str) :
  In file_path (markdown_files_of st source_dir listing) <->
  is_document st source_dir listing file_path.
Proof.
  unfold markdown_files_of, is_document. rewrite in_flat_map. split.
  - intros (filename & Hin & H). exists filename.
    destruct (endswith (lower filename) ".md"); [|destruct H].
    destruct (Fs.isfile st (OsPath.join source_dir filename)) eqn:E;
      [|destruct H].
    destruct H as [<-|[]]. auto.
  - intros (filename & Hin & He & -> & Hf). exists filename.
    split; [exact Hin|]. rewrite He, Hf. now left.
Qed.

(** A turn of the loop only adds events about its own file. *)
Lemma process_file_events (folders : FolderIndex) (rs rs' : run_state)
      (file_path : str) :
  process_file folders rs file_path = Some rs' ->
  exists evs,
    events rs' = events rs ++ evs /\
    Forall (fun ev => event_path ev = file_path) evs.
Proof.
  unfold process_file. intros H.
  assert (Hopen : forall st n,
    exists evs,
      events (RunState st n (events rs ++ [Opened file_path])) =
      events rs ++ evs /\
      Forall (fun ev => event_path ev = file_path) evs).
  { intros st n. exists [Opened file_path]. split; [reflexivity|].
    repeat constructor. }
  destruct (extract_tags (rs_os rs) file_path) as [|t ts];
    [injection H as <-; apply Hopen|].
  destruct (find_best_matching_folder (t :: ts) folders) as [[|c target]|];
    [injection H as <-; apply Hopen| |injection H as <-; apply Hopen].
  destruct (str_eqb _ _); [injection H as <-; apply Hopen|].
  destruct (destination_for _ _ _) as [destination|]; [|discriminate].
  assert (Hmove :
    Forall (fun ev => event_path ev = file_path)
           [Opened file_path; Moved file_path destination])
    by (repeat constructor).
  destruct (Fs.move _ _ _); injection H as <-; simpl;
    exists [Opened file_path; Moved file_path destination];
    rewrite <- app_assoc; auto.
Qed.

Lemma process_files_events (folders : FolderIndex)
      (markdown_files : list str) (rs rs' : run_state) :
  process_files folders rs markdown_files = Some rs' ->
  exists evs,
    events rs' = events rs ++ evs /\
    Forall (fun ev => In (event_path ev) markdown_files) evs.
Proof.
  revert rs. induction markdown_files as [|fp more IH]; intros rs H; simpl in H.
  - injection H as <-. exists []. rewrite app_nil_r. auto.
  - destruct (process_file folders rs fp) as [rs1|] eqn:E; [|discriminate].
    apply process_file_events in E. destruct E as (evs1 & E1 & F1).
    apply IH in H. destruct H as (evs2 & E2 & F2).
    exists (evs1 ++ evs2). split.
    + rewrite E2, E1, app_assoc. reflexivity.
    + apply Forall_app. split.
      * eapply Forall_impl; [|exact F1]. intros ev <-. now left.
      * eapply Forall_impl; [|exact F2]. intros ev Hin. now right.
Qed.

(** C10: whatever a run opens or moves is a document: a regular file
    listed in the source directory itself whose name ends in ".md" up to
    case.  Entries with another ending, directories, and files further
    down are never opened and never moved. *)
Theorem only_documents_touched (g : option str) (st : os_state)
        (source_dir root_dir : str) (rs : run_state) :
  sort_markdown_files g st source_dir root_dir = Some (Ok rs) ->
  exists listing,
    Fs.listdir st source_dir = Ok listing /\
    forall ev, In ev (events rs) ->
               is_document st source_dir listing (event_path ev).
Proof.
  unfold sort_markdown_files. intros H.
  destruct (get_existing_folders g st root_dir) as [folders|e];
    [|discriminate].
  destruct (Fs.listdir st source_dir) as [listing|e]; [|discriminate].
  exists listing. split; [reflexivity|].
  destruct (process_files _ _ _) as [rs1|] eqn:E; [|discriminate].
  injection H as <-.
  apply process_files_events in E. destruct E as (evs & E & F).
  simpl in E. rewrite E. rewrite Forall_forall in F.
  intros ev Hin. apply markdown_files_of_spec. now apply F.
Qed.

Lemma only_documents_touched_witness :
  exists listing,
    Fs.listdir desk "/r/inbox" = Ok listing /\
    forall ev, In ev (events desk_sorted) ->
               is_document desk "/r/inbox" listing (event_path ev).
Proof.
  apply (only_documents_touched (Some ("/r/inbox" : str)) desk
                                "/r/inbox" "/r" desk_sorted).
  vm_compute. reflexivity.
Defined.

(** What the run on [desk] does: the two routable documents are moved, one
    of them under a new name, and the other entries of the inbox are not
    touched. *)
Example desk_events :
  events desk_sorted =
  [Opened "/r/inbox/note.md";
   Moved "/r/inbox/note.md" "/r/archive/cs/note_2.md";
   Opened "/r/inbox/b.MD";
   Moved "/r/inbox/b.MD" "/r/archive/b.MD";
   Opened "/r/inbox/plain.md"] /\
  moved_count desk_sorted = 2 /\
  Fs.listdir (rs_os desk_sorted) "/r/inbox" =
  Ok ["other.txt" : str; "drafts" : str; "dir.md" : str; "plain.md" : str] /\
  Fs.listdir (rs_os desk_sorted) "/r/archive/cs" =
  Ok ["note.md" : str; "note_1.md" : str; "note_2.md" : str].
Proof. repeat split. Qed.

(** ** A document that is in its folder already *)

(** C9: the test of the loop compares the spellings of the two paths, not
    the directories.  In [shelf] the document [a.md] is in the folder
    selected for it.  With the source directory spelled as the index
    spells it, a run moves nothing.  With the same directory spelled
    relative to the working directory, a run renames the document inside
    its folder to [a_1.md] and the next run renames it to [a_1_1.md]: a
    run on the tree the run before has sorted still moves a document. *)
Theorem respelled_source_is_sorted_again :
  Fs.resolve shelf "r/cs" = Fs.resolve shelf "/r/cs" /\
  sort_markdown_files (Some ("/r/cs" : str)) shelf "/r/cs" "/r" =
  Some (Ok (RunState shelf 0
              [Opened "/r/cs/a.md"; Opened "/r/cs/b.md";
               Opened "/r/cs/c.md"])) /\
  exists st1 st2,
    sort_markdown_files None shelf "r/cs" "/r" =
    Some (Ok (RunState st1 1
                [Opened "r/cs/a.md"; Moved "r/cs/a.md" "/r/cs/a_1.md";
                 Opened "r/cs/b.md"; Opened "r/cs/c.md"])) /\
    Fs.listdir st1 "/r/cs" =
    Ok ["b.md" : str; "c.md" : str; "a_1.md" : str] /\
    sort_markdown_files None st1 "r/cs" "/r" =
    Some (Ok (RunState st2 1
                [Opened "r/cs/b.md"; Opened "r/cs/c.md";
                 Opened "r/cs/a_1.md";
                 Moved "r/cs/a_1.md" "/r/cs/a_1_1.md"])) /\
    Fs.listdir st2 "/r/cs" =
    Ok ["b.md" : str; "c.md" : str; "a_1_1.md" : str].
Proof.
  split; [reflexivity|]. split; [reflexivity|].
  eexists. eexists. split; [vm_compute; reflexivity|].
  split; [reflexivity|]. split; [vm_compute; reflexivity|]. reflexivity.
Qed.

(** A second run on [desk], right after the first, moves nothing. *)
Example desk_second_run :
  option_map (fun o => match o with
                       | Ok rs => (moved_count rs, events rs)
                       | Raise _ => (0, [])
                       end)
             (sort_markdown_files (Some ("/r/inbox" : str)) (rs_os desk_sorted)
                                  "/r/inbox" "/r") =
  Some (0, [Opened "/r/inbox/plain.md"]).
Proof. reflexivity. Qed.

(** ** Paths *)

Lemma split_not_nil (sep : ascii) (s : str) : split sep s <> [].
Proof.
  destruct s as [|c s]; simpl; [discriminate|].
  destruct (Ascii.eqb c sep); [discriminate|].
  destruct (split sep s); discriminate.
Qed.

Lemma split_app_sep (sep : ascii) (a b : str) :
  split sep (a ++ sep :: b) = split sep a ++ split sep b.
Proof.
  induction a as [|c a IH]; simpl.
  - rewrite Ascii.eqb_refl. reflexivity.
  - rewrite IH. destruct (Ascii.eqb c sep); [reflexivity|].
    destruct (split sep a) eqn:E; [|reflexivity].
    now apply split_not_nil in E.
Qed.

Lemma split_plain (sep : ascii) (nm : str) :
  ~ In sep nm -> split sep nm = [nm].
Proof.
  induction nm as [|c nm IH]; simpl; intros H; [reflexivity|].
  destruct (Ascii.eqb c sep) eqn:E.
  - apply Ascii.eqb_eq in E. tauto.
  - rewrite IH by tauto. reflexivity.
Qed.

Lemma startswith_nil (s : str) : startswith s [] = true.
Proof. destruct s; reflexivity. Qed.

Lemma endswith_sep (s : str) :
  endswith s "/" = true -> exists q, s = q ++ ["/"%char].
Proof.
  unfold endswith. change (rev ("/" : str)) with ["/"%char].
  destruct (rev s) as [|d r] eqn:E; cbn [startswith]; [discriminate|].
  rewrite startswith_nil, andb_true_r. intros H. apply Ascii.eqb_eq in H. subst d.
  exists (rev r). rewrite <- (rev_involutive s), E. reflexivity.
Qed.

Lemma plain_not_nil (nm : str) : plain nm -> nm <> [].
Proof. intros [_ H] ->. destruct H. Qed.

Lemma plain_not_special (nm : str) :
  plain nm ->
  str_eqb nm "" = false /\ str_eqb nm "." = false /\ str_eqb nm ".." = false.
Proof.
  intros [_ H]. repeat split; apply str_eqb_neq; intros ->; simpl in H;
    repeat (destruct H as [H|H]; [discriminate|]); destruct H.
Qed.

Lemma plain_not_absolute (nm : str) : plain nm -> startswith nm "/" = false.
Proof.
  intros [H _]. destruct nm as [|c nm]; [reflexivity|].
  change ("/" : str) with ["/"%char]. cbn [startswith].
  rewrite startswith_nil, andb_true_r. destruct (Ascii.eqb "/" c) eqn:E; [|reflexivity].
  apply Ascii.eqb_eq in E. subst. exfalso. apply H. now left.
Qed.

(** Joining a plain name to a path adds one component to it. *)
Lemma join_plain (a nm : str) :
  plain nm ->
  (a = [] /\ OsPath.join a nm = nm) \/
  (a <> [] /\
   OsPath.join a nm =
   (if endswith a "/" then removelast a else a) ++ OsPath.sep :: nm).
Proof.
  intros Hp. unfold OsPath.join. rewrite (plain_not_absolute nm Hp).
  destruct a as [|c a]; [left; auto|]. right. split; [discriminate|].
  cbv beta iota. rewrite orb_false_l.
  destruct (endswith (c :: a) "/") eqn:E; [|reflexivity].
  apply endswith_sep in E. destruct E as (q & E). rewrite E.
  rewrite removelast_last, <- app_assoc. reflexivity.
Qed.

Lemma resolve_comps_app (root : node) (c1 c2 : list str) (cur : list str) :
  Fs.resolve_comps root cur (c1 ++ c2) =
  match Fs.resolve_comps root cur c1 with
  | Some cur' => Fs.resolve_comps root cur' c2
  | None => None
  end.
Proof.
  revert cur. induction c1 as [|c c1 IH]; intros cur; simpl; [reflexivity|].
  destruct (Fs.get root (rev cur)) as [[|r es]|]; try reflexivity.
  destruct (str_eqb c _ || str_eqb c _); [apply IH|].
  destruct (str_eqb c _); [apply IH|].
  destruct (Fs.lookup c es); [apply IH|reflexivity].
Qed.

(** The last name of [join a nm] is looked up in [container st a]. *)
Lemma resolve_join (st : os_state) (a nm : str) :
  plain nm ->
  Fs.resolve st (OsPath.join a nm) =
  match container st a with
  | Some cur => Fs.resolve_comps (fs_root st) cur [nm]
  | None => None
  end.
Proof.
  intros Hp. unfold Fs.resolve, container.
  destruct (join_plain a nm Hp) as [[-> E]|[Ha E]]; rewrite E.
  - rewrite (plain_not_absolute nm Hp).
    rewrite (split_plain OsPath.sep nm (proj1 Hp)).
    destruct nm as [|c nm]; [now apply plain_not_nil in Hp|].
    change (startswith [] "/") with false. cbv beta iota.
    destruct (Fs.resolve_comps (fs_root st) [] (split OsPath.sep (cwd st)));
      reflexivity.
  - set (q := if endswith a "/" then removelast a else a) in *.
    assert (Hs : startswith (q ++ OsPath.sep :: nm) "/" = startswith a "/").
    { rewrite <- E. unfold OsPath.join.
      rewrite (plain_not_absolute nm Hp).
      destruct a as [|c a]; [congruence|].
      destruct (_ || _); change ("/" : str) with ["/"%char];
        cbn [app startswith]; rewrite !startswith_nil; reflexivity. }
    rewrite Hs, split_app_sep, (split_plain OsPath.sep nm (proj1 Hp)).
    destruct (q ++ OsPath.sep :: nm) eqn:Eq; [now destruct q|].
    destruct a as [|c a]; [congruence|].
    destruct (startswith (c :: a) "/").
    + apply resolve_comps_app.
    + destruct (Fs.resolve_comps (fs_root st) [] (split OsPath.sep (cwd st)));
        [apply resolve_comps_app|reflexivity].
Qed.

Lemma resolve_last_plain (root : node) (cur : list str) (nm : str) :
  plain nm ->
  Fs.resolve_comps root cur [nm] =
  match Fs.get root (rev cur) with
  | Some (Dir _ es) =>
      match Fs.lookup nm es with
      | Some _ => Some (nm :: cur)
      | None => None
      end
  | _ => None
  end.
Proof.
  intros Hp. destruct (plain_not_special nm Hp) as (E1 & E2 & E3).
  cbn [Fs.resolve_comps]. destruct (Fs.get root (rev cur)) as [[|r es]|];
    try reflexivity.
  rewrite E1, E2, E3. cbn [orb]. destruct (Fs.lookup nm es); reflexivity.
Qed.

Lemma lookup_in (x : str) (es : list (str * node)) (c : node) :
  Fs.lookup x es = Some c -> In (x, c) es.
Proof.
  induction es as [|[y n] es IH]; simpl; [discriminate|].
  destruct (str_eqb y x) eqn:E.
  - apply str_eqb_eq in E. subst. intros H. injection H as ->. now left.
  - intros H. right. now apply IH.
Qed.

Lemma size_pos (n : node) : 1 <= Fs.size n.
Proof. destruct n; simpl; lia. Qed.

Lemma size_entries (es : list (str * node)) :
  length es <= list_sum (map (fun e => Fs.size (snd e)) es).
Proof.
  induction es as [|e es IH]; simpl; [lia|].
  pose proof (size_pos (snd e)). lia.
Qed.

Lemma size_entry (es : list (str * node)) (e : str * node) :
  In e es -> Fs.size (snd e) <= list_sum (map (fun e => Fs.size (snd e)) es).
Proof.
  induction es as [|e' es IH]; simpl; [tauto|].
  intros [->|H]; [lia|]. apply IH in H. lia.
Qed.

Lemma get_size (names : list str) (root n : node) :
  Fs.get root names = Some n -> Fs.size n <= Fs.size root.
Proof.
  revert root. induction names as [|x xs IH]; intros root; simpl.
  - intros H. injection H as ->. lia.
  - destruct root as [|r es]; [discriminate|].
    destruct (Fs.lookup x es) as [c|] eqn:E; [|discriminate].
    intros H. apply IH in H. apply lookup_in in E.
    apply size_entry in E. simpl in *. lia.
Qed.

(** The plain names that exist in a folder are among fewer names than the
    tree has objects. *)
Lemma exists_join_bounded (st : os_state) (a : str) :
  exists names : list str,
    length names < Fs.size (fs_root st) /\
    forall nm, plain nm ->
               Fs.exists_ st (OsPath.join a nm) = true -> In nm names.
Proof.
  destruct (container st a) as [cur|] eqn:Ec.
  - destruct (Fs.get (fs_root st) (rev cur)) as [[c|r es]|] eqn:Eg.
    + exists []. split; [pose proof (size_pos (fs_root st)); simpl; lia|].
      intros nm Hp. unfold Fs.exists_, Fs.stat.
      rewrite (resolve_join st a nm Hp), Ec, (resolve_last_plain _ _ _ Hp), Eg.
      discriminate.
    + exists (map fst es). split.
      * apply get_size in Eg. pose proof (size_entries es).
        rewrite length_map. simpl in Eg. lia.
      * intros nm Hp. unfold Fs.exists_, Fs.stat.
        rewrite (resolve_join st a nm Hp), Ec, (resolve_last_plain _ _ _ Hp), Eg.
        destruct (Fs.lookup nm es) as [c|] eqn:El; [|discriminate].
        intros _. apply lookup_in in El.
        apply in_map_iff. exists (nm, c). auto.
    + exists []. split; [pose proof (size_pos (fs_root st)); simpl; lia|].
      intros nm Hp. unfold Fs.exists_, Fs.stat.
      rewrite (resolve_join st a nm Hp), Ec, (resolve_last_plain _ _ _ Hp), Eg.
      discriminate.
  - exists []. split; [pose proof (size_pos (fs_root st)); simpl; lia|].
    intros nm Hp. unfold Fs.exists_, Fs.stat.
    rewrite (resolve_join st a nm Hp), Ec. discriminate.
Qed.

(** ** The names the renaming loop tries *)

Lemma str_of_nat_inj (i j : nat) : str_of_nat i = str_of_nat j -> i = j.
Proof.
  unfold str_of_nat. intros H.
  apply (f_equal string_of_list_ascii) in H.
  rewrite !string_of_list_ascii_of_string in H.
  apply (f_equal NilZero.uint_of_string) in H.
  assert (Hn : forall n, Nat.to_uint n <> Decimal.Nil).
  { intros n E. pose proof (Unsigned.of_to n) as Hn. rewrite E in Hn.
    simpl in Hn. subst n. discriminate. }
  rewrite !NilZero.usu in H by apply Hn.
  injection H as H. now apply Unsigned.to_uint_inj.
Qed.

Lemma digits_of_uint (d : Decimal.uint) (c : ascii) :
  In c (list_ascii_of_string (NilEmpty.string_of_uint d)) ->
  is_digit c = true.
Proof.
  induction d; simpl; try tauto;
    (intros [<-|H]; [reflexivity|now apply IHd]).
Qed.

Lemma str_of_nat_digits (n : nat) (c : ascii) :
  In c (str_of_nat n) -> is_digit c = true.
Proof.
  unfold str_of_nat, NilZero.string_of_uint.
  destruct (Nat.to_uint n) eqn:E; try apply digits_of_uint.
  simpl. intros [<-|[]]. reflexivity.
Qed.

Lemma after_last_sep_no_sep (p : str) : ~ In OsPath.sep (OsPath.after_last_sep p).
Proof.
  induction p as [|c p IH]; simpl; [tauto|].
  destruct (existsb (Ascii.eqb OsPath.sep) p) eqn:E; [exact IH|].
  assert (Hp : ~ In OsPath.sep p).
  { intros Hin. assert (existsb (Ascii.eqb OsPath.sep) p = true).
    { apply existsb_exists. exists OsPath.sep. split; [exact Hin|].
      apply Ascii.eqb_refl. }
    congruence. }
  destruct (Ascii.eqb c OsPath.sep) eqn:Ec; [exact Hp|].
  apply Ascii.eqb_neq in Ec. intros [H|H]; [congruence|tauto].
Qed.

Lemma after_last_sep_plain (p : str) :
  ~ In OsPath.sep p -> OsPath.after_last_sep p = p.
Proof.
  destruct p as [|c p]; simpl; intros H; [reflexivity|].
  destruct (existsb (Ascii.eqb OsPath.sep) p) eqn:E.
  - apply existsb_exists in E. destruct E as (x & Hin & Hx).
    apply Ascii.eqb_eq in Hx. subst x. tauto.
  - destruct (Ascii.eqb c OsPath.sep) eqn:Ec; [|reflexivity].
    apply Ascii.eqb_eq in Ec. tauto.
Qed.

Lemma from_last_dot_suffix (p e : str) :
  OsPath.from_last_dot p = Some e -> exists pre, p = pre ++ e.
Proof.
  revert e. induction p as [|c p IH]; simpl; intros e; [discriminate|].
  destruct (OsPath.from_last_dot p) as [e'|].
  - intros H. injection H as <-. destruct (IH e' eq_refl) as (pre & ->).
    exists (c :: pre). reflexivity.
  - destruct (Ascii.eqb c "."%char); [|discriminate].
    intros H. injection H as <-. exists []. reflexivity.
Qed.

(** [splitext] cuts a name in two. *)
Lemma splitext_app (p base_name ext : str) :
  ~ In OsPath.sep p ->
  OsPath.splitext p = (base_name, ext) -> base_name ++ ext = p.
Proof.
  intros Hp. unfold OsPath.splitext. rewrite (after_last_sep_plain p Hp).
  destruct (OsPath.from_last_dot p) as [e|] eqn:E.
  - apply from_last_dot_suffix in E. destruct E as (pre & ->).
    rewrite length_app, Nat.add_sub.
    rewrite firstn_app, Nat.sub_diag, firstn_all, firstn_O, app_nil_r.
    destruct (OsPath.all_dots pre); intros H; injection H as <- <-;
      [apply app_nil_r|reflexivity].
  - intros H. injection H as <- <-. apply app_nil_r.
Qed.

Lemma numbered_plain (base_name ext : str) (i : nat) :
  ~ In OsPath.sep (base_name ++ ext) -> plain (numbered base_name ext i).
Proof.
  intros H. unfold plain, numbered. split.
  - intros Hin. apply in_app_iff in Hin. destruct Hin as [Hin|Hin].
    + apply H. apply in_or_app. now left.
    + simpl in Hin. destruct Hin as [Hin|Hin]; [discriminate|].
      apply in_app_iff in Hin. destruct Hin as [Hin|Hin].
      * apply str_of_nat_digits in Hin. discriminate.
      * apply H. apply in_or_app. now right.
  - apply in_or_app. right. now left.
Qed.

Lemma numbered_inj (base_name ext : str) (i j : nat) :
  numbered base_name ext i = numbered base_name ext j -> i = j.
Proof.
  unfold numbered. intros H. apply app_inv_head in H.
  simpl in H. injection H as H. apply app_inv_tail in H.
  now apply str_of_nat_inj.
Qed.

(** ** The renaming loop *)

Lemma free_suffix_S (fuel : nat) (st : os_state)
      (target_folder base_name ext : str) (i : nat) :
  free_suffix (S fuel) st target_folder base_name ext i =
  if Fs.exists_ st (OsPath.join target_folder (numbered base_name ext i))
  then free_suffix fuel st target_folder base_name ext (S i)
  else Some i.
Proof. reflexivity. Qed.

Lemma free_suffix_some (fuel : nat) (st : os_state)
      (target_folder base_name ext : str) (i n : nat) :
  free_suffix fuel st target_folder base_name ext i = Some n ->
  i <= n /\
  Fs.exists_ st (OsPath.join target_folder (numbered base_name ext n)) = false /\
  forall m, i <= m < n ->
    Fs.exists_ st (OsPath.join target_folder (numbered base_name ext m)) = true.
Proof.
  revert i. induction fuel as [|fuel IH]; intros i; [discriminate|].
  rewrite free_suffix_S.
  destruct (Fs.exists_ st (OsPath.join target_folder (numbered base_name ext i)))
    eqn:E.
  - intros H. apply IH in H. destruct H as (H1 & H2 & H3).
    split; [lia|]. split; [exact H2|].
    intros m Hm. destruct (Nat.eq_dec m i) as [->|Hne]; [exact E|].
    apply H3. lia.
  - intros H. injection H as <-. split; [lia|]. split; [exact E|].
    intros m Hm. lia.
Qed.

Lemma free_suffix_none (fuel : nat) (st : os_state)
      (target_folder base_name ext : str) (i : nat) :
  free_suffix fuel st target_folder base_name ext i = None ->
  forall m, i <= m < i + fuel ->
    Fs.exists_ st (OsPath.join target_folder (numbered base_name ext m)) = true.
Proof.
  revert i. induction fuel as [|fuel IH]; intros i; [intros; lia|].
  rewrite free_suffix_S.
  destruct (Fs.exists_ st (OsPath.join target_folder (numbered base_name ext i)))
    eqn:E; [|discriminate].
  intros H m Hm. destruct (Nat.eq_dec m i) as [->|Hne]; [exact E|].
  apply (IH (S i) H). lia.
Qed.

(** The loop ends: a tree has fewer names in a folder than objects. *)
Lemma free_suffix_terminates (st : os_state)
      (target_folder base_name ext : str) (i : nat) :
  ~ In OsPath.sep (base_name ++ ext) ->
  exists n,
    free_suffix (S (Fs.size (fs_root st))) st target_folder base_name ext i =
    Some n.
Proof.
  intros Hp.
  destruct (free_suffix _ st target_folder base_name ext i) as [n|] eqn:E;
    [eauto|exfalso].
  pose proof (free_suffix_none _ _ _ _ _ _ E) as Hall.
  destruct (exists_join_bounded st target_folder) as (names & Hlen & Hin).
  set (fuel := S (Fs.size (fs_root st))) in *.
  assert (Hincl : incl (map (numbered base_name ext) (seq i fuel)) names).
  { intros nm Hnm. apply in_map_iff in Hnm. destruct Hnm as (m & <- & Hm).
    apply in_seq in Hm. apply Hin; [now apply numbered_plain|].
    apply Hall. lia. }
  assert (Hnd : NoDup (map (numbered base_name ext) (seq i fuel))).
  { apply Injective_map_NoDup; [|apply seq_NoDup].
    intros a b. apply numbered_inj. }
  pose proof (NoDup_incl_length Hnd Hincl) as Hle.
  rewrite length_map, length_seq in Hle. unfold fuel in Hle. lia.
Qed.

(** C8: when the destination folder already has something under the name
    of the document, the destination is the name with [_n] put between
    what [splitext] gives as its root and as its extension, for the least
    [n >= 1] whose name is free; the search always ends.  "note.md" sent to
    a folder that holds "note.md" becomes "note_1.md", and "note_2.md"
    when the folder holds "note_1.md" as well. *)
Theorem collision_gets_numbered_name :
  (forall (st : os_state) (target_folder file_path base_name ext : str),
     Fs.exists_ st (OsPath.join target_folder (OsPath.basename file_path))
     = true ->
     OsPath.splitext (OsPath.basename file_path) = (base_name, ext) ->
     base_name ++ ext = OsPath.basename file_path /\
     exists n,
       destination_for st target_folder file_path =
       Some (OsPath.join target_folder
                         (base_name ++ "_" ++ str_of_nat n ++ ext)) /\
       1 <= n /\
       Fs.exists_ st (OsPath.join target_folder
                                  (base_name ++ "_" ++ str_of_nat n ++ ext))
       = false /\
       forall m, 1 <= m < n ->
         Fs.exists_ st (OsPath.join target_folder
                                    (base_name ++ "_" ++ str_of_nat m ++ ext))
         = true) /\
  destination_for pile_one "/r/cs" "/r/inbox/note.md" =
  Some ("/r/cs/note_1.md" : str) /\
  destination_for pile_two "/r/cs" "/r/inbox/note.md" =
  Some ("/r/cs/note_2.md" : str) /\
  option_map (fun o => match o with
                       | Ok rs => events rs
                       | Raise _ => []
                       end)
             (sort_markdown_files (Some ("/r/inbox" : str)) pile_two
                                  "/r/inbox" "/r") =
  Some [Opened "/r/inbox/note.md";
        Moved "/r/inbox/note.md" "/r/cs/note_2.md"].
Proof.
  split; [|repeat split].
  intros st target_folder file_path base_name ext Hex Hsplit.
  pose proof (after_last_sep_no_sep file_path) as Hbase.
  fold (OsPath.basename file_path) in Hbase.
  pose proof (splitext_app _ _ _ Hbase Hsplit) as Happ.
  split; [exact Happ|].
  assert (Hp : ~ In OsPath.sep (base_name ++ ext)) by (rewrite Happ; exact Hbase).
  destruct (free_suffix_terminates st target_folder base_name ext 1 Hp)
    as (n & Hn).
  exists n. unfold destination_for. rewrite Hex, Hsplit, Hn.
  split; [reflexivity|].
  apply free_suffix_some in Hn. exact Hn.
Qed.

Lemma collision_gets_numbered_name_witness :
  "note" ++ ".md" = OsPath.basename "/r/inbox/note.md" /\
  exists n,
    destination_for (rs_os desk_sorted) "/r/archive/cs" "/r/inbox/note.md" =
    Some (OsPath.join "/r/archive/cs" ("note" ++ "_" ++ str_of_nat n ++ ".md")) /\
    1 <= n /\
    Fs.exists_ (rs_os desk_sorted)
               (OsPath.join "/r/archive/cs"
                            ("note" ++ "_" ++ str_of_nat n ++ ".md")) = false /\
    forall m, 1 <= m < n ->
      Fs.exists_ (rs_os desk_sorted)
                 (OsPath.join "/r/archive/cs"
                              ("note" ++ "_" ++ str_of_nat m ++ ".md")) = true.
Proof.
  apply (proj1 collision_gets_numbered_name (rs_os desk_sorted)
               "/r/archive/cs" "/r/inbox/note.md" "note" ".md");
    reflexivity.
Defined.

(** The loops of a run never run out of fuel. *)
Lemma destination_for_total (st : os_state) (target_folder file_path : str) :
  exists destination,
    destination_for st target_folder file_path = Some destination.
Proof.
  unfold destination_for.
  destruct (Fs.exists_ st _); [|eauto].
  destruct (OsPath.splitext (OsPath.basename file_path)) as [b e] eqn:E.
  pose proof (after_last_sep_no_sep file_path) as Hbase.
  fold (OsPath.basename file_path) in Hbase.
  pose proof (splitext_app _ _ _ Hbase E) as Happ.
  assert (Hp : ~ In OsPath.sep (b ++ e)) by (rewrite Happ; exact Hbase).
  destruct (free_suffix_terminates st target_folder b e 1 Hp) as (n & ->).
  eauto.
Qed.

Lemma process_file_total (folders : FolderIndex) (rs : run_state)
      (file_path : str) :
  exists rs', process_file folders rs file_path = Some rs'.
Proof.
  unfold process_file.
  destruct (extract_tags (rs_os rs) file_path); [eauto|].
  destruct (find_best_matching_folder _ folders) as [[|c target]|]; eauto.
  destruct (str_eqb _ _); [eauto|].
  destruct (destination_for_total (rs_os rs) (c :: target) file_path)
    as (d & ->).
  destruct (Fs.move _ _ _); eauto.
Qed.

Lemma sort_markdown_files_total (g : option str) (st : os_state)
      (source_dir root_dir : str) :
  exists outcome, sort_markdown_files g st source_dir root_dir = Some outcome.
Proof.
  unfold sort_markdown_files.
  destruct (get_existing_folders g st root_dir) as [folders|]; [|eauto].
  destruct (Fs.listdir st source_dir) as [listing|]; [|eauto].
  generalize (RunState st 0 []).
  induction (markdown_files_of st source_dir listing) as [|fp more IH];
    intros rs; simpl; [eauto|].
  destruct (process_file_total folders rs fp) as (rs' & ->).
  apply IH.
Qed.

(** ** The matcher *)

Lemma startswith_app (p r : str) : startswith (p ++ r) p = true.
Proof.
  induction p as [|c p IH]; simpl; [apply startswith_nil|].
  rewrite Ascii.eqb_refl. exact IH.
Qed.

Lemma startswith_split (s p : str) :
  startswith s p = true -> s = p ++ skipn (length p) s.
Proof.
  revert s. induction p as [|c p IH]; intros s; [reflexivity|].
  destruct s as [|d s]; cbn [startswith]; [discriminate|].
  intros H. apply andb_true_iff in H. destruct H as [H1 H2].
  apply Ascii.eqb_eq in H1. subst d. simpl. f_equal. now apply IH.
Qed.

Lemma startswith_iff (s p : str) :
  startswith s p = true <-> exists r, s = p ++ r.
Proof.
  split.
  - intros H. eexists. now apply startswith_split.
  - intros (r & ->). apply startswith_app.
Qed.

Section MatcherFacts.
Variable A : Type.
Variable dotall : bool.

(** A literal is matched by comparing it with the head of the subject. *)
Lemma run_lit (p : str) (st : mstate) (k : mstate -> option A) :
  run dotall (lit p) st k =
  if startswith (rest st) p
  then k (MState (pos st + length p) (skipn (length p) (rest st)) (grp st))
  else None.
Proof.
  revert st. induction p as [|c p IH]; intros [i s g]; cbn [lit run rest].
  - rewrite startswith_nil. cbn. rewrite Nat.add_0_r. reflexivity.
  - destruct s as [|d s]; cbn [startswith]; [reflexivity|].
    cbn [cset_mem]. rewrite (Ascii.eqb_sym d c).
    destruct (Ascii.eqb c d); cbn [andb]; [|reflexivity].
    rewrite IH. cbn [advance pos rest grp length skipn].
    rewrite Nat.add_succ_r. reflexivity.
Qed.

(** A lazy star stops where its continuation first succeeds; when that is
    decided by a test on what is left, it is the first place where the
    test holds. *)
Lemma star_lazy_until (p : cset) (stop : str -> bool)
      (k : mstate -> option A) (g : option str) :
  (forall j r, stop r = false -> k (MState j r g) = None) ->
  (forall j r, stop r = true -> k (MState j r g) <> None) ->
  forall s i,
    star_lazy dotall p k i s g =
    match scan_until (cset_mem dotall p) stop s with
    | Some (t, r) => k (MState (i + length t) r g)
    | None => None
    end.
Proof.
  intros Hno Hyes. induction s as [|c s IH]; intros i.
  - cbn [star_lazy scan_until]. destruct (stop []) eqn:E.
    + cbn. rewrite Nat.add_0_r.
      destruct (k (MState i [] g)) eqn:Ek; [reflexivity|].
      now apply Hyes in Ek.
    + rewrite (Hno i [] E). reflexivity.
  - cbn [star_lazy scan_until]. destruct (stop (c :: s)) eqn:E.
    + cbn. rewrite Nat.add_0_r.
      destruct (k (MState i (c :: s) g)) eqn:Ek; [reflexivity|].
      now apply Hyes in Ek.
    + rewrite (Hno i (c :: s) E).
      destruct (cset_mem dotall p c); [|reflexivity].
      rewrite IH. destruct (scan_until _ stop s) as [[t r]|]; [|reflexivity].
      cbn [length]. rewrite Nat.add_succ_r. reflexivity.
Qed.

(** A greedy star over white space, before something that cannot begin
    with white space, takes all the white space there is. *)
Lemma star_greedy_lstrip (k : mstate -> option A) (g : option str) :
  (forall j c r, is_space c = true -> k (MState j (c :: r) g) = None) ->
  forall s i,
    star_greedy dotall Space k i s g =
    k (MState (i + (length s - length (lstrip s))) (lstrip s) g).
Proof.
  intros Hk. induction s as [|c s IH]; intros i.
  - cbn. rewrite Nat.add_0_r. reflexivity.
  - cbn [star_greedy lstrip cset_mem]. destruct (is_space c) eqn:E.
    + rewrite IH.
      assert (Hl : length (lstrip s) <= length s).
      { clear. induction s as [|d s IHs]; simpl; [lia|].
        destruct (is_space d); simpl; lia. }
      replace (i + (length (c :: s) - length (lstrip s)))
        with (S i + (length s - length (lstrip s))) by (cbn [length]; lia).
      destruct (k _) eqn:Ek; [reflexivity|].
      (* nothing to give back: the continuation fails on white space *)
      now rewrite (Hk i c s E).
    + rewrite Nat.sub_diag, Nat.add_0_r. reflexivity.
Qed.
End MatcherFacts.

(** ** Scanning *)

Lemma scan_until_some (ok : ascii -> bool) (stop : str -> bool)
      (s t r : str) :
  scan_until ok stop s = Some (t, r) <->
  s = t ++ r /\ Forall (fun c => ok c = true) t /\ stop r = true /\
  forall t1 t2, t = t1 ++ t2 -> t2 <> [] -> stop (t2 ++ r) = false.
Proof.
  split.
  - revert t. induction s as [|c s IH]; intros t; cbn [scan_until].
    + destruct (stop []) eqn:E; [|discriminate].
      intros H. injection H as <- <-. repeat split; [constructor|exact E|].
      intros t1 t2 H. symmetry in H. apply app_eq_nil in H. tauto.
    + destruct (stop (c :: s)) eqn:E.
      * intros H. injection H as <- <-. repeat split; [constructor|exact E|].
        intros t1 t2 H. symmetry in H. apply app_eq_nil in H. tauto.
      * destruct (ok c) eqn:Ec; [|discriminate].
        destruct (scan_until ok stop s) as [[t' r']|]; [|discriminate].
        intros H. injection H as <- <-.
        destruct (IH t' eq_refl) as (-> & Hok & Hs & Hmin).
        repeat split; [constructor; assumption|exact Hs|].
        intros [|d t1] t2 H Hne; simpl in H.
        -- subst t2. exact E.
        -- injection H as _ H. now apply (Hmin t1 t2).
  - intros (-> & Hok & Hs & Hmin). induction Hok as [|c t Hc Hok IH];
      cbn [scan_until app].
    + destruct r; cbn [scan_until]; rewrite Hs; reflexivity.
    + assert (H0 : stop ((c :: t) ++ r) = false)
        by (apply (Hmin [] (c :: t) eq_refl); discriminate).
      cbn [app] in H0. rewrite H0, Hc, IH; [reflexivity|].
      intros t1 t2 -> Hne. now apply (Hmin (c :: t1) t2).
Qed.

Lemma scan_until_none (ok : ascii -> bool) (stop : str -> bool) (s : str) :
  scan_until ok stop s = None ->
  forall t r, s = t ++ r -> Forall (fun c => ok c = true) t -> stop r = false.
Proof.
  induction s as [|c s IH]; cbn [scan_until].
  - destruct (stop []) eqn:E; [discriminate|]. intros _ t r H _.
    symmetry in H. apply app_eq_nil in H. destruct H as [_ ->]. exact E.
  - destruct (stop (c :: s)) eqn:E; [discriminate|].
    intros H [|d t] r Heq Hok; simpl in Heq.
    + subst r. exact E.
    + injection Heq as <- ->. inversion Hok as [|? ? Hd Hok']; subst.
      rewrite Hd in H.
      destruct (scan_until ok stop (t ++ r)) as [[t' r']|] eqn:Es;
        [discriminate|].
      now apply (IH eq_refl t r).
Qed.

(** Under [DOTALL] the end of the line is always found. *)
Lemma scan_eol_total (s : str) :
  exists y r, scan_until (cset_mem true Dot) stops_eol s = Some (y, r).
Proof.
  induction s as [|c s (y & r & IH)]; cbn [scan_until stops_eol]; [eauto|].
  destruct (Ascii.eqb c LF); [eauto|].
  cbn [cset_mem orb]. rewrite IH. eauto.
Qed.

(** *** One token *)

Lemma match_at_token (i : nat) (s : str) :
  match_at false tag_pattern2 i s =
  match token_scan s with
  | Some (t, r) => Some (MState (i + 4 + length t) r (Some t))
  | None => None
  end.
Proof.
  unfold match_at, tag_pattern2, token_scan.
  change (run false (lit "[[" ;; Group (Star Lazy Dot) ;; lit "]]")
              (MState i s None) (@Some mstate))
    with (run false (lit "[[") (MState i s None)
              (fun st => star_lazy false Dot
                 (fun st' =>
                    run false (lit "]]")
                        (MState (pos st') (rest st')
                                (Some (firstn (pos st' - pos st) (rest st))))
                        (@Some mstate))
                 (pos st) (rest st) (grp st))).
  rewrite run_lit. cbn [rest pos grp].
  destruct (startswith s "[["); [|reflexivity].
  change (length ("[[" : str)) with 2.
  rewrite (star_lazy_until mstate false Dot stops_close).
  - destruct (scan_until _ stops_close (skipn 2 s)) as [[t r]|] eqn:E;
      [|reflexivity].
    apply scan_until_some in E. destruct E as (E & _ & Hs & _).
    rewrite run_lit. cbn [rest pos grp]. unfold stops_close in Hs.
    rewrite Hs, E. change (length ("]]" : str)) with 2.
    replace (i + 2 + length t - (i + 2)) with (length t) by lia.
    rewrite firstn_app, Nat.sub_diag, firstn_all, firstn_O, app_nil_r.
    do 2 f_equal. lia.
  - intros j r Hr. rewrite run_lit. cbn [rest]. unfold stops_close in Hr.
    now rewrite Hr.
  - intros j r Hr. rewrite run_lit. cbn [rest]. unfold stops_close in Hr.
    now rewrite Hr.
Qed.

Lemma stops_close_cons (c : ascii) (r : str) :
  stops_close (c :: r) =
  Ascii.eqb "]"%char c &&
  match r with
  | d :: _ => Ascii.eqb "]"%char d
  | [] => false
  end.
Proof.
  unfold stops_close. change ("]]" : str) with ["]"%char; "]"%char].
  cbn [startswith]. destruct r as [|d r]; [reflexivity|].
  cbn [startswith]. rewrite startswith_nil, andb_true_r. reflexivity.
Qed.

(** No "]]" begins inside [t] exactly when the scan for "]]" cannot stop
    inside [t]. *)
Lemma closes_first_iff (t r : str) :
  (forall t1 t2, t = t1 ++ t2 -> t2 <> [] ->
                 stops_close (t2 ++ "]]" ++ r) = false) <->
  closes_first t.
Proof.
  unfold closes_first, occurs.
  change ("]]" : str) with ["]"%char; "]"%char].
  change ("]" : str) with ["]"%char].
  split.
  - intros Hmin (a & b & E).
    apply app_eq_app in E. destruct E as (l & [[-> E]|[-> E]]).
    + destruct l as [|d l]; [discriminate|].
      specialize (Hmin a (d :: l) eq_refl ltac:(discriminate)).
      cbn [app] in Hmin, E. rewrite stops_close_cons in Hmin.
      injection E as <- E. rewrite Ascii.eqb_refl in Hmin.
      destruct l as [|e l]; cbn [app] in Hmin, E.
      * rewrite Ascii.eqb_refl in Hmin. discriminate.
      * injection E as <- _. rewrite Ascii.eqb_refl in Hmin. discriminate.
    + apply (f_equal (@length ascii)) in E. rewrite length_app in E.
      simpl in E. lia.
  - intros Hno t1 t2 -> Hne.
    destruct (stops_close _) eqn:E; [|reflexivity].
    exfalso. apply Hno.
    destruct t2 as [|d t2]; [congruence|]. cbn [app] in E.
    rewrite stops_close_cons in E. apply andb_true_iff in E.
    destruct E as [E1 E2]. apply Ascii.eqb_eq in E1. subst d.
    destruct t2 as [|e t2]; cbn [app] in E2.
    + exists t1, []. rewrite <- app_assoc. reflexivity.
    + apply Ascii.eqb_eq in E2. subst e.
      exists t1, (t2 ++ ["]"%char]). rewrite <- app_assoc. reflexivity.
Qed.

Lemma no_lf_iff (t : str) :
  Forall (fun c => cset_mem false Dot c = true) t <-> no_lf t.
Proof.
  unfold no_lf. rewrite Forall_forall. cbn [cset_mem orb]. split.
  - intros H Hin. specialize (H LF Hin). now rewrite Ascii.eqb_refl in H.
  - intros H c Hin. apply negb_true_iff. apply Ascii.eqb_neq.
    intros ->. now apply H.
Qed.

Lemma token_scan_some (s t r : str) :
  token_scan s = Some (t, r) <-> token_at s t r.
Proof.
  unfold token_scan, token_at. split.
  - destruct (startswith s "[[") eqn:Es; [|discriminate].
    apply startswith_split in Es. change (length ("[[" : str)) with 2 in Es.
    destruct (scan_until _ stops_close (skipn 2 s)) as [[t' r']|] eqn:E;
      [|discriminate].
    intros H. injection H as <- <-.
    apply scan_until_some in E. destruct E as (E & Hok & Hs & Hmin).
    unfold stops_close in Hs. apply startswith_split in Hs.
    change (length ("]]" : str)) with 2 in Hs.
    split; [|split].
    + rewrite Es at 1. rewrite E. rewrite Hs at 1. reflexivity.
    + now apply no_lf_iff.
    + apply (closes_first_iff t' (skipn 2 r')). rewrite <- Hs. exact Hmin.
  - intros (-> & Hlf & Hcf). rewrite startswith_app.
    change (skipn 2 ("[[" ++ t ++ "]]" ++ r)) with (t ++ "]]" ++ r).
    assert (E : scan_until (cset_mem false Dot) stops_close (t ++ "]]" ++ r)
                = Some (t, "]]" ++ r)).
    { apply scan_until_some. repeat split.
      - now apply no_lf_iff.
      - apply startswith_app.
      - now apply closes_first_iff. }
    rewrite E. reflexivity.
Qed.

Lemma token_scan_none (s : str) :
  token_scan s = None <-> ~ starts_token s.
Proof.
  split.
  - intros H (t & r & Ht). apply token_scan_some in Ht. congruence.
  - intros H. destruct (token_scan s) as [[t r]|] eqn:E; [|reflexivity].
    exfalso. apply H. exists t, r. now apply token_scan_some.
Qed.

(** *** All tokens *)

Lemma findall_step (fuel i : nat) (s : str) :
  findall_loop (S fuel) false tag_pattern2 i s =
  match token_scan s with
  | Some (t, r) =>
      t :: findall_loop fuel false tag_pattern2 (i + 4 + length t) r
  | None =>
      match s with
      | [] => []
      | _ :: s' => findall_loop fuel false tag_pattern2 (S i) s'
      end
  end.
Proof.
  cbn [findall_loop]. rewrite match_at_token.
  destruct (token_scan s) as [[t r]|]; [|reflexivity].
  cbn [pos rest group1 grp].
  replace (i + 4 + length t =? i) with false
    by (symmetry; apply Nat.eqb_neq; lia).
  reflexivity.
Qed.

Lemma token_at_shorter (s t r : str) : token_at s t r -> length r < length s.
Proof.
  intros (-> & _). rewrite !length_app. simpl. lia.
Qed.

Lemma Tokens_skip (c : ascii) (s : str) (l : list str) :
  ~ starts_token (c :: s) -> Tokens s l -> Tokens (c :: s) l.
Proof.
  intros Hc H. destruct H as [s H|pre t rest l H Ht Hl].
  - apply Tokens_none. intros [|d pre] s' E; simpl in E.
    + now subst s'.
    + injection E as _ E. now apply (H pre s').
  - apply (@Tokens_next (c :: pre) t rest l); [|exact Ht|exact Hl].
    intros [|d p1] p2 E Hne; simpl in E.
    + subst p2. exact Hc.
    + injection E as _ E. now apply (H p1 p2).
Qed.

(** What [findall] returns is the sequence of tokens of the text. *)
Lemma findall_tokens (fuel : nat) :
  forall (s : str) (i : nat),
    length s < fuel -> Tokens s (findall_loop fuel false tag_pattern2 i s).
Proof.
  induction fuel as [|fuel IH]; intros s i Hlen; [lia|].
  rewrite findall_step. destruct (token_scan s) as [[t r]|] eqn:E.
  - apply token_scan_some in E. pose proof (token_at_shorter s t r E) as Hr.
    pose proof E as (Es & _). rewrite Es in E |- *.
    apply (@Tokens_next [] t r); [|exact E|apply IH; lia].
    intros p1 p2 H. symmetry in H. apply app_eq_nil in H. tauto.
  - apply token_scan_none in E. destruct s as [|c s].
    + apply Tokens_none. intros pre s' H. symmetry in H.
      apply app_eq_nil in H. destruct H as [_ ->]. exact E.
    + apply Tokens_skip; [exact E|]. apply IH. simpl in Hlen. lia.
Qed.

Lemma findall_none (fuel : nat) :
  forall (s : str) (i : nat),
    (forall pre s', s = pre ++ s' -> ~ starts_token s') ->
    findall_loop fuel false tag_pattern2 i s = [].
Proof.
  induction fuel as [|fuel IH]; intros s i H; [reflexivity|].
  rewrite findall_step.
  assert (E : token_scan s = None)
    by (apply token_scan_none; now apply (H [] s)).
  rewrite E. destruct s as [|c s]; [reflexivity|].
  apply IH. intros pre s' ->. now apply (H (c :: pre) s').
Qed.

(** And it is the only such sequence. *)
Lemma tokens_findall (s : str) (l : list str) :
  Tokens s l ->
  forall fuel i,
    length s < fuel -> findall_loop fuel false tag_pattern2 i s = l.
Proof.
  induction 1 as [s H|pre t rest l H Ht Hl IH]; intros fuel.
  - intros i _. now apply findall_none.
  - revert fuel. induction pre as [|c pre IHp]; intros fuel i Hlen.
    + destruct fuel as [|fuel]; [lia|]. rewrite findall_step.
      cbn [app]. apply token_scan_some in Ht. rewrite Ht. f_equal.
      apply IH. cbn [app] in Hlen. rewrite !length_app in Hlen.
      simpl in Hlen. lia.
    + destruct fuel as [|fuel]; [simpl in Hlen; lia|]. rewrite findall_step.
      assert (E : token_scan ((c :: pre) ++ "[[" ++ t ++ "]]" ++ rest) = None).
      { apply token_scan_none. apply (H [] (c :: pre) eq_refl). discriminate. }
      rewrite E. cbn [app]. apply IHp.
      * intros p1 p2 -> Hne. now apply (H (c :: p1) p2).
      * cbn [app length] in Hlen. lia.
Qed.

(** *** The tag block *)

Lemma eol_alt_fail (st : mstate) :
  stops_eol (rest st) = false ->
  run true (Alt (Chr (Lit LF)) Eol) st (@Some mstate) = None.
Proof.
  destruct st as [i [|c r] g]; cbn [rest stops_eol]; [discriminate|].
  intros E. cbn [run rest cset_mem]. rewrite E.
  destruct r; reflexivity.
Qed.

Lemma eol_alt_ok (st : mstate) :
  stops_eol (rest st) = true ->
  exists m, run true (Alt (Chr (Lit LF)) Eol) st (@Some mstate) = Some m /\
            grp m = grp st.
Proof.
  destruct st as [i [|c r] g]; cbn [rest stops_eol].
  - intros _. cbn. eauto.
  - intros E. cbn [run rest cset_mem]. rewrite E. cbn. eauto.
Qed.

Lemma firstn_length_app (T : Type) (a b : list T) :
  firstn (length a) (a ++ b) = a.
Proof.
  rewrite firstn_app, Nat.sub_diag, firstn_all, firstn_O. apply app_nil_r.
Qed.

(** The second lazy star of the block runs to the end of the line, and
    the group closes there. *)
Lemma lazy_to_eol (cap : mstate -> str) (s : str) (i : nat) (g : option str) :
  exists m y r,
    scan_until (cset_mem true Dot) stops_eol s = Some (y, r) /\
    star_lazy true Dot
      (fun st => run true (Alt (Chr (Lit LF)) Eol)
                     (MState (pos st) (rest st) (Some (cap st)))
                     (@Some mstate))
      i s g = Some m /\
    grp m = Some (cap (MState (i + length y) r g)).
Proof.
  destruct (scan_eol_total s) as (y & r & E).
  rewrite (star_lazy_until mstate true Dot stops_eol).
  - rewrite E. pose proof E as E'. apply scan_until_some in E'.
    destruct E' as (_ & _ & Hs & _).
    destruct (eol_alt_ok (MState (i + length y) r
                                 (Some (cap (MState (i + length y) r g)))) Hs)
      as (m & Hm & Hg).
    exists m, y, r. cbn [pos rest] in *. auto.
  - intros j r' Hr. now apply eol_alt_fail.
  - intros j r' Hr.
    destruct (eol_alt_ok (MState j r' (Some (cap (MState j r' g)))) Hr)
      as (m & Hm & _).
    cbn [pos rest] in *. congruence.
Qed.

Lemma lstrip_no_open (c : ascii) (r : str) :
  is_space c = true -> startswith (c :: r) "[[" = false.
Proof.
  intros H. change ("[[" : str) with ["["%char; "["%char].
  cbn [startswith]. destruct (Ascii.eqb "[" c) eqn:E; [|reflexivity].
  apply Ascii.eqb_eq in E. subst c. discriminate.
Qed.

(** What the first pattern captures at a position is the block that
    the scan finds there. *)
Lemma match_at_block (i : nat) (s : str) :
  option_map group1 (match_at true tag_pattern1 i s) = block_scan s.
Proof.
  unfold match_at, tag_pattern1, block_scan.
  set (tail := fun (st0 st : mstate) =>
         run true (Alt (Chr (Lit LF)) Eol)
             (MState (pos st) (rest st)
                     (Some (firstn (pos st - pos st0) (rest st0))))
             (@Some mstate)).
  set (inner := fun (st0 st : mstate) =>
         run true (lit "]]") st
             (fun st' => star_lazy true Dot (tail st0)
                                   (pos st') (rest st') (grp st'))).
  set (body := fun (st0 : mstate) =>
         run true (lit "[[") st0
             (fun st => star_lazy true Dot (inner st0)
                                  (pos st) (rest st) (grp st))).
  change (run true _ (MState i s None) (@Some mstate))
    with (run true (lit marker) (MState i s None)
              (fun st => star_greedy true Space body
                                     (pos st) (rest st) (grp st))).
  rewrite run_lit. cbn [rest pos grp].
  fold marker. destruct (startswith s marker); [|reflexivity].
  rewrite star_greedy_lstrip.
  2:{ intros j c r Hc. unfold body. rewrite run_lit. cbn [rest].
      now rewrite (lstrip_no_open c r Hc). }
  set (s2 := lstrip (skipn (length marker) s)).
  set (j := i + length marker + _).
  unfold body. rewrite run_lit. cbn [rest pos grp].
  destruct (startswith s2 "[[") eqn:Eopen; [|reflexivity].
  change (length ("[[" : str)) with 2.
  rewrite (star_lazy_until mstate true Dot stops_close).
  - destruct (scan_until _ stops_close (skipn 2 s2)) as [[x r]|] eqn:Ex;
      [|reflexivity].
    unfold inner. rewrite run_lit. cbn [rest pos grp].
    pose proof Ex as Ex'. apply scan_until_some in Ex'.
    destruct Ex' as (Es2 & _ & Hclose & _). unfold stops_close in Hclose.
    rewrite Hclose. change (length ("]]" : str)) with 2.
    destruct (lazy_to_eol
                (fun st => firstn (pos st - pos (MState j s2 None))
                                  (rest (MState j s2 None)))
                (skipn 2 r) (j + 2 + length x + 2) None)
      as (m & y & r3 & Ey & Hm & Hg).
    change (star_lazy true Dot (tail (MState j s2 None))
                      (j + 2 + length x + 2) (skipn 2 r) None = Some m) in Hm.
    rewrite Hm, Ey. cbn [option_map]. unfold group1.
    rewrite Hg. cbn [pos rest]. f_equal.
    apply startswith_split in Eopen, Hclose.
    change (length ("[[" : str)) with 2 in Eopen.
    change (length ("]]" : str)) with 2 in Hclose.
    apply scan_until_some in Ey. destruct Ey as (Er3 & _).
    assert (E : s2 = ("[[" ++ x ++ "]]" ++ y) ++ r3).
    { rewrite Eopen at 1. rewrite Es2. rewrite Hclose at 1. rewrite Er3.
      now rewrite <- !app_assoc. }
    rewrite E.
    replace (j + 2 + length x + 2 + length y - j)
      with (length ("[[" ++ x ++ "]]" ++ y)).
    + apply firstn_length_app.
    + rewrite !length_app. simpl. lia.
  - intros j' r Hr. unfold inner. rewrite run_lit. cbn [rest].
    unfold stops_close in Hr. now rewrite Hr.
  - intros j' r Hr. unfold inner. rewrite run_lit. cbn [rest pos grp].
    unfold stops_close in Hr. rewrite Hr.
    destruct (lazy_to_eol
                (fun st => firstn (pos st - pos (MState j s2 None))
                                  (rest (MState j s2 None)))
                (skipn (length ("]]" : str)) r)
                (j' + length ("]]" : str)) None)
      as (m & y & r3 & _ & Hm & _).
    change (star_lazy true Dot (tail (MState j s2 None))
                      (j' + length ("]]" : str))
                      (skipn (length ("]]" : str)) r) None = Some m) in Hm.
    rewrite Hm. discriminate.
Qed.

Lemma search_first_block (s : str) :
  forall i, option_map group1 (search_from true tag_pattern1 i s) =
            first_block s.
Proof.
  induction s as [|c s IH]; intros i; cbn [search_from first_block];
    rewrite <- (match_at_block i);
    destruct (match_at true tag_pattern1 i _); try reflexivity.
  apply IH.
Qed.

Lemma lstrip_split (s : str) :
  exists ws, s = ws ++ lstrip s /\ spaces ws.
Proof.
  induction s as [|c s (ws & E & Hws)]; [exists []; split; [reflexivity|constructor]|].
  cbn [lstrip]. destruct (is_space c) eqn:Ec.
  - exists (c :: ws). split; [simpl; now f_equal|now constructor].
  - exists []. split; [reflexivity|constructor].
Qed.

Lemma lstrip_app (ws r : str) :
  spaces ws -> startswith r "[[" = true -> lstrip (ws ++ r) = r.
Proof.
  intros Hws Hr. induction Hws as [|c ws Hc Hws IH]; cbn [app lstrip].
  - destruct r as [|d r]; [reflexivity|]. cbn [lstrip].
    destruct (is_space d) eqn:Ed; [|reflexivity].
    now rewrite (lstrip_no_open d r Ed) in Hr.
  - now rewrite Hc.
Qed.

Lemma all_dotall (t : str) : Forall (fun c => cset_mem true Dot c = true) t.
Proof. apply Forall_forall. reflexivity. Qed.

Lemma stops_eol_iff (r : str) :
  stops_eol r = true <-> r = [] \/ exists r', r = LF :: r'.
Proof.
  destruct r as [|c r]; cbn [stops_eol].
  - split; auto.
  - rewrite Ascii.eqb_eq. split.
    + intros ->. eauto.
    + intros [H|(r' & H)]; [discriminate|]. now injection H.
Qed.

(** The line ends at the first line feed. *)
Lemma eol_first_iff (y r : str) :
  (forall y1 y2, y = y1 ++ y2 -> y2 <> [] -> stops_eol (y2 ++ r) = false) <->
  no_lf y.
Proof.
  unfold no_lf. split.
  - intros H Hin. apply in_split in Hin. destruct Hin as (y1 & y2 & ->).
    specialize (H y1 (LF :: y2) eq_refl ltac:(discriminate)).
    cbn in H. discriminate.
  - intros H y1 [|d y2] -> Hne; [congruence|]. cbn [app stops_eol].
    apply Ascii.eqb_neq. intros ->. apply H. apply in_elt.
Qed.

Lemma block_scan_some (s blk : str) :
  block_scan s = Some blk <-> block_at s blk.
Proof.
  unfold block_scan, block_at. split.
  - destruct (startswith s marker) eqn:Em; [|discriminate].
    apply startswith_split in Em. cbv zeta.
    destruct (lstrip_split (skipn (length marker) s)) as (ws & Ews & Hws).
    set (s2 := lstrip (skipn (length marker) s)) in *.
    destruct (startswith s2 "[[") eqn:Eo; [|discriminate].
    apply startswith_split in Eo. change (length ("[[" : str)) with 2 in Eo.
    destruct (scan_until _ stops_close (skipn 2 s2)) as [[x r]|] eqn:Ex;
      [|discriminate].
    destruct (scan_until _ stops_eol (skipn 2 r)) as [[y r3]|] eqn:Ey;
      [|discriminate].
    intros H. injection H as <-.
    apply scan_until_some in Ex, Ey.
    destruct Ex as (Ex & _ & Hc & Hx). destruct Ey as (Ey & _ & He & Hy).
    unfold stops_close in Hc. apply startswith_split in Hc.
    change (length ("]]" : str)) with 2 in Hc.
    exists ws, x, y, r3. split; [|split; [exact Hws|split; [|split; [|split]]]].
    + rewrite Em at 1. rewrite Ews. rewrite Eo at 1. rewrite Ex.
      rewrite Hc at 1. rewrite Ey. reflexivity.
    + apply (closes_first_iff x (skipn 2 r)). rewrite <- Hc. exact Hx.
    + now apply (eol_first_iff y r3).
    + now apply stops_eol_iff.
    + reflexivity.
  - intros (ws & x & y & tl & -> & Hws & Hx & Hy & Htl & ->).
    rewrite startswith_app. cbv zeta.
    rewrite skipn_app, Nat.sub_diag, skipn_all, skipn_O. cbn [app].
    rewrite (lstrip_app ws _ Hws) by apply startswith_app.
    rewrite startswith_app.
    change (skipn 2 ("[[" ++ x ++ "]]" ++ y ++ tl)) with (x ++ "]]" ++ y ++ tl).
    assert (Ex : scan_until (cset_mem true Dot) stops_close
                            (x ++ "]]" ++ y ++ tl) = Some (x, "]]" ++ y ++ tl)).
    { apply scan_until_some. repeat split.
      - apply all_dotall.
      - apply startswith_app.
      - now apply closes_first_iff. }
    rewrite Ex. change (skipn 2 ("]]" ++ y ++ tl)) with (y ++ tl).
    assert (Ey : scan_until (cset_mem true Dot) stops_eol (y ++ tl)
                 = Some (y, tl)).
    { apply scan_until_some. repeat split.
      - apply all_dotall.
      - now apply stops_eol_iff.
      - now apply eol_first_iff. }
    rewrite Ey. reflexivity.
Qed.

Lemma block_scan_none (s : str) :
  block_scan s = None <-> ~ starts_block s.
Proof.
  split.
  - intros H (ws & x & tl & -> & Hws). revert H. unfold block_scan.
    rewrite startswith_app. cbv zeta.
    rewrite skipn_app, Nat.sub_diag, skipn_all, skipn_O. cbn [app].
    rewrite (lstrip_app ws _ Hws) by apply startswith_app.
    rewrite startswith_app.
    change (skipn 2 ("[[" ++ x ++ "]]" ++ tl)) with (x ++ "]]" ++ tl).
    destruct (scan_until _ stops_close (x ++ "]]" ++ tl)) as [[x' r]|] eqn:Ex.
    + destruct (scan_eol_total (skipn 2 r)) as (y & r3 & ->). discriminate.
    + intros _.
      pose proof (scan_until_none _ _ _ Ex x ("]]" ++ tl) eq_refl
                                  (all_dotall x)) as Hs.
      unfold stops_close in Hs. rewrite startswith_app in Hs. discriminate.
  - intros H. destruct (block_scan s) as [blk|] eqn:E; [|reflexivity].
    exfalso. apply H. apply block_scan_some in E.
    destruct E as (ws & x & y & tl & -> & Hws & _).
    exists ws, x, (y ++ tl). auto.
Qed.

Lemma first_block_some (content blk : str) :
  first_block content = Some blk <-> tags_block content blk.
Proof.
  unfold tags_block. split.
  - induction content as [|c s IH]; cbn [first_block].
    + destruct (block_scan []) eqn:E; [|discriminate].
      intros H. injection H as ->. exists [], []. split; [reflexivity|].
      split; [now apply block_scan_some|].
      intros p1 p2 H. symmetry in H. apply app_eq_nil in H. tauto.
    + destruct (block_scan (c :: s)) eqn:E.
      * intros H. injection H as ->. exists [], (c :: s).
        split; [reflexivity|]. split; [now apply block_scan_some|].
        intros p1 p2 H. symmetry in H. apply app_eq_nil in H. tauto.
      * intros H. destruct (IH H) as (pre & s0 & -> & Hb & Hmin).
        exists (c :: pre), s0. split; [reflexivity|]. split; [exact Hb|].
        intros [|d p1] p2 Hp Hne; simpl in Hp.
        -- subst p2. now apply block_scan_none.
        -- injection Hp as _ Hp. now apply (Hmin p1 p2).
  - intros (pre & s & -> & Hb & Hmin). induction pre as [|c pre IH].
    + apply block_scan_some in Hb. destruct s; cbn [app first_block];
        now rewrite Hb.
    + cbn [app first_block].
      assert (E : block_scan ((c :: pre) ++ s) = None).
      { apply block_scan_none. apply (Hmin [] (c :: pre) eq_refl).
        discriminate. }
      cbn [app] in E. rewrite E. apply IH.
      intros p1 p2 -> Hne. now apply (Hmin (c :: p1) p2).
Qed.

Lemma first_block_none (content : str) :
  first_block content = None <-> no_tags_block content.
Proof.
  unfold no_tags_block. split.
  - induction content as [|c s IH]; cbn [first_block].
    + destruct (block_scan []) eqn:E; [discriminate|].
      intros _ pre s' H. symmetry in H. apply app_eq_nil in H.
      destruct H as [_ ->]. now apply block_scan_none.
    + destruct (block_scan (c :: s)) eqn:E; [discriminate|].
      intros H [|d pre] s' Hs; simpl in Hs.
      * subst s'. now apply block_scan_none.
      * injection Hs as _ Hs. now apply (IH H pre s').
  - intros H. induction content as [|c s IH]; cbn [first_block].
    + assert (E : block_scan [] = None)
        by (apply block_scan_none; now apply (H [] [])).
      now rewrite E.
    + assert (E : block_scan (c :: s) = None)
        by (apply block_scan_none; now apply (H [] (c :: s))).
      rewrite E. apply IH. intros pre s' ->. now apply (H (c :: pre) s').
Qed.

(** ** [extract_tags] *)

Lemma extract_tags_scan (content : str) :
  extract_tags_content content =
  match first_block content with
  | Some blk => re_findall false tag_pattern2 blk
  | None => re_findall false tag_pattern2 content
  end.
Proof.
  unfold extract_tags_content, re_search.
  rewrite <- (search_first_block content 0).
  destruct (search_from true tag_pattern1 0 content); cbn [option_map];
    [reflexivity|].
  destruct (re_findall false tag_pattern2 content); reflexivity.
Qed.

Lemma re_findall_tokens (s : str) (l : list str) :
  Tokens s l <-> re_findall false tag_pattern2 s = l.
Proof.
  unfold re_findall. split.
  - intros H. apply tokens_findall; [exact H|lia].
  - intros <-. apply findall_tokens. lia.
Qed.

(** A token holds no line feed. *)
Lemma tokens_no_lf (s : str) (l : list str) : Tokens s l -> Forall no_lf l.
Proof.
  induction 1 as [s H|pre t rest l H (_ & Ht & _) Hl IH]; constructor;
    assumption.
Qed.

Lemma extract_tags_no_lf (content : str) :
  Forall no_lf (extract_tags_content content).
Proof.
  rewrite extract_tags_scan.
  destruct (first_block content) as [blk|];
    eapply tokens_no_lf; apply re_findall_tokens; reflexivity.
Qed.

(** On the tags of a document the date filter is exact. *)
Lemma non_date_of_extracted (content : str) :
  non_date (extract_tags_content content) =
  filter (fun t => negb (date_shapeb t)) (extract_tags_content content).
Proof. apply non_date_exact. apply extract_tags_no_lf. Qed.

(** *** The tag line of the specification *)

Lemma tokens_upto_findall (fuel : nat) :
  forall (s : str) (i : nat),
    tokens_upto fuel s = findall_loop fuel false tag_pattern2 i s.
Proof.
  induction fuel as [|fuel IH]; intros s i; [reflexivity|].
  rewrite findall_step. cbn [tokens_upto].
  destruct (token_scan s) as [[t r]|];
    [now rewrite (IH r (i + 4 + length t))|].
  destruct s; [reflexivity|apply IH].
Qed.

Lemma tokens_of_findall (s : str) :
  tokens_of s = re_findall false tag_pattern2 s.
Proof. apply tokens_upto_findall. Qed.

Lemma line_of_split (r : str) :
  exists tl,
    r = line_of r ++ tl /\ (tl = [] \/ exists tl', tl = LF :: tl') /\
    no_lf (line_of r).
Proof.
  induction r as [|c r (tl & E & Htl & Hno)]; cbn [line_of].
  - exists []. repeat split; auto. intros [].
  - destruct (Ascii.eqb c LF) eqn:Ec.
    + apply Ascii.eqb_eq in Ec. subst c. exists (LF :: r).
      repeat split; eauto. intros [].
    + apply Ascii.eqb_neq in Ec. exists tl. repeat split; [|exact Htl|].
      * cbn [app]. now f_equal.
      * intros [H|H]; [congruence|now apply Hno].
Qed.

Lemma tokens_after_spaces (ws s : str) (l : list str) :
  spaces ws -> Tokens s l -> Tokens (ws ++ s) l.
Proof.
  intros Hws Ht. induction Hws as [|c ws Hc Hws IH]; [exact Ht|].
  cbn [app]. apply Tokens_skip; [|exact IH].
  intros (t & rest & E & _). cbn in E. inversion E; subst c. discriminate.
Qed.

(** A tag line is a tag block, with the same tokens. *)
Lemma tag_line_block (s : str) (l : list str) :
  tag_line_at s = Some l ->
  exists blk,
    block_scan s = Some blk /\ l = re_findall false tag_pattern2 blk.
Proof.
  unfold tag_line_at. destruct (startswith s marker) eqn:Em; [|discriminate].
  apply startswith_split in Em. set (r := skipn (length marker) s) in *.
  destruct (token_scan (lstrip (line_of r))) as [[t rest]|] eqn:Et;
    [|discriminate].
  intros E. inversion E; subst l. clear E.
  apply token_scan_some in Et. destruct Et as (Et & Hnt & Hct).
  destruct (line_of_split r) as (tl & Er & Htl & Hno).
  destruct (lstrip_split (line_of r)) as (ws & Ews & Hws).
  rewrite Et in Ews.
  exists ("[[" ++ t ++ "]]" ++ rest). split.
  - apply block_scan_some. exists ws, t, rest, tl.
    repeat split; try assumption.
    + rewrite Em, Er, Ews. now rewrite <- !app_assoc.
    + intros Hin. apply Hno. rewrite Ews.
      apply in_or_app. right. apply in_or_app. right.
      apply in_or_app. right. apply in_or_app. now right.
  - rewrite tokens_of_findall, Ews. apply re_findall_tokens.
    apply tokens_after_spaces; [exact Hws|].
    now apply re_findall_tokens.
Qed.

Lemma extract_agrees_from (whole s : str) :
  (forall pre s', s = pre ++ s' -> starts_block s' -> tag_line_at s' <> None) ->
  match first_block s with
  | Some blk => re_findall false tag_pattern2 blk
  | None => re_findall false tag_pattern2 whole
  end =
  match first_tag_line s with
  | Some l => l
  | None => tokens_of whole
  end.
Proof.
  assert (Hhead : forall s0,
            (starts_block s0 -> tag_line_at s0 <> None) ->
            match block_scan s0, tag_line_at s0 with
            | Some blk, Some l => l = re_findall false tag_pattern2 blk
            | None, None => True
            | _, _ => False
            end).
  { intros s0 H0. destruct (block_scan s0) as [blk|] eqn:Eb.
    - assert (Hs : starts_block s0).
      { apply block_scan_some in Eb.
        destruct Eb as (ws & x & y & tl & E & Hws & _).
        exists ws, x, (y ++ tl). auto. }
      destruct (tag_line_at s0) as [l|] eqn:El; [|now apply H0].
      destruct (tag_line_block s0 l El) as (blk' & Eb' & ->). congruence.
    - destruct (tag_line_at s0) as [l|] eqn:El; [|exact I].
      destruct (tag_line_block s0 l El) as (blk' & Eb' & _). congruence. }
  induction s as [|c s IH]; intros H; cbn [first_block first_tag_line].
  - specialize (Hhead [] (H [] [] eq_refl)).
    destruct (block_scan []), (tag_line_at []); try contradiction;
      [now subst|now rewrite tokens_of_findall].
  - specialize (Hhead (c :: s) (H [] (c :: s) eq_refl)).
    destruct (block_scan (c :: s)), (tag_line_at (c :: s)); try contradiction;
      [now subst|].
    apply IH. intros pre s' E. apply (H (c :: pre) s'). now rewrite E.
Qed.

(** C3 as stated fails.  In [split_pair] the brackets that follow the
    marker close on the next line only: the marker's line holds no token,
    so the specification gives the tokens of the document, and the code
    gives nothing.  In [late_close] they close two lines further: the
    code returns the tokens up to the end of that line and leaves out the
    one that comes after. *)
Lemma tag_block_is_not_a_line :
  spec_extract_tags split_pair = ["z" : str] /\
  extract_tags_content split_pair = [] /\
  spec_extract_tags late_close = ["x" : str; "y" : str; "w" : str] /\
  extract_tags_content late_close = ["x" : str; "y" : str].
Proof. vm_compute. repeat split. Qed.

(** C3, amended: a tag block is the marker, white space if any (line
    breaks count), and an opening pair of brackets that is closed
    somewhere, on that line or on a later one; its text runs from the
    opening pair, through the first closing pair, to the end of that
    line.  When the text has a tag block, the result is the sequence of
    the one-line tokens of the first such block, in the order of the text
    and with repetitions, and is empty when that block holds none,
    whatever tokens the rest of the text holds; when it has none, the
    result is the sequence of tokens of the whole text, which is empty
    when no token begins anywhere.  One of the two cases always applies,
    so a result is always returned, whatever the brackets look like; a
    file that cannot be read gives the empty sequence.  When every marker
    that begins a tag block has a token on its own line, right after the
    blanks, the result is the one the specification describes. *)
Theorem extract_tags_two_tier (content : str) :
  (forall blk, tags_block content blk ->
     forall l, Tokens blk l <-> extract_tags_content content = l) /\
  (no_tags_block content ->
     forall l, Tokens content l <-> extract_tags_content content = l) /\
  (no_tags_block content ->
   (forall pre s, content = pre ++ s -> ~ starts_token s) ->
   extract_tags_content content = []) /\
  ((exists blk, tags_block content blk) \/ no_tags_block content) /\
  ((forall pre s, content = pre ++ s -> starts_block s ->
                  tag_line_at s <> None) ->
   extract_tags_content content = spec_extract_tags content) /\
  (forall st file_path,
     (Fs.read_text st file_path = Ok content ->
      extract_tags st file_path = extract_tags_content content) /\
     (forall e, Fs.read_text st file_path = Raise e ->
                extract_tags st file_path = [])) /\
  extract_tags_content "***Tags:** [[a]] [[b]] [[a]]" =
    ["a" : str; "b" : str; "a" : str] /\
  extract_tags_content ("see [[x]]" ++ [LF] ++ "***Tags:** [[a]] and [[b]]"
                        ++ [LF] ++ "more [[y]]") =
    ["a" : str; "b" : str] /\
  extract_tags_content ("***tags:** [[a]]" ++ [LF] ++ "then [[b]] [[a]]") =
    ["a" : str; "b" : str; "a" : str] /\
  extract_tags_content "***Tags:** [[never closed" = [] /\
  extract_tags_content ("[[broken" ++ [LF] ++ "over]] two lines ]] [ [[") = [].
Proof.
  split; [|split; [|split; [|split; [|split; [|split]]]]].
  - intros blk Hb l. apply first_block_some in Hb.
    rewrite extract_tags_scan, Hb. apply re_findall_tokens.
  - intros Hn l. apply first_block_none in Hn.
    rewrite extract_tags_scan, Hn. apply re_findall_tokens.
  - intros Hn Hno. apply first_block_none in Hn.
    rewrite extract_tags_scan, Hn. apply re_findall_tokens.
    now apply Tokens_none.
  - destruct (first_block content) as [blk|] eqn:E.
    + left. exists blk. now apply first_block_some.
    + right. now apply first_block_none.
  - intros H. rewrite extract_tags_scan. unfold spec_extract_tags.
    now apply extract_agrees_from.
  - intros st file_path. unfold extract_tags. split.
    + intros ->. reflexivity.
    + intros e ->. reflexivity.
  - repeat split.
Qed.

Lemma extract_tags_two_tier_witness :
  let content : str :=
    "***Tags:** [[cs]] [[2024-01-01]]" ++ [LF] ++ "text [[x]]" in
  tags_block content "[[cs]] [[2024-01-01]]" /\
  Tokens "[[cs]] [[2024-01-01]]" (extract_tags_content content) /\
  extract_tags_content content = ["cs" : str; "2024-01-01" : str].
Proof.
  cbv zeta.
  assert (H : tags_block
                ("***Tags:** [[cs]] [[2024-01-01]]" ++ [LF] ++ "text [[x]]")
                "[[cs]] [[2024-01-01]]")
    by (apply first_block_some; reflexivity).
  split; [exact H|]. split; [|reflexivity].
  apply (proj2 (proj1 (extract_tags_two_tier _) _ H _)). reflexivity.
Defined.

(** ** Directories that cannot be listed *)

(** Every directory the walk reaches is a step of the walk, under the
    path made of the names that lead to it. *)
Lemma walk_node_walked (names : list str) :
  forall n top es,
    walked n names = Some (Dir true es) ->
    In (join_all top names,
        map fst (filter (fun e => Fs.is_dir (snd e)) es),
        map fst (filter (fun e => negb (Fs.is_dir (snd e))) es))
       (Fs.walk_node top n).
Proof.
  induction names as [|x xs IH]; intros n top es; cbn [walked join_all fold_left].
  - intros E. inversion E; subst. now left.
  - destruct n as [|[|] es0]; try discriminate.
    destruct (Fs.lookup x es0) as [c|] eqn:El; [|discriminate].
    intros Hw. cbn [Fs.walk_node]. right. apply in_flat_map.
    exists (x, c). split; [now apply lookup_in|].
    assert (Hc : Fs.is_dir c = true).
    { destruct c as [|r es1]; [|reflexivity].
      destruct xs; discriminate. }
    rewrite Hc. exact (IH c (OsPath.join top x) es Hw).
Qed.

Lemma assignments_keys (V : Type) (l : list (str * V)) (d : dict V)
      (k : str) :
  In k (dict_keys (fold_left (fun d kv => dict_set d (fst kv) (snd kv)) l d))
  <-> In k (map fst l) \/ In k (dict_keys d).
Proof.
  revert d. induction l as [|[k0 v0] l IH]; intros d; cbn [fold_left map fst snd In].
  - tauto.
  - rewrite IH, dict_set_keys. intuition congruence.
Qed.

(** What is inside a directory that cannot be listed, and whether the
    directories that cannot be listed are empty, makes no difference to
    the index. *)
Lemma get_existing_folders_prune (g : option str) (st st' : os_state)
      (root_dir : str) (top top' : node) :
  cwd st' = cwd st ->
  Fs.stat st root_dir = Some top -> Fs.stat st' root_dir = Some top' ->
  prune top' = prune top ->
  get_existing_folders g st' root_dir = get_existing_folders g st root_dir.
Proof.
  intros Hc H1 H2 Hp. unfold get_existing_folders, Fs.walk.
  rewrite Hc, H1, H2.
  rewrite <- (walk_node_prune top), <- (walk_node_prune top'), Hp.
  reflexivity.
Qed.

(** C7, amended: for a root path without the NUL character, a root that
    cannot be listed (missing, not a directory, or unreadable) is not an
    error of the builder: the index is empty.  A directory below the root
    that cannot be listed is not omitted: when the walk reaches the
    directory that lists it and the two tests of the loop let that
    listing through, the index has an entry under its lower-cased name.
    What lies inside such a directory is not visited: the index is the
    one of the tree in which these directories are empty. *)
Theorem unreadable_directories_and_the_index (g : option str)
        (st : os_state) (root_dir : str) :
  ~ In NUL root_dir ->
  (Fs.scandir st root_dir = Raise OSError ->
   get_existing_folders g st root_dir = Ok []) /\
  (forall top names es name inside folders,
     Fs.stat st root_dir = Some top ->
     walked top names = Some (Dir true es) ->
     In (name, Dir false inside) es ->
     skipped g (join_all root_dir names) = false ->
     get_existing_folders g st root_dir = Ok folders ->
     exists e, In (lower name, e) folders) /\
  (forall st' top top',
     cwd st' = cwd st ->
     Fs.stat st root_dir = Some top -> Fs.stat st' root_dir = Some top' ->
     prune top' = prune top ->
     get_existing_folders g st' root_dir = get_existing_folders g st root_dir).
Proof.
  intros _. split; [|split].
  - intros H. rewrite get_existing_folders_visits. unfold visits.
    rewrite (walk_unreadable st root_dir H). reflexivity.
  - intros top names es name inside folders Htop Hw Hin Hs Hf.
    rewrite get_existing_folders_visits in Hf. inversion Hf; subst folders.
    assert (Hv : In (join_all root_dir names, name) (visits g st root_dir)).
    { unfold visits, Fs.walk. rewrite Htop. apply in_flat_map.
      eexists. split; [exact (walk_node_walked names top root_dir es Hw)|].
      cbv beta iota. rewrite Hs. apply in_map. apply in_map_iff.
      exists (name, Dir false inside). split; [reflexivity|].
      apply filter_In. auto. }
    assert (Hk : In (lower name)
                    (dict_keys
                       (fold_left (fun d kv => dict_set d (fst kv) (snd kv))
                          (map (fun v => (lower (snd v), entry_of st root_dir v))
                               (visits g st root_dir)) []))).
    { apply assignments_keys. left. rewrite map_map. cbn [fst].
      apply in_map_iff. exists (join_all root_dir names, name). auto. }
    unfold dict_keys in Hk. apply in_map_iff in Hk.
    destruct Hk as ([k e] & Ek & Hk). cbn [fst] in Ek. subst k. eauto.
  - intros st' top top'. apply get_existing_folders_prune.
Qed.

Lemma unreadable_directories_and_the_index_witness :
  get_existing_folders None locked_root "/r" = Ok [] /\
  (exists e,
     In ("private" : str, e)
        [("private" : str, {| path := "/r/private"; depth := 1 |});
         ("notes" : str, {| path := "/r/notes"; depth := 1 |})]).
Proof.
  assert (Hn : ~ In NUL ("/r" : str))
    by (intros H; cbn in H; repeat (destruct H as [H|H]; [discriminate H|]);
        exact H).
  split.
  - apply (proj1 (unreadable_directories_and_the_index
                    None locked_root "/r" Hn)).
    reflexivity.
  - apply (proj1 (proj2 (unreadable_directories_and_the_index
                           None locked_below "/r" Hn))
             (Dir true
                [("private" : str, Dir false [("deep" : str, Dir true [])]);
                 ("notes" : str, Dir true [])])
             []
             [("private" : str, Dir false [("deep" : str, Dir true [])]);
              ("notes" : str, Dir true [])]
             "private" [("deep" : str, Dir true [])]
             [("private" : str, {| path := "/r/private"; depth := 1 |});
              ("notes" : str, {| path := "/r/notes"; depth := 1 |})]);
      try reflexivity.
    now left.
Defined.

(** * Further properties of the script *)

(** ** Where a document is moved to *)

Lemma destination_for_free (st : os_state) (target_folder file_path d : str) :
  destination_for st target_folder file_path = Some d ->
  Fs.exists_ st d = false /\
  exists name, d = OsPath.join target_folder name /\ ~ In OsPath.sep name.
Proof.
  unfold destination_for.
  pose proof (after_last_sep_no_sep file_path) as Hbase.
  fold (OsPath.basename file_path) in Hbase.
  destruct (Fs.exists_ st (OsPath.join target_folder (OsPath.basename file_path)))
    eqn:Ex.
  - destruct (OsPath.splitext (OsPath.basename file_path)) as [b e] eqn:Es.
    pose proof (splitext_app _ _ _ Hbase Es) as Happ.
    destruct (free_suffix _ st target_folder b e 1) as [n|] eqn:En;
      [|discriminate].
    intros H. injection H as <-. apply free_suffix_some in En.
    destruct En as (_ & Hfree & _). split; [exact Hfree|].
    exists (numbered b e n). split; [reflexivity|].
    apply numbered_plain. now rewrite Happ.
  - intros H. injection H as <-. split; [exact Ex|]. eauto.
Qed.

(** X1: a turn of the loop either only opens its document, or opens it and
    moves it, and then onto a name in the selected folder under which
    nothing existed: a move never replaces a file. *)
Theorem moves_never_overwrite (folders : FolderIndex) (rs rs' : run_state)
        (file_path : str) :
  process_file folders rs file_path = Some rs' ->
  (events rs' = events rs ++ [Opened file_path] /\
   rs_os rs' = rs_os rs /\ moved_count rs' = moved_count rs) \/
  exists target_folder name,
    find_best_matching_folder (extract_tags (rs_os rs) file_path) folders =
    Some target_folder /\
    ~ In OsPath.sep name /\
    Fs.exists_ (rs_os rs) (OsPath.join target_folder name) = false /\
    events rs' =
    events rs ++ [Opened file_path;
                  Moved file_path (OsPath.join target_folder name)] /\
    moved_count rs' <= S (moved_count rs).
Proof.
  unfold process_file. intros H.
  destruct (extract_tags (rs_os rs) file_path) as [|t ts];
    [injection H as <-; left; auto|].
  destruct (find_best_matching_folder (t :: ts) folders) as [[|c target]|];
    [injection H as <-; left; auto| |injection H as <-; left; auto].
  destruct (str_eqb _ _); [injection H as <-; left; auto|].
  destruct (destination_for (rs_os rs) (c :: target) file_path)
    as [d|] eqn:Ed; [|discriminate].
  apply destination_for_free in Ed. destruct Ed as (Hfree & name & -> & Hname).
  right. exists (c :: target), name.
  split; [reflexivity|]. split; [exact Hname|]. split; [exact Hfree|].
  destruct (Fs.move _ _ _); injection H as <-; cbn [events moved_count];
    rewrite <- app_assoc; split; auto.
Qed.

Lemma moves_never_overwrite_witness :
  let folders : FolderIndex := [("cs" : str, {| path := "/r/cs"; depth := 1 |})] in
  let rs := RunState pile_one 0 [] in
  let rs' := pile_one_moved in
  let file_path : str := "/r/inbox/note.md" in
  (events rs' = events rs ++ [Opened file_path] /\
   rs_os rs' = rs_os rs /\ moved_count rs' = moved_count rs) \/
  exists target_folder name,
    find_best_matching_folder (extract_tags (rs_os rs) file_path) folders =
    Some target_folder /\
    ~ In OsPath.sep name /\
    Fs.exists_ (rs_os rs) (OsPath.join target_folder name) = false /\
    events rs' =
    events rs ++ [Opened file_path;
                  Moved file_path (OsPath.join target_folder name)] /\
    moved_count rs' <= S (moved_count rs).
Proof.
  cbv zeta.
  exact (moves_never_overwrite
           [("cs" : str, {| path := "/r/cs"; depth := 1 |})]
           (RunState pile_one 0 []) pile_one_moved "/r/inbox/note.md" eq_refl).
Defined.

(** ** What a run opens *)

Lemma process_file_opens (folders : FolderIndex) (rs rs' : run_state)
      (file_path : str) :
  process_file folders rs file_path = Some rs' ->
  exists evs,
    events rs' = events rs ++ Opened file_path :: evs /\
    Forall (fun ev => is_move ev = true) evs /\
    length evs <= 1 /\
    moved_count rs' <= moved_count rs + length evs.
Proof.
  unfold process_file. intros H.
  assert (Hopen : forall st,
    exists evs,
      events (RunState st (moved_count rs) (events rs ++ [Opened file_path])) =
      events rs ++ Opened file_path :: evs /\
      Forall (fun ev => is_move ev = true) evs /\
      length evs <= 1 /\
      moved_count (RunState st (moved_count rs)
                            (events rs ++ [Opened file_path])) <=
      moved_count rs + length evs).
  { intros st. exists []. cbn. repeat split; auto; lia. }
  destruct (extract_tags (rs_os rs) file_path) as [|t ts];
    [injection H as <-; apply Hopen|].
  destruct (find_best_matching_folder (t :: ts) folders) as [[|c target]|];
    [injection H as <-; apply Hopen| |injection H as <-; apply Hopen].
  destruct (str_eqb _ _); [injection H as <-; apply Hopen|].
  destruct (destination_for _ _ _) as [d|]; [|discriminate].
  destruct (Fs.move _ _ _); injection H as <-; exists [Moved file_path d];
    cbn [events moved_count length]; rewrite <- app_assoc;
    (repeat split; [repeat constructor|lia|lia]).
Qed.

Lemma process_files_opens (folders : FolderIndex)
      (markdown_files : list str) (rs rs' : run_state) :
  process_files folders rs markdown_files = Some rs' ->
  exists evs,
    events rs' = events rs ++ evs /\
    filter (fun ev => negb (is_move ev)) evs = map Opened markdown_files /\
    length (filter is_move evs) <= length markdown_files /\
    moved_count rs' <= moved_count rs + length (filter is_move evs).
Proof.
  revert rs. induction markdown_files as [|fp more IH]; intros rs H;
    cbn [process_files] in H.
  - injection H as <-. exists []. rewrite app_nil_r. cbn. auto with arith.
  - destruct (process_file folders rs fp) as [rs1|] eqn:E; [|discriminate].
    apply process_file_opens in E. destruct E as (e1 & E1 & M1 & L1 & C1).
    apply IH in H. destruct H as (e2 & E2 & O2 & L2 & C2).
    assert (F1 : filter is_move e1 = e1).
    { clear - M1. induction M1 as [|ev l Hev _ IHl]; cbn; [reflexivity|].
      now rewrite Hev, IHl. }
    assert (F1' : filter (fun ev => negb (is_move ev)) e1 = []).
    { clear - M1. induction M1 as [|ev l Hev _ IHl]; cbn; [reflexivity|].
      now rewrite Hev. }
    exists (Opened fp :: e1 ++ e2). split; [|split; [|split]].
    + rewrite E2, E1, <- app_assoc. reflexivity.
    + cbn. rewrite filter_app, F1', O2. reflexivity.
    + cbn. rewrite filter_app, F1, length_app. lia.
    + cbn. rewrite filter_app, F1, length_app. lia.
Qed.

Lemma process_file_turn (folders : FolderIndex) (rs rs' : run_state)
      (file_path : str) :
  process_file folders rs file_path = Some rs' ->
  exists moved_to,
    events rs' = events rs ++ turn_events file_path moved_to /\
    moved_count rs' <= moved_count rs + tried [(file_path, moved_to)].
Proof.
  unfold process_file. intros H.
  assert (Hopen : forall st,
    exists moved_to,
      events (RunState st (moved_count rs) (events rs ++ [Opened file_path])) =
      events rs ++ turn_events file_path moved_to /\
      moved_count (RunState st (moved_count rs)
                            (events rs ++ [Opened file_path])) <=
      moved_count rs + tried [(file_path, moved_to)]).
  { intros st. exists None. cbn. split; [reflexivity|lia]. }
  destruct (extract_tags (rs_os rs) file_path) as [|t ts];
    [injection H as <-; apply Hopen|].
  destruct (find_best_matching_folder (t :: ts) folders) as [[|c target]|];
    [injection H as <-; apply Hopen| |injection H as <-; apply Hopen].
  destruct (str_eqb _ _); [injection H as <-; apply Hopen|].
  destruct (destination_for _ _ _) as [d|]; [|discriminate].
  destruct (Fs.move _ _ _); injection H as <-; exists (Some d);
    cbn [events moved_count turn_events tried filter snd length];
    rewrite <- app_assoc; (split; [reflexivity|lia]).
Qed.

Lemma process_files_turns (folders : FolderIndex)
      (markdown_files : list str) (rs rs' : run_state) :
  process_files folders rs markdown_files = Some rs' ->
  exists fates,
    map fst fates = markdown_files /\
    events rs' = events rs ++ run_events fates /\
    moved_count rs' <= moved_count rs + tried fates.
Proof.
  revert rs. induction markdown_files as [|fp more IH]; intros rs H;
    cbn [process_files] in H.
  - injection H as <-. exists []. rewrite app_nil_r. cbn. auto with arith.
  - destruct (process_file folders rs fp) as [rs1|] eqn:E; [|discriminate].
    apply process_file_turn in E. destruct E as (m & E1 & C1).
    apply IH in H. destruct H as (fates & F2 & E2 & C2).
    exists ((fp, m) :: fates). split; [|split].
    + cbn. now rewrite F2.
    + rewrite E2, E1, <- app_assoc. reflexivity.
    + unfold tried in *. cbn [filter snd length] in *.
      destruct m; cbn [length] in *; lia.
Qed.

(** X2: the log of a completed run is made of one stretch for each
    document of the listing, in the order of the listing: the opening of
    the document, followed by at most one move, which is a move of that
    document.  So every document is opened exactly once, nothing else is
    opened, no document is moved twice, and the count the run reports
    does not exceed the number of moves it tried. *)
Theorem documents_opened_once (g : option str) (st : os_state)
        (source_dir root_dir : str) (rs : run_state) :
  sort_markdown_files g st source_dir root_dir = Some (Ok rs) ->
  exists listing fates,
    Fs.listdir st source_dir = Ok listing /\
    map fst fates = markdown_files_of st source_dir listing /\
    events rs = run_events fates /\
    moved_count rs <= tried fates /\
    filter (fun ev => negb (is_move ev)) (events rs) =
    map Opened (markdown_files_of st source_dir listing) /\
    length (filter is_move (events rs)) <=
    length (markdown_files_of st source_dir listing) /\
    moved_count rs <= length (filter is_move (events rs)).
Proof.
  unfold sort_markdown_files. intros H.
  destruct (get_existing_folders g st root_dir) as [folders|e];
    [|discriminate].
  destruct (Fs.listdir st source_dir) as [listing|e]; [|discriminate].
  exists listing.
  destruct (process_files _ _ _) as [rs1|] eqn:E; [|discriminate].
  injection H as <-.
  destruct (process_files_turns _ _ _ _ E) as (fates & F & Ev & Ct).
  apply process_files_opens in E. destruct E as (evs & E & O & L & C).
  cbn [events moved_count app] in E, C, Ev, Ct. exists fates.
  split; [reflexivity|]. split; [exact F|]. split; [exact Ev|].
  split; [exact Ct|]. rewrite E. auto.
Qed.

Lemma documents_opened_once_witness :
  exists listing fates,
    Fs.listdir desk "/r/inbox" = Ok listing /\
    map fst fates = markdown_files_of desk "/r/inbox" listing /\
    events desk_sorted = run_events fates /\
    moved_count desk_sorted <= tried fates /\
    filter (fun ev => negb (is_move ev)) (events desk_sorted) =
    map Opened (markdown_files_of desk "/r/inbox" listing) /\
    length (filter is_move (events desk_sorted)) <=
    length (markdown_files_of desk "/r/inbox" listing) /\
    moved_count desk_sorted <= length (filter is_move (events desk_sorted)).
Proof.
  apply (documents_opened_once (Some ("/r/inbox" : str)) desk
                               "/r/inbox" "/r" desk_sorted).
  vm_compute. reflexivity.
Defined.

(** ** Documents that stay where they are *)

Lemma find_best_empty_index (tags : list str) :
  find_best_matching_folder tags [] = None.
Proof.
  apply find_best_none. intros i j e (tag & key & _ & H & _).
  destruct j; discriminate.
Qed.

Lemma non_date_all_dates (tags : list str) :
  Forall (fun t => is_date_tag t = true) tags -> non_date tags = [].
Proof.
  unfold non_date. induction 1 as [|t ts Ht _ IH]; cbn [filter];
    [reflexivity|].
  now rewrite Ht.
Qed.

(** X3: a document that cannot be read, has no tags or only tags that look
    like dates, or is sorted against an empty index, is opened and left
    where it is: the turn changes neither the file system nor the count. *)
Theorem unroutable_left_in_place (folders : FolderIndex) (rs : run_state)
        (file_path : str) :
  (exists e, Fs.read_text (rs_os rs) file_path = Raise e) \/
  Forall (fun t => is_date_tag t = true) (extract_tags (rs_os rs) file_path) \/
  folders = [] ->
  process_file folders rs file_path =
  Some (RunState (rs_os rs) (moved_count rs)
                 (events rs ++ [Opened file_path])).
Proof.
  intros H. apply process_file_no_destination.
  destruct H as [(e & H)|[H| ->]].
  - unfold extract_tags. rewrite H. reflexivity.
  - unfold find_best_matching_folder. now rewrite (non_date_all_dates _ H).
  - apply find_best_empty_index.
Qed.

Lemma unroutable_left_in_place_witness :
  process_file [("cs" : str, {| path := "/r/cs"; depth := 1 |})]
               (RunState desk 0 []) "/r/inbox/dir.md" =
  Some (RunState desk 0 [Opened "/r/inbox/dir.md"]).
Proof.
  apply (unroutable_left_in_place
           [("cs" : str, {| path := "/r/cs"; depth := 1 |})]
           (RunState desk 0 []) "/r/inbox/dir.md").
  left. exists OSError. reflexivity.
Defined.

(** ** What the tags of a document are *)

Lemma occurs_app (p s a b : str) : occurs p s -> occurs p (a ++ s ++ b).
Proof.
  intros (x & y & ->). exists (a ++ x), (y ++ b).
  now rewrite <- !app_assoc.
Qed.

Lemma tokens_occur (s : str) (l : list str) :
  Tokens s l -> Forall (fun t => occurs ("[[" ++ t ++ "]]") s) l.
Proof.
  induction 1 as [s H|pre t rest l H Ht Hl IH]; constructor.
  - exists pre, rest. now rewrite <- !app_assoc.
  - eapply Forall_impl; [|exact IH]. intros t' Ht'.
    apply (occurs_app _ rest (pre ++ "[[" ++ t ++ "]]") []) in Ht'.
    now rewrite app_nil_r, <- !app_assoc in Ht'.
Qed.

Lemma tokens_closed (s : str) (l : list str) :
  Tokens s l -> Forall (fun t => no_lf t /\ ~ occurs "]]" t) l.
Proof.
  induction 1 as [s H|pre t rest l H (_ & Hlf & Hcf) Hl IH]; constructor;
    [|exact IH].
  split; [exact Hlf|]. intros (a & b & ->). apply Hcf.
  exists a, (b ++ "]"). now rewrite <- !app_assoc.
Qed.

Lemma tags_block_occurs (content blk : str) :
  tags_block content blk -> exists a b, content = a ++ blk ++ b.
Proof.
  intros (pre & s & -> & (ws & x & y & tl & -> & _ & _ & _ & _ & ->) & _).
  exists (pre ++ marker ++ ws), tl. now rewrite <- !app_assoc.
Qed.

(** X4: every tag returned for a text stands in the text between double
    brackets; it holds no line feed and no closing pair of brackets. *)
Theorem extracted_tags_are_bracketed (content : str) :
  Forall (fun t => occurs ("[[" ++ t ++ "]]") content /\
                   no_lf t /\ ~ occurs "]]" t)
         (extract_tags_content content).
Proof.
  rewrite extract_tags_scan.
  destruct (first_block content) as [blk|] eqn:E.
  - assert (Ht : Tokens blk (re_findall false tag_pattern2 blk))
      by now apply re_findall_tokens.
    apply first_block_some, tags_block_occurs in E.
    destruct E as (a & b & ->).
    pose proof (tokens_occur _ _ Ht) as H1.
    pose proof (tokens_closed _ _ Ht) as H2.
    rewrite Forall_forall in *. intros t Hin. split; [|now apply H2].
    apply occurs_app. now apply H1.
  - assert (Ht : Tokens content (re_findall false tag_pattern2 content))
      by now apply re_findall_tokens.
    pose proof (tokens_occur _ _ Ht) as H1.
    pose proof (tokens_closed _ _ Ht) as H2.
    rewrite Forall_forall in *. intros t Hin. split; [now apply H1|now apply H2].
Qed.

(** X5: on the tags of a document [is_date_tag] holds of the four date shapes
    and of nothing else. *)
Theorem extracted_date_tags_exact (content : str) :
  Forall (fun t => is_date_tag t = true <-> date_shape t)
         (extract_tags_content content).
Proof.
  eapply Forall_impl; [|apply extract_tags_no_lf].
  intros t Ht. now apply is_date_tag_exact.
Qed.

(** ** The case of the letters of a tag *)

Lemma lower_char_idem (c : ascii) : lower_char (lower_char c) = lower_char c.
Proof. destruct c as [[] [] [] [] [] [] [] []]; reflexivity. Qed.

Lemma slot_ok_lower (k : slot) (c : ascii) :
  slot_ok k (lower_char c) = slot_ok k c.
Proof. destruct k; destruct c as [[] [] [] [] [] [] [] []]; reflexivity. Qed.

Lemma lower_idem (t : str) : lower (lower t) = lower t.
Proof.
  unfold lower. rewrite map_map. apply map_ext. apply lower_char_idem.
Qed.

Lemma fitsb_lower (shape : list slot) (t : str) :
  fitsb shape (lower t) = fitsb shape t.
Proof.
  revert t. induction shape as [|k sh IH]; intros [|c t]; cbn; try reflexivity.
  now rewrite slot_ok_lower, IH.
Qed.

Lemma is_date_tag_lower (t : str) : is_date_tag (lower t) = is_date_tag t.
Proof.
  rewrite !is_date_tag_fitsb. induction date_shapes as [|sh l IH]; cbn;
    [reflexivity|].
  now rewrite !fitsb_lower, IH.
Qed.

Lemma non_date_lower (tags : list str) :
  non_date (map lower tags) = map lower (non_date tags).
Proof.
  unfold non_date. induction tags as [|t ts IH]; cbn [map filter];
    [reflexivity|].
  rewrite is_date_tag_lower. destruct (is_date_tag t); cbn [negb map];
    now rewrite IH.
Qed.

Lemma collect_matches_lower (l : list str) (folders : FolderIndex) :
  collect_matches (map lower l) folders = collect_matches l folders.
Proof.
  unfold collect_matches. induction l as [|t ts IH]; cbn [map flat_map];
    [reflexivity|].
  now rewrite lower_idem, IH.
Qed.

Lemma find_best_lower (tags : list str) (folders : FolderIndex) :
  find_best_matching_folder (map lower tags) folders =
  find_best_matching_folder tags folders.
Proof.
  now rewrite !find_best_unfold, non_date_lower, collect_matches_lower.
Qed.

(** X6: the selector does not see the case of the letters of the tags: two
    tag sequences that agree once lower-cased get the same folder. *)
Theorem selection_ignores_case (tags tags' : list str) (folders : FolderIndex) :
  map lower tags = map lower tags' ->
  find_best_matching_folder tags folders =
  find_best_matching_folder tags' folders.
Proof.
  intros H. now rewrite <- (find_best_lower tags), H, find_best_lower.
Qed.

Lemma selection_ignores_case_witness :
  find_best_matching_folder
    ["Linear Algebra" : str; "2024-01-01" : str]
    [("linear algebra" : str, {| path := "/r/math/Linear Algebra"; depth := 2 |})] =
  find_best_matching_folder
    ["LINEAR algebra" : str; "2024-01-01" : str]
    [("linear algebra" : str, {| path := "/r/math/Linear Algebra"; depth := 2 |})].
Proof.
  apply (selection_ignores_case
           ["Linear Algebra" : str; "2024-01-01" : str]
           ["LINEAR algebra" : str; "2024-01-01" : str]).
  reflexivity.
Defined.

(** ** The order of the index *)

Lemma dict_set_keys_order (V : Type) (d : dict V) (k : str) (v : V) :
  dict_keys (dict_set d k v) =
  if existsb (str_eqb k) (dict_keys d) then dict_keys d
  else dict_keys d ++ [k].
Proof.
  unfold dict_keys. induction d as [|[k0 v0] d IH]; cbn; [reflexivity|].
  rewrite (str_eqb_sym k k0). destruct (str_eqb k0 k) eqn:E; cbn.
  - apply str_eqb_eq in E. now subst.
  - rewrite IH. destruct (existsb (str_eqb k) (map fst d)); reflexivity.
Qed.

Lemma assignments_keys_order (V : Type) (l : list (str * V)) (d : dict V) :
  dict_keys (fold_left (fun d kv => dict_set d (fst kv) (snd kv)) l d) =
  fold_left (fun seen k => if existsb (str_eqb k) seen then seen
                           else seen ++ [k])
            (map fst l) (dict_keys d).
Proof.
  revert d. induction l as [|[k v] l IH]; intros d; cbn [fold_left map fst snd];
    [reflexivity|].
  now rewrite IH, dict_set_keys_order.
Qed.

Lemma first_seen_in (l seen : list str) (k : str) :
  In k (fold_left (fun seen k => if existsb (str_eqb k) seen then seen
                                 else seen ++ [k]) l seen) ->
  In k seen \/ In k l.
Proof.
  revert seen. induction l as [|x l IH]; intros seen; cbn [fold_left];
    [auto|].
  intros H. apply IH in H. destruct H as [H|H]; [|now right; right].
  destruct (existsb (str_eqb x) seen); [now left|].
  apply in_app_iff in H. destruct H as [H|[->|[]]]; [now left|].
  right. now left.
Qed.

(** X7: the index lists its keys in the order in which the walk first meets
    them, a later folder of the same name taking the place of the earlier
    one; and every key is in lower case. *)
Theorem index_keys_first_seen (g : option str) (st : os_state)
        (root_dir : str) :
  exists folders,
    get_existing_folders g st root_dir = Ok folders /\
    dict_keys folders =
    first_occurrences (map (fun v => lower (snd v)) (visits g st root_dir)) /\
    Forall (fun key => lower key = key) (dict_keys folders).
Proof.
  eexists. split; [apply get_existing_folders_visits|].
  assert (E : dict_keys
                (fold_left (fun d kv => dict_set d (fst kv) (snd kv))
                   (map (fun v => (lower (snd v), entry_of st root_dir v))
                        (visits g st root_dir)) []) =
              first_occurrences
                (map (fun v => lower (snd v)) (visits g st root_dir))).
  { rewrite assignments_keys_order, map_map. reflexivity. }
  split; [exact E|]. rewrite E. apply Forall_forall. intros k Hk.
  apply first_seen_in in Hk. destruct Hk as [[]|Hk].
  apply in_map_iff in Hk. destruct Hk as (v & <- & _). apply lower_idem.
Qed.

(** ** Choosing a directory *)

Lemma browse_loop_listable (st : os_state) (inputs : list str) :
  forall current_dir d rest,
    browse_loop st current_dir inputs = Returns (d, rest) ->
    (exists listing, Fs.listdir st d = Ok listing) /\
    exists used, inputs = used ++ ("0" : str) :: rest.
Proof.
  induction inputs as [|choice inputs IH]; intros current_dir d rest;
    cbn [browse_loop];
    destruct (Fs.listdir st current_dir) as [listing|e] eqn:El;
    try discriminate.
  assert (Hrec : forall dir,
            browse_loop st dir inputs = Returns (d, rest) ->
            (exists listing, Fs.listdir st d = Ok listing) /\
            exists used, choice :: inputs = used ++ ("0" : str) :: rest).
  { intros dir H. apply IH in H. destruct H as (Hl & used & ->).
    split; [exact Hl|]. now exists (choice :: used). }
  destruct (str_eqb choice "0") eqn:E0.
  - intros H. injection H as <- <-. apply str_eqb_eq in E0. subst choice.
    split; [eauto|]. now exists [].
  - destruct (str_eqb (lower choice) "b").
    + destruct (str_eqb _ current_dir); apply Hrec.
    + destruct (isdigit choice); [|apply Hrec].
      destruct (int_of_digits choice) as [n|e]; [|discriminate].
      destruct (_ && _); apply Hrec.
Qed.

(** X9: the directory the browser returns is one it has just listed, and the
    last line it read is the choice "0". *)
Theorem browse_returns_listed_directory (st : os_state)
        (starting_dir : option str) (inputs : list str) (d : str)
        (rest : list str) :
  browse_directories st starting_dir inputs = Returns (d, rest) ->
  (exists listing, Fs.listdir st d = Ok listing) /\
  exists used, inputs = used ++ ("0" : str) :: rest.
Proof. apply browse_loop_listable. Qed.

Lemma browse_returns_listed_directory_witness :
  (exists listing, Fs.listdir desk "/r/archive/cs" = Ok listing) /\
  exists used,
    ["3" : str; "x" : str; "b" : str; "B" : str; "1" : str; "7" : str;
     "3" : str; "1" : str; "0" : str; "y" : str] =
    used ++ ("0" : str) :: ["y" : str].
Proof.
  apply (browse_returns_listed_directory
           desk (Some ("/r/inbox" : str))
           ["3" : str; "x" : str; "b" : str; "B" : str; "1" : str; "7" : str;
            "3" : str; "1" : str; "0" : str; "y" : str]
           "/r/archive/cs" ["y" : str]).
  vm_compute. reflexivity.
Defined.

Lemma isdigit_not_b (choice : str) :
  isdigit choice = true -> str_eqb (lower choice) "b" = false.
Proof.
  intros H. apply str_eqb_neq. intros E.
  destruct choice as [|c [|c' t]]; try discriminate.
  cbn in H. rewrite andb_true_r in H. injection E as E.
  destruct c as [[] [] [] [] [] [] [] []]; discriminate.
Qed.

(** X10: a choice made of digit characters that [int] does not convert (a
    superscript digit, or more than 4300 digits) is not reported as
    invalid: the browser fails with the error of the conversion. *)
Theorem browse_fails_on_unconvertible_digits (st : os_state)
        (current_dir choice : str) (inputs : list str) (listing : list str)
        (e : exn) :
  Fs.listdir st current_dir = Ok listing ->
  isdigit choice = true ->
  int_of_digits choice = Raise e ->
  browse_loop st current_dir (choice :: inputs) = Raises e /\ e = ValueError.
Proof.
  intros Hl Hd Hi. cbn [browse_loop]. rewrite Hl.
  assert (E0 : str_eqb choice "0" = false).
  { apply str_eqb_neq. intros ->. discriminate. }
  rewrite E0, (isdigit_not_b choice Hd), Hd, Hi. split; [reflexivity|].
  unfold int_of_digits in Hi. destruct (_ && _); [discriminate|].
  now injection Hi.
Qed.

Lemma browse_fails_on_unconvertible_digits_witness :
  browse_loop desk "/r" ([ascii_of_nat 178] :: ["0" : str]) = Raises ValueError
  /\ ValueError = ValueError.
Proof.
  apply (browse_fails_on_unconvertible_digits
           desk "/r" [ascii_of_nat 178] ["0" : str]
           ["inbox" : str; "CS" : str; "archive" : str] ValueError);
    reflexivity.
Defined.

(** ** Joined paths *)

Lemma proper_spec (nm : str) :
  proper nm ->
  ~ In OsPath.sep nm /\
  str_eqb nm "" = false /\ str_eqb nm "." = false /\ str_eqb nm ".." = false.
Proof.
  unfold proper, properb. rewrite !andb_true_iff, !negb_true_iff.
  intros (((H1 & H2) & H3) & H4). repeat split; try assumption.
  intros Hin. assert (existsb (Ascii.eqb OsPath.sep) nm = true); [|congruence].
  apply existsb_exists. exists OsPath.sep. split; [exact Hin|].
  apply Ascii.eqb_refl.
Qed.

Lemma proper_not_absolute (nm : str) : proper nm -> startswith nm "/" = false.
Proof.
  intros H. apply proper_spec in H. destruct H as (H & _).
  destruct nm as [|c nm]; [reflexivity|].
  change ("/" : str) with ["/"%char]. cbn [startswith].
  rewrite startswith_nil, andb_true_r.
  destruct (Ascii.eqb "/" c) eqn:E; [|reflexivity].
  apply Ascii.eqb_eq in E. subst. exfalso. apply H. now left.
Qed.

Lemma join_relative (a b : str) :
  startswith b "/" = false ->
  OsPath.join a b =
  match a with
  | [] => b
  | _ => if endswith a "/" then a ++ b else a ++ "/" ++ b
  end.
Proof.
  intros H. unfold OsPath.join. rewrite H. destruct a; reflexivity.
Qed.

Lemma join_proper (a nm : str) :
  proper nm ->
  (a = [] /\ OsPath.join a nm = nm) \/
  (a <> [] /\
   OsPath.join a nm =
   (if endswith a "/" then removelast a else a) ++ OsPath.sep :: nm).
Proof.
  intros Hp. rewrite (join_relative a nm (proper_not_absolute nm Hp)).
  destruct a as [|c a]; [left; auto|]. right. split; [discriminate|].
  destruct (endswith (c :: a) "/") eqn:E; [|reflexivity].
  apply endswith_sep in E. destruct E as (q & E). rewrite E.
  rewrite removelast_last, <- app_assoc. reflexivity.
Qed.

Lemma endswith_app (a b : str) (p : ascii) :
  b <> [] -> endswith (a ++ b) [p] = endswith b [p].
Proof.
  intros Hb. unfold endswith. rewrite rev_app_distr.
  destruct (rev b) as [|d r] eqn:E.
  - apply (f_equal (@rev ascii)) in E. rewrite rev_involutive in E.
    now destruct Hb.
  - change (rev [p]) with [p]. cbn [app startswith].
    now rewrite !startswith_nil.
Qed.

Lemma startswith_head (a b : str) (p : ascii) :
  a <> [] -> startswith (a ++ b) [p] = startswith a [p].
Proof.
  destruct a as [|c a]; [congruence|]. intros _. cbn [app startswith].
  now rewrite !startswith_nil.
Qed.

Lemma join_glue (a b : str) :
  startswith b "/" = false -> OsPath.join a b = a ++ glue a ++ b.
Proof.
  intros H. unfold OsPath.join, glue. rewrite H.
  destruct (_ || _); reflexivity.
Qed.

Lemma glue_nil_or_sep (a : str) : glue (a ++ glue a) = [].
Proof.
  unfold glue. destruct a as [|c a]; [reflexivity|]. cbn [orb app].
  destruct (endswith (c :: a) "/") eqn:E.
  - rewrite app_nil_r. cbn [app]. now rewrite E.
  - change ("/" : str) with ["/"%char].
    rewrite (endswith_app (c :: a) ["/"%char]) by discriminate.
    reflexivity.
Qed.

Lemma glue_app (c a : str) : a <> [] -> glue (c ++ a) = glue a.
Proof.
  intros Ha. unfold glue. change ("/" : str) with ["/"%char].
  rewrite (endswith_app c a) by exact Ha.
  destruct a as [|x a]; [congruence|]. destruct c; reflexivity.
Qed.

(** Joining is associative when the later parts are relative. *)
Lemma join_assoc (c a nm : str) :
  startswith a "/" = false -> proper nm ->
  OsPath.join c (OsPath.join a nm) = OsPath.join (OsPath.join c a) nm.
Proof.
  intros Ha Hp. pose proof (proper_not_absolute nm Hp) as Hn.
  rewrite (join_glue a nm Hn), (join_glue c a Ha), (join_glue _ nm Hn).
  assert (Hrel : startswith (a ++ glue a ++ nm) "/" = false).
  { destruct a as [|x a].
    - exact Hn.
    - change ("/" : str) with ["/"%char] in *.
      now rewrite (startswith_head (x :: a)) by discriminate. }
  rewrite (join_glue c _ Hrel). rewrite <- !app_assoc. do 3 f_equal.
  destruct a as [|x a].
  - cbn [app]. rewrite app_nil_r. now rewrite glue_nil_or_sep.
  - rewrite app_assoc. now rewrite glue_app by discriminate.
Qed.

(** ** The components of a path *)

Lemma norm_comps_snoc_proper (absolute : bool) (cs : list str) (n : str)
      (acc : list str) :
  proper n ->
  OsPath.norm_comps absolute (cs ++ [n]) acc =
  OsPath.norm_comps absolute cs acc ++ [n].
Proof.
  intros Hp. apply proper_spec in Hp. destruct Hp as (_ & E1 & E2 & E3).
  revert acc. induction cs as [|c cs IH]; intros acc;
    cbn [app OsPath.norm_comps].
  - rewrite E1, E2, E3. reflexivity.
  - destruct (str_eqb c _ || str_eqb c _); [apply IH|].
    destruct (_ || _); apply IH.
Qed.

Lemma norm_comps_snoc_empty (absolute : bool) (cs : list str)
      (acc : list str) :
  OsPath.norm_comps absolute (cs ++ [[]]) acc =
  OsPath.norm_comps absolute cs acc.
Proof.
  revert acc. induction cs as [|c cs IH]; intros acc;
    cbn [app OsPath.norm_comps]; [reflexivity|].
  destruct (str_eqb c _ || str_eqb c _); [apply IH|].
  destruct (_ || _); apply IH.
Qed.

Lemma comps_join (a n : str) :
  a <> [] -> proper n ->
  OsPath.norm_comps true (split OsPath.sep (OsPath.join a n)) [] =
  OsPath.norm_comps true (split OsPath.sep a) [] ++ [n].
Proof.
  intros Ha Hp. pose proof (proper_spec n Hp) as (Hsep & _).
  destruct (join_proper a n Hp) as [[-> _]|[_ E]]; [congruence|].
  rewrite E, split_app_sep, (split_plain _ n Hsep).
  rewrite norm_comps_snoc_proper by exact Hp. f_equal.
  destruct (endswith a "/") eqn:Ee; [|reflexivity].
  apply endswith_sep in Ee. destruct Ee as (q & ->).
  rewrite removelast_last.
  change (q ++ ["/"%char]) with (q ++ OsPath.sep :: []).
  rewrite split_app_sep. cbn [split]. now rewrite norm_comps_snoc_empty.
Qed.

Lemma split_no_sep (s : str) :
  Forall (fun w => ~ In OsPath.sep w) (split OsPath.sep s).
Proof.
  induction s as [|c s IH]; cbn [split]; [repeat constructor; tauto|].
  destruct (Ascii.eqb c OsPath.sep) eqn:E.
  - constructor; [tauto|exact IH].
  - apply Ascii.eqb_neq in E. destruct (split OsPath.sep s) as [|w ws].
    + repeat constructor. intros [H|[]]. congruence.
    + inversion IH; subst. constructor; [|assumption].
      intros [H|H]; [congruence|tauto].
Qed.

Definition comp_ok (w : str) : Prop := ~ In OsPath.sep w /\ w <> [].

Lemma norm_comps_ok (absolute : bool) (cs acc : list str) :
  Forall (fun w => ~ In OsPath.sep w) cs -> Forall comp_ok acc ->
  Forall comp_ok (OsPath.norm_comps absolute cs acc).
Proof.
  intros Hcs. revert acc. induction Hcs as [|c cs Hc Hcs IH]; intros acc Hacc;
    cbn [OsPath.norm_comps].
  - now apply Forall_rev.
  - destruct (str_eqb c "" || str_eqb c ".") eqn:E; [now apply IH|].
    apply orb_false_iff in E. destruct E as [E _]. apply str_eqb_neq in E.
    destruct (_ || _); apply IH.
    + constructor; [split; assumption|exact Hacc].
    + destruct acc; [constructor|now inversion Hacc].
Qed.

Lemma split_join_with (comps : list str) :
  Forall comp_ok comps ->
  filter OsPath.nonempty (split OsPath.sep (join_with "/" comps)) = comps.
Proof.
  induction 1 as [|c cs (Hc & Hne) Hcs IH]; [reflexivity|].
  destruct cs as [|c' cs].
  - cbn [join_with]. rewrite (split_plain _ c Hc). cbn.
    destruct c; [congruence|reflexivity].
  - change (join_with "/" (c :: c' :: cs))
      with (c ++ OsPath.sep :: join_with "/" (c' :: cs)).
    rewrite split_app_sep, (split_plain _ c Hc), filter_app, IH. cbn.
    destruct c; [congruence|reflexivity].
Qed.

Lemma split_slashes (k : nat) (s : str) :
  filter OsPath.nonempty (split OsPath.sep (repeat OsPath.sep k ++ s)) =
  filter OsPath.nonempty (split OsPath.sep s).
Proof.
  induction k as [|k IH]; [reflexivity|]. cbn [repeat app split].
  rewrite Ascii.eqb_refl. cbn [filter OsPath.nonempty]. exact IH.
Qed.

(** The components of a normalised absolute path. *)
Lemma normpath_comps (p : str) :
  startswith p "/" = true ->
  filter OsPath.nonempty (split OsPath.sep (OsPath.normpath p)) =
  OsPath.norm_comps true (split OsPath.sep p) [].
Proof.
  intros Hp. unfold OsPath.normpath. destruct p as [|c p]; [discriminate|].
  rewrite Hp.
  set (k := if startswith (c :: p) "//" && negb (startswith (c :: p) "///")
            then 2 else 1).
  assert (Hk : negb (k =? 0) = true /\ exists k', k = S k').
  { unfold k. destruct (_ && _); split; eauto. }
  destruct Hk as (Hk & k' & Ek). rewrite Hk.
  set (comps := OsPath.norm_comps true (split OsPath.sep (c :: p)) []).
  assert (Hok : Forall comp_ok comps)
    by (apply norm_comps_ok; [apply split_no_sep|constructor]).
  destruct (repeat OsPath.sep k ++ join_with "/" comps) eqn:E.
  - rewrite Ek in E. discriminate.
  - rewrite <- E, split_slashes. now apply split_join_with.
Qed.

Lemma abs_comps_spec (cwd p : str) :
  startswith cwd "/" = true ->
  abs_comps cwd p =
  OsPath.norm_comps true
    (split OsPath.sep (if startswith p "/" then p else OsPath.join cwd p)) [].
Proof.
  intros Hc. unfold abs_comps, OsPath.abspath.
  destruct (startswith p "/") eqn:Ep; apply normpath_comps; [exact Ep|].
  rewrite (join_glue cwd p Ep). change ("/" : str) with ["/"%char] in *.
  rewrite startswith_head; [exact Hc|]. now destruct cwd.
Qed.

(** Joining a proper name to a path adds it to the components. *)
Lemma abs_comps_join (cwd a n : str) :
  startswith cwd "/" = true -> proper n ->
  abs_comps cwd (OsPath.join a n) = abs_comps cwd a ++ [n].
Proof.
  intros Hc Hp. rewrite !abs_comps_spec by exact Hc.
  pose proof (proper_not_absolute n Hp) as Hn.
  assert (Hs : startswith (OsPath.join a n) "/" = startswith a "/").
  { rewrite (join_glue a n Hn). destruct a as [|x a]; [exact Hn|].
    change ("/" : str) with ["/"%char].
    now rewrite startswith_head by discriminate. }
  rewrite Hs. destruct (startswith a "/") eqn:Ea.
  - apply comps_join; [|exact Hp]. now destruct a.
  - rewrite (join_assoc cwd a n Ea Hp). apply comps_join; [|exact Hp].
    rewrite (join_glue cwd a Ea). destruct cwd; [discriminate|discriminate].
Qed.

Lemma abs_comps_join_all (cwd top : str) (names : list str) :
  startswith cwd "/" = true -> Forall proper names ->
  abs_comps cwd (join_all top names) = abs_comps cwd top ++ names.
Proof.
  intros Hc Hn. revert top. induction Hn as [|n ns Hp Hns IH]; intros top;
    cbn [join_all fold_left].
  - now rewrite app_nil_r.
  - fold (join_all (OsPath.join top n) ns).
    rewrite IH, (abs_comps_join cwd top n Hc Hp), <- app_assoc. reflexivity.
Qed.

(** ** The relative path of a folder below the root *)

Lemma commonprefix_app (s x : list str) :
  OsPath.commonprefix s (s ++ x) = s.
Proof.
  induction s as [|c s IH]; cbn [app OsPath.commonprefix].
  - now destruct x.
  - now rewrite str_eqb_refl, IH.
Qed.

Lemma skipn_length_app (s x : list str) : skipn (length s) (s ++ x) = x.
Proof. induction s as [|c s IH]; [reflexivity|exact IH]. Qed.

Lemma proper_no_final_sep (nm : str) : proper nm -> endswith nm "/" = false.
Proof.
  intros Hp. apply proper_spec in Hp. destruct Hp as (Hs & _).
  destruct (endswith nm "/") eqn:E; [|reflexivity].
  apply endswith_sep in E. destruct E as (q & ->). exfalso. apply Hs.
  apply in_or_app. right. now left.
Qed.

Lemma proper_not_nil (nm : str) : proper nm -> nm <> [].
Proof. intros Hp ->. discriminate. Qed.

Lemma split_join_all (a : str) (xs : list str) :
  a <> [] -> endswith a "/" = false -> Forall proper xs ->
  split OsPath.sep (join_all a xs) = split OsPath.sep a ++ xs.
Proof.
  intros Ha He Hxs. revert a Ha He.
  induction Hxs as [|x xs Hp Hxs IH]; intros a Ha He;
    cbn [join_all fold_left]; [now rewrite app_nil_r|].
  fold (join_all (OsPath.join a x) xs).
  destruct (join_proper a x Hp) as [[-> _]|[_ E]]; [congruence|].
  rewrite He in E. rewrite IH.
  - rewrite E, split_app_sep.
    rewrite (split_plain _ x (proj1 (proper_spec x Hp))), <- app_assoc.
    reflexivity.
  - rewrite E. now destruct a.
  - rewrite E. change ("/" : str) with ["/"%char].
    change (a ++ OsPath.sep :: x) with (a ++ [OsPath.sep] ++ x).
    rewrite app_assoc, endswith_app by (now apply proper_not_nil).
    now apply proper_no_final_sep.
Qed.

(** Below the root, [relpath] gives back the names that were joined to
    it, so that the number of its parts is the number of those names. *)
Lemma relpath_join_all (cwd root : str) (names : list str) :
  startswith cwd "/" = true -> Forall proper names -> names <> [] ->
  split OsPath.sep (OsPath.relpath cwd (join_all root names) root) = names.
Proof.
  intros Hc Hn Hne. unfold OsPath.relpath.
  fold (abs_comps cwd root). fold (abs_comps cwd (join_all root names)).
  rewrite (abs_comps_join_all cwd root names Hc Hn).
  rewrite commonprefix_app, Nat.sub_diag, skipn_length_app.
  cbn [repeat app]. destruct names as [|x xs]; [congruence|].
  cbn [hd tl]. fold (join_all x xs). inversion Hn as [|? ? Hx Hxs]; subst.
  rewrite split_join_all; try assumption.
  - now rewrite (split_plain _ x (proj1 (proper_spec x Hx))).
  - now apply proper_not_nil.
  - now apply proper_no_final_sep.
Qed.

(** ** Folders of a well-formed tree *)

Lemma well_formed_dir (r : bool) (es : list (str * node)) :
  well_formed (Dir r es) = true ->
  Forall (fun e => proper (fst e)) es /\
  distinct (map fst es) = true /\
  Forall (fun e => well_formed (snd e) = true) es.
Proof.
  cbn [well_formed]. rewrite !andb_true_iff, !forallb_forall.
  intros ((H1 & H2) & H3). repeat split; try assumption;
    apply Forall_forall; assumption.
Qed.

Lemma distinct_lookup (es : list (str * node)) (x : str) (c : node) :
  distinct (map fst es) = true -> In (x, c) es -> Fs.lookup x es = Some c.
Proof.
  induction es as [|[y n] es IH]; cbn [map fst distinct Fs.lookup In];
    [tauto|].
  rewrite andb_true_iff, negb_true_iff. intros (Hy & Hd) [E|Hin].
  - inversion E; subst. now rewrite str_eqb_refl.
  - destruct (str_eqb y x) eqn:Eyx; [|now apply IH].
    apply str_eqb_eq in Eyx. subst y.
    assert (existsb (str_eqb x) (map fst es) = true); [|congruence].
    apply existsb_exists. exists x. split; [|apply str_eqb_refl].
    apply in_map_iff. now exists (x, c).
Qed.

Lemma get_app (n : node) (a b : list str) :
  Fs.get n (a ++ b) =
  match Fs.get n a with Some m => Fs.get m b | None => None end.
Proof.
  revert n. induction a as [|x a IH]; intros n; cbn [app Fs.get];
    [reflexivity|].
  destruct n as [|r es]; [reflexivity|].
  destruct (Fs.lookup x es); [apply IH|reflexivity].
Qed.

Lemma get_well_formed (names : list str) :
  forall n m,
    well_formed n = true -> Fs.get n names = Some m -> well_formed m = true.
Proof.
  induction names as [|x xs IH]; intros n m Hn; cbn [Fs.get].
  - intros E. now inversion E; subst.
  - destruct n as [|r es]; [discriminate|].
    destruct (Fs.lookup x es) as [c|] eqn:El; [|discriminate].
    apply IH. apply (well_formed_dir r es) in Hn. destruct Hn as (_ & _ & Hn).
    apply lookup_in in El. rewrite Forall_forall in Hn. exact (Hn _ El).
Qed.

(** Every step of the walk lists a readable directory of the tree, under
    the path made of the names that lead to it. *)
Lemma walk_node_names (n : node) :
  well_formed n = true ->
  forall top dirpath dirnames files,
    In (dirpath, dirnames, files) (Fs.walk_node top n) ->
    exists names es,
      dirpath = join_all top names /\
      Forall proper names /\
      Fs.get n names = Some (Dir true es) /\
      dirnames = map fst (filter (fun e => Fs.is_dir (snd e)) es).
Proof.
  induction n as [c|r es IH] using node_induction;
    intros Hwf top dirpath dirnames files Hin; [destruct Hin|].
  destruct r; [|destruct Hin]. cbn [Fs.walk_node] in Hin.
  destruct Hin as [E|Hin].
  - inversion E; subst. exists [], es. repeat split. constructor.
  - apply in_flat_map in Hin. destruct Hin as ([x c] & Hxc & Hin).
    destruct (Fs.is_dir c); [|destruct Hin].
    pose proof (well_formed_dir true es Hwf) as (Hp & Hd & Hw).
    rewrite Forall_forall in IH, Hp, Hw.
    destruct (IH _ Hxc (Hw _ Hxc) _ _ _ _ Hin) as (names & es' & E1 & E2 & E3 & E4).
    exists (x :: names), es'. repeat split; try assumption.
    + constructor; [exact (Hp _ Hxc)|exact E2].
    + cbn [Fs.get]. now rewrite (distinct_lookup es x c Hd Hxc).
Qed.

(** ** Paths that resolve *)

Lemma resolve_join_proper (st : os_state) (a nm : str) :
  proper nm ->
  Fs.resolve st (OsPath.join a nm) =
  match container st a with
  | Some cur => Fs.resolve_comps (fs_root st) cur [nm]
  | None => None
  end.
Proof.
  intros Hp. pose proof (proper_spec nm Hp) as (Hsep & _).
  unfold Fs.resolve, container.
  destruct (join_proper a nm Hp) as [[-> E]|[Ha E]]; rewrite E.
  - rewrite (proper_not_absolute nm Hp).
    rewrite (split_plain OsPath.sep nm Hsep).
    destruct nm as [|c nm]; [now apply proper_not_nil in Hp|].
    change (startswith [] "/") with false. cbv beta iota.
    destruct (Fs.resolve_comps (fs_root st) [] (split OsPath.sep (cwd st)));
      reflexivity.
  - set (q := if endswith a "/" then removelast a else a) in *.
    assert (Hs : startswith (q ++ OsPath.sep :: nm) "/" = startswith a "/").
    { rewrite <- E. unfold OsPath.join.
      rewrite (proper_not_absolute nm Hp).
      destruct a as [|c a]; [congruence|].
      destruct (_ || _); change ("/" : str) with ["/"%char];
        cbn [app startswith]; rewrite !startswith_nil; reflexivity. }
    rewrite Hs, split_app_sep, (split_plain OsPath.sep nm Hsep).
    destruct (q ++ OsPath.sep :: nm) eqn:Eq; [now destruct q|].
    destruct a as [|c a]; [congruence|].
    destruct (startswith (c :: a) "/").
    + apply resolve_comps_app.
    + destruct (Fs.resolve_comps (fs_root st) [] (split OsPath.sep (cwd st)));
        [apply resolve_comps_app|reflexivity].
Qed.

Lemma resolve_last_proper (root : node) (cur : list str) (nm : str) :
  proper nm ->
  Fs.resolve_comps root cur [nm] =
  match Fs.get root (rev cur) with
  | Some (Dir _ es) =>
      match Fs.lookup nm es with
      | Some _ => Some (nm :: cur)
      | None => None
      end
  | _ => None
  end.
Proof.
  intros Hp. destruct (proper_spec nm Hp) as (_ & E1 & E2 & E3).
  cbn [Fs.resolve_comps]. destruct (Fs.get root (rev cur)) as [[|r es]|];
    try reflexivity.
  rewrite E1, E2, E3. cbn [orb]. destruct (Fs.lookup nm es); reflexivity.
Qed.

Lemma resolve_comps_final_sep (root : node) (here : list str)
      (cs : list str) (cur : list str) :
  Fs.resolve_comps root here (cs ++ [[]]) = Some cur ->
  Fs.resolve_comps root here cs = Some cur.
Proof.
  rewrite resolve_comps_app.
  destruct (Fs.resolve_comps root here cs) as [cur'|]; [|discriminate].
  cbn [Fs.resolve_comps].
  destruct (Fs.get root (rev cur')) as [[|r es]|]; try discriminate.
  change (str_eqb [] "") with true. cbn [orb]. auto.
Qed.

(** The directory a path denotes is the one in which a name joined to it
    is looked up. *)
Lemma resolve_container (st : os_state) (a : str) (cur : list str) :
  Fs.resolve st a = Some cur -> container st a = Some cur.
Proof.
  unfold Fs.resolve, container. destruct a as [|c a]; [discriminate|].
  set (p := c :: a).
  assert (H : forall here,
            Fs.resolve_comps (fs_root st) here (split OsPath.sep p) = Some cur ->
            Fs.resolve_comps (fs_root st) here
              (split OsPath.sep (if endswith p "/" then removelast p else p)) =
            Some cur).
  { intros here. destruct (endswith p "/") eqn:E; [|auto].
    apply endswith_sep in E. destruct E as (q & ->).
    rewrite removelast_last.
    change (q ++ ["/"%char]) with (q ++ OsPath.sep :: []).
    rewrite split_app_sep. apply resolve_comps_final_sep. }
  destruct (startswith p "/"); [apply H|].
  destruct (Fs.resolve_comps (fs_root st) [] (split OsPath.sep (cwd st)));
    [apply H|discriminate].
Qed.

Lemma stat_join (st : os_state) (a nm : str) (r : bool)
      (es : list (str * node)) (c : node) :
  proper nm ->
  Fs.stat st a = Some (Dir r es) -> Fs.lookup nm es = Some c ->
  Fs.stat st (OsPath.join a nm) = Some c.
Proof.
  intros Hp Ha Hl. unfold Fs.stat in *.
  destruct (Fs.resolve st a) as [cur|] eqn:Er; [|discriminate].
  rewrite (resolve_join_proper st a nm Hp), (resolve_container st a cur Er).
  rewrite (resolve_last_proper (fs_root st) cur nm Hp), Ha, Hl.
  cbn [rev]. rewrite get_app, Ha. cbn [Fs.get]. now rewrite Hl.
Qed.

(** A chain of names that leads from a directory to an object of the
    tree, joined to the path of the directory, is a path of the object. *)
Lemma stat_join_all (st : os_state) (names : list str) :
  Forall proper names ->
  forall a n m,
    Fs.stat st a = Some n -> Fs.get n names = Some m ->
    Fs.stat st (join_all a names) = Some m.
Proof.
  induction 1 as [|x xs Hp Hxs IH]; intros a n m Ha; cbn [Fs.get join_all fold_left].
  - intros E. now inversion E; subst.
  - destruct n as [|r es]; [discriminate|].
    destruct (Fs.lookup x es) as [c|] eqn:El; [|discriminate].
    apply (IH _ c). exact (stat_join st a x r es c Hp Ha El).
Qed.

(** ** What the index says of a folder *)

Lemma visits_names (g : option str) (st : os_state) (root_dir : str)
      (top : node) (v : str * str) :
  Fs.stat st root_dir = Some top -> well_formed top = true ->
  In v (visits g st root_dir) ->
  exists names r es,
    fst v = join_all root_dir names /\
    Forall proper (names ++ [snd v]) /\
    Fs.get top (names ++ [snd v]) = Some (Dir r es).
Proof.
  intros Htop Hwf Hin. unfold visits, Fs.walk in Hin. rewrite Htop in Hin.
  apply in_flat_map in Hin.
  destruct Hin as ([[dirpath dirnames] files] & Hstep & Hin).
  destruct (skipped g dirpath); [destruct Hin|].
  apply in_map_iff in Hin. destruct Hin as (dirname & <- & Hin).
  destruct (walk_node_names top Hwf _ _ _ _ Hstep)
    as (names & es & E1 & E2 & E3 & E4).
  subst dirnames. apply in_map_iff in Hin.
  destruct Hin as ([x c] & Ex & Hin). cbn [fst] in Ex. subst x.
  apply filter_In in Hin. destruct Hin as (Hin & Hc). cbn [snd] in Hc.
  pose proof (get_well_formed names top _ Hwf E3) as Hes.
  apply well_formed_dir in Hes. destruct Hes as (Hp & Hd & _).
  rewrite Forall_forall in Hp. destruct c as [|r' es']; [discriminate|].
  exists names, r', es'. cbn [fst snd]. repeat split; [exact E1| |].
  - apply Forall_app. split; [exact E2|]. constructor; [|constructor].
    exact (Hp _ Hin).
  - rewrite get_app, E3. cbn [Fs.get].
    now rewrite (distinct_lookup es dirname _ Hd Hin).
Qed.

Lemma index_entries_named (g : option str) (st : os_state)
      (root_dir : str) (top : node) (folders : FolderIndex) :
  startswith (cwd st) "/" = true ->
  Fs.stat st root_dir = Some top ->
  well_formed top = true ->
  get_existing_folders g st root_dir = Ok folders ->
  forall key e,
    In (key, e) folders ->
    exists names r es,
      names <> [] /\
      key = lower (last names []) /\
      path e = join_all root_dir names /\
      depth e = length names /\
      Fs.get top names = Some (Dir r es) /\
      Fs.stat st (path e) = Some (Dir r es).
Proof.
  intros Hcwd Htop Hwf Hf. rewrite get_existing_folders_visits in Hf.
  inversion Hf; subst folders. clear Hf. intros key e Hin.
  apply (assignments_in FolderEntry
           (map (fun v => (lower (snd v), entry_of st root_dir v))
                (visits g st root_dir)) [] key e (NoDup_nil _)) in Hin.
  destruct Hin as [(l1 & l2 & E & _)|[_ []]].
  assert (Hv : In (key, e)
                  (map (fun v => (lower (snd v), entry_of st root_dir v))
                       (visits g st root_dir)))
    by (rewrite E; apply in_or_app; right; now left).
  apply in_map_iff in Hv. destruct Hv as ([dirpath dirname] & Ev & Hv).
  inversion Ev; subst key e. clear Ev E.
  destruct (visits_names g st root_dir top _ Htop Hwf Hv)
    as (names & r & es & E1 & E2 & E3).
  cbn [fst snd] in *. subst dirpath.
  assert (Ej : OsPath.join (join_all root_dir names) dirname =
               join_all root_dir (names ++ [dirname]))
    by (unfold join_all; now rewrite fold_left_app).
  assert (Hne : names ++ [dirname] <> []) by (now destruct names).
  assert (Hs : Fs.stat st (join_all root_dir (names ++ [dirname])) =
               Some (Dir r es))
    by exact (stat_join_all st (names ++ [dirname]) E2 root_dir top _ Htop E3).
  exists (names ++ [dirname]), r, es. unfold entry_of. cbn [fst snd path depth].
  rewrite Ej. repeat split; try assumption.
  - now rewrite last_last.
  - now rewrite (relpath_join_all (cwd st) root_dir _ Hcwd E2 Hne).
Qed.

(** X8: when the root folder is a tree in which every directory lists
    proper names (no separator in them, none empty, [.] or [..]), each
    once, and the working directory is absolute, every entry of the index
    is that of a directory of the tree: the key is the lower-cased name of
    the directory, the path is the root joined with the names that lead to
    it and is the path of a directory, and the depth is the number of
    those names, 1 for a folder listed in the root. *)
Theorem indexed_folders_exist_at_depth (g : option str) (st : os_state)
        (root_dir : str) (top : node) :
  startswith (cwd st) "/" = true ->
  Fs.stat st root_dir = Some top ->
  well_formed top = true ->
  exists folders,
    get_existing_folders g st root_dir = Ok folders /\
    forall key e,
      In (key, e) folders ->
      exists names r es,
        names <> [] /\
        key = lower (last names []) /\
        path e = join_all root_dir names /\
        depth e = length names /\
        Fs.get top names = Some (Dir r es) /\
        Fs.stat st (path e) = Some (Dir r es) /\
        Fs.isdir st (path e) = true.
Proof.
  intros Hcwd Htop Hwf. eexists. split; [apply get_existing_folders_visits|].
  intros key e Hin.
  destruct (index_entries_named g st root_dir top _ Hcwd Htop Hwf
              (get_existing_folders_visits g st root_dir) key e Hin)
    as (names & r & es & H1 & H2 & H3 & H4 & H5 & H6).
  exists names, r, es. repeat split; try assumption.
  unfold Fs.isdir. now rewrite H6.
Qed.

Lemma indexed_folders_exist_at_depth_witness :
  startswith (cwd desk) "/" = true /\
  Fs.stat desk "/r" = Some desk_root /\
  well_formed desk_root = true /\
  exists folders,
    get_existing_folders (Some ("/r/inbox" : str)) desk "/r" = Ok folders /\
    forall key e,
      In (key, e) folders ->
      exists names r es,
        names <> [] /\
        key = lower (last names []) /\
        path e = join_all "/r" names /\
        depth e = length names /\
        Fs.get desk_root names = Some (Dir r es) /\
        Fs.stat desk (path e) = Some (Dir r es) /\
        Fs.isdir desk (path e) = true.
Proof.
  repeat split;
    apply (indexed_folders_exist_at_depth (Some ("/r/inbox" : str)) desk "/r"
             desk_root); reflexivity.
Defined.

(** ** Where a run puts the documents *)




